(** * Tetris (tetris.py): the board, the pieces and the game loop

    A shallow embedding of the simulation core of [tetris.py] (the module
    constants, [shape_cells], [make_grid], [valid_space], [clear_lines], the
    class [Piece] and the state-changing methods of the class [Tetris]),
    followed by the properties of its specification.

    Python integers are unbounded and are modelled by [Z]; the dictionary
    [locked], keyed by [(x, y)] pairs, is a [gmap (Z * Z) Color]; the dense grid
    is a list of rows; the floats [fall_time] and [fall_speed] are IEEE 754
    binary64 numbers, with the operations of the standard library's
    [SpecFloat] at precision 53. Drawing, fonts and the window are left
    out. *)

From Stdlib Require Import ZArith SpecFloat List Ascii String Lia.
From stdpp Require Import gmap strings list fin_maps sorting.

Local Open Scope Z_scope.

(** ** Configuration *)

Definition COLUMNS : Z := 10.
Definition ROWS : Z := 20.

Definition Color : Type := Z * Z * Z.

(** The seven keys of the dictionary [TETROMINOES]: the one-letter strings
    ['I'], ['J'], ['L'], ['O'], ['S'], ['T'], ['Z']. *)
Inductive PieceKey : Set :=
  KeyI | KeyJ | KeyL | KeyO | KeyS | KeyT | KeyZ.

#[global] Instance PieceKey_eq_dec : EqDecision PieceKey.
Proof. solve_decision. Defined.

(** A shape is a list of strings, one per row, ['1'] marking a cell. *)
Abbreviation Shape := (list string).

Definition TETROMINOES (key : PieceKey) : list Shape :=
  match key with
  | KeyI => [ ["0000"; "1111"; "0000"; "0000"];
              ["0010"; "0010"; "0010"; "0010"] ]
  | KeyJ => [ ["100"; "111"; "000"];
              ["011"; "010"; "010"];
              ["000"; "111"; "001"];
              ["010"; "010"; "110"] ]
  | KeyL => [ ["001"; "111"; "000"];
              ["010"; "010"; "011"];
              ["000"; "111"; "100"];
              ["110"; "010"; "010"] ]
  | KeyO => [ ["11"; "11"] ]
  | KeyS => [ ["011"; "110"; "000"];
              ["010"; "011"; "001"] ]
  | KeyT => [ ["010"; "111"; "000"];
              ["010"; "011"; "010"];
              ["000"; "111"; "010"];
              ["010"; "110"; "010"] ]
  | KeyZ => [ ["110"; "011"; "000"];
              ["001"; "011"; "010"] ]
  end%string.

(** [list(TETROMINOES.keys())]: the keys in the order of the literal. *)
Definition PIECE_KEYS : list PieceKey :=
  [KeyI; KeyJ; KeyL; KeyO; KeyS; KeyT; KeyZ].

Definition COLORS : list Color :=
  [ (0, 240, 240); (0, 0, 240); (240, 160, 0); (240, 240, 0);
    (0, 240, 0); (160, 0, 240); (240, 0, 0) ].

(** [seq.index(v)]: the position of the first occurrence. *)
Fixpoint list_index `{EqDecision A} (v : A) (l : list A) : nat :=
  match l with
  | [] => 0%nat
  | a :: l' => if decide (a = v) then 0%nat else S (list_index v l')
  end.

(** ** Helper functions *)

(** [enumerate(l)], counting from [i]. *)
Fixpoint enumerate_from {A} (i : Z) (l : list A) : list (Z * A) :=
  match l with
  | [] => []
  | a :: l' => (i, a) :: enumerate_from (i + 1) l'
  end.

Definition enumerate {A} (l : list A) : list (Z * A) := enumerate_from 0 l.

(** The generator [shape_cells], as the list of the pairs it yields. *)
Definition shape_cells (shape : Shape) (offset_x offset_y : Z) : list (Z * Z) :=
  flat_map (fun '(y, row) =>
    flat_map (fun '(x, ch) =>
      if Ascii.eqb ch "1" then [(offset_x + x, offset_y + y)] else [])
      (enumerate (list_ascii_of_string row)))
    (enumerate shape).

(** The loop of [valid_space] over the cells, with its two early returns. *)
Fixpoint valid_cells (cells : list (Z * Z)) (locked : gmap (Z * Z) Color) : bool :=
  match cells with
  | [] => true
  | (x, y) :: rest =>
      if (x <? 0) || (x >=? COLUMNS) || (y >=? ROWS) then false
      else if (y >=? 0) && bool_decide (is_Some (locked !! (x, y))) then false
      else valid_cells rest locked
  end.

Definition valid_space (shape : Shape) (offset_x offset_y : Z)
    (locked : gmap (Z * Z) Color) : bool :=
  valid_cells (shape_cells shape offset_x offset_y) locked.

(** ** Cells of a shape, stated without the generator *)

(** The shape has a ['1'] in row [i], column [j]. *)
Definition occupied (shape : Shape) (j i : Z) : Prop :=
  0 <= i /\ 0 <= j /\
  exists row, shape !! Z.to_nat i = Some row /\
              list_ascii_of_string row !! Z.to_nat j = Some "1"%char.

(** ** The dense grid *)

Abbreviation Grid := (list (list (option Color))).

(** [make_grid]: a [ROWS] x [COLUMNS] grid of [None], in which every entry of
    the dictionary that lies in the well is written at [grid[y][x]]. The keys
    of a dictionary are distinct, so the order of the iteration does not show
    in the result. *)
Definition make_grid (locked_positions : gmap (Z * Z) Color) : Grid :=
  map_fold (fun '(x, y) color grid =>
      if (0 <=? y) && (y <? ROWS) && (0 <=? x) && (x <? COLUMNS)
      then alter (fun row => <[Z.to_nat x := Some color]> row) (Z.to_nat y) grid
      else grid)
    (replicate (Z.to_nat ROWS) (replicate (Z.to_nat COLUMNS) None))
    locked_positions.

(** [grid[y][x]] for indices that are not negative; [None] stands for the
    entry [None] (and for an index out of range, which does not occur on the
    grids of [make_grid], see [make_grid_cell]). *)
Definition grid_cell (grid : Grid) (y x : Z) : option Color :=
  match grid !! Z.to_nat y with
  | Some row => default None (row !! Z.to_nat x)
  | None => None
  end.

(** ** Line clearing *)

(** [all(grid[y][x] is not None for x in range(COLUMNS))] *)
Definition row_complete (grid : Grid) (y : Z) : bool :=
  forallb (fun x => bool_decide (is_Some (grid_cell grid y x))) (seqZ 0 COLUMNS).

(** The inner loop of the deletion: [del locked[(x, row)]] for the keys present. *)
Definition delete_row (locked : gmap (Z * Z) Color) (row : Z) : gmap (Z * Z) Color :=
  foldl (fun m x => if bool_decide (is_Some (m !! (x, row))) then delete (x, row) m else m)
    locked (seqZ 0 COLUMNS).

(** [sum(1 for cleared in lines_to_clear if y < cleared)] *)
Definition shift_of (lines_to_clear : list Z) (y : Z) : Z :=
  Z.of_nat (length (List.filter (fun cleared => y <? cleared) lines_to_clear)).

(** The inner loop of the shift:
    [locked[(x, y + shift)] = locked.pop((x, y))] for the keys present. *)
Definition shift_row (shift : Z) (locked : gmap (Z * Z) Color) (y : Z)
    : gmap (Z * Z) Color :=
  foldl (fun m x =>
      match m !! (x, y) with
      | Some c => <[(x, y + shift) := c]> (delete (x, y) m)
      | None => m
      end)
    locked (seqZ 0 COLUMNS).

(** [sorted(l, reverse=True)] on integers. *)
Definition sorted_reverse (l : list Z) : list Z := merge_sort (flip Z.le) l.

(** [clear_lines(grid, locked)]: the number returned and the dictionary
    [locked] as the call leaves it. *)
Definition clear_lines (grid : Grid) (locked : gmap (Z * Z) Color)
    : Z * gmap (Z * Z) Color :=
  let lines_to_clear := List.filter (row_complete grid) (seqZ 0 ROWS) in
  match lines_to_clear with
  | [] => (0, locked)
  | first :: others =>
      let locked1 := foldl delete_row locked (reverse lines_to_clear) in
      let max_line := foldl Z.max first others in
      let locked2 :=
        foldl (fun m y =>
            let shift := shift_of lines_to_clear y in
            if 0 <? shift then shift_row shift m y else m)
          locked1
          (sorted_reverse (List.filter (fun r => r <? max_line) (seqZ 0 ROWS))) in
      (Z.of_nat (length lines_to_clear), locked2)
  end.

(** ** Python list indexing and remainder *)

(** [l[i]]: [None] stands for [IndexError]. *)
Definition getitem {A} (l : list A) (i : Z) : option A :=
  if 0 <=? i then l !! Z.to_nat i
  else if 0 <=? i + Z.of_nat (length l) then l !! Z.to_nat (i + Z.of_nat (length l))
  else None.

(** [a % b]: [None] stands for [ZeroDivisionError]. The remainder has the sign
    of the divisor, as [Z.modulo]. *)
Definition py_mod (a b : Z) : option Z :=
  if b =? 0 then None else Some (a mod b).

(** ** Piece class *)

Module Piece.

Record t : Type := mk {
  type : PieceKey;
  rotations : list Shape;
  rotation : Z;
  shape : Shape;
  x : Z;
  y : Z;
  color : Color
}.

(** [Piece(type_key)]: [None] stands for an [IndexError]. *)
Definition init (type_key : PieceKey) : option t :=
  let rots := TETROMINOES type_key in
  sh ← getitem rots 0;
  row0 ← getitem sh 0;
  col ← getitem COLORS (Z.of_nat (list_index type_key PIECE_KEYS));
  Some (mk type_key rots 0 sh
          (COLUMNS / 2 - Z.of_nat (String.length row0) / 2)
          (- Z.of_nat (length sh))
          col).

(** [for dx in (-1, 1, -2, 2): if valid_space(...)]: the first offset
    accepted, if there is one. *)
Fixpoint first_kick (sh : Shape) (px py : Z) (locked : gmap (Z * Z) Color)
    (offsets : list Z) : option Z :=
  match offsets with
  | [] => None
  | dx :: rest =>
      if valid_space sh (px + dx) py locked then Some dx
      else first_kick sh px py locked rest
  end.

(** The body shared by [rotate] and [rotate_ccw] once the new rotation
    index [r] is computed; [old] is the index saved on entry. *)
Definition settle (p : t) (old r : Z) (locked : gmap (Z * Z) Color)
    : option (t * bool) :=
  sh ← getitem (rotations p) r;
  if negb (valid_space sh (x p) (y p) locked) then
    match first_kick sh (x p) (y p) locked [-1; 1; -2; 2] with
    | Some dx =>
        Some (mk (type p) (rotations p) r sh (x p + dx) (y p) (color p), true)
    | None =>
        sh_old ← getitem (rotations p) old;
        Some (mk (type p) (rotations p) old sh_old (x p) (y p) (color p), false)
    end
  else Some (mk (type p) (rotations p) r sh (x p) (y p) (color p), true).

(** The methods return the piece as they leave it and their result;
    [None] stands for an exception. *)
Definition rotate (p : t) (locked : gmap (Z * Z) Color) : option (t * bool) :=
  r ← py_mod (rotation p + 1) (Z.of_nat (length (rotations p)));
  settle p (rotation p) r locked.

Definition rotate_ccw (p : t) (locked : gmap (Z * Z) Color) : option (t * bool) :=
  r ← py_mod (rotation p - 1) (Z.of_nat (length (rotations p)));
  settle p (rotation p) r locked.

Definition set_x (p : t) (v : Z) : t :=
  mk (type p) (rotations p) (rotation p) (shape p) v (y p) (color p).

Definition set_y (p : t) (v : Z) : t :=
  mk (type p) (rotations p) (rotation p) (shape p) (x p) v (color p).

(** [valid_space(p.shape, p.x + dx, p.y + dy, locked)] *)
Definition fits (p : t) (dx dy : Z) (locked : gmap (Z * Z) Color) : bool :=
  valid_space (shape p) (x p + dx) (y p + dy) locked.

End Piece.

(** ** Game class *)

(** [random.choice(PIECE_KEYS)]: the outcomes of the successive calls, as the
    sequence of the keys still to be returned. *)
Definition Rng : Type := nat -> PieceKey.

Definition random_choice (g : Rng) : PieceKey * Rng :=
  (g 0%nat, fun n => g (S n)).

(** ** Floats

    A Python float is an IEEE 754 binary64 number: 53 digits of precision,
    exponents below 1024, rounding to the nearest, ties to even. *)
Abbreviation float := spec_float.

Definition float_mul : float -> float -> float := SFmul 53 1024.
Definition float_sub : float -> float -> float := SFsub 53 1024.

(** The conversion of the integer operand of [int * float]; [None] is the
    [OverflowError] of an integer that rounds beyond the largest float. *)
Definition float_of_int (z : Z) : option float :=
  match binary_normalize 53 1024 z 0 false with
  | S754_infinity _ => None
  | f => Some f
  end.

(** [max(a, b)]: [b] when [b > a], else [a]. *)
Definition float_max (a b : float) : float := if SFltb a b then b else a.

(** The literals [0.0], [0.05] and [0.6]: the floats nearest to them,
    [0x1.999999999999ap-5] and [0x1.3333333333333p-1]. *)
Definition f_0_0 : float := S754_zero false.
Definition f_0_05 : float := S754_finite false 7205759403792794 (-57).
Definition f_0_6 : float := S754_finite false 5404319552844595 (-53).

Module Tetris.

Record t : Type := mk {
  locked : gmap (Z * Z) Color;
  grid : Grid;
  current : Piece.t;
  next_piece : Piece.t;
  fall_time : float;
  fall_speed : float;
  score : Z;
  lines : Z;
  level : Z;
  game_over : bool
}.

(** [reset]; [first] and [second] are the pieces that the two calls of
    [get_new_piece] return. *)
Definition reset (first second : Piece.t) : t :=
  mk ∅ (make_grid ∅) first second f_0_0 f_0_6 0 0 1 false.

Definition get_new_piece (key : PieceKey) : option Piece.t := Piece.init key.

(** The first loop of [lock_piece]: the cells of the piece above the well
    set the flag, the others are written in the dictionary. *)
Definition merge (cells : list (Z * Z)) (color : Color)
    (st : gmap (Z * Z) Color * bool) : gmap (Z * Z) Color * bool :=
  foldl (fun '(m, over) '(cx, cy) =>
      if cy <? 0 then (m, true) else (<[(cx, cy) := color]> m, over))
    st cells.

Definition score_table : gmap Z Z :=
  <[1 := 40]> (<[2 := 100]> (<[3 := 300]> (<[4 := 1200]> ∅))).

(** [max(0.05, 0.6 - (level - 1) * 0.05)]; [None] when the level is too
    large for a float and the product raises [OverflowError]. *)
Definition speed_of_level (lvl : Z) : option float :=
  match float_of_int (lvl - 1) with
  | Some k => Some (float_max f_0_05 (float_sub f_0_6 (float_mul k f_0_05)))
  | None => None
  end.

(** [lock_piece]; [fresh] is the piece that its call of [get_new_piece]
    returns. The result is the session as the call leaves it: when the
    fall interval cannot be computed the exception leaves the method at that
    line, after the score, the lines and the level were written and before
    the pieces are. *)
Definition lock_piece (fresh : Piece.t) (s : t) : t :=
  let p := current s in
  let '(locked1, over) :=
    merge (shape_cells (Piece.shape p) (Piece.x p) (Piece.y p)) (Piece.color p)
      (locked s, game_over s) in
  let grid1 := make_grid locked1 in
  let '(cleared, locked2) := clear_lines grid1 locked1 in
  if cleared =? 0 then
    mk locked2 grid1 (next_piece s) fresh (fall_time s) (fall_speed s)
       (score s) (lines s) (level s) over
  else
    let score1 := score s + default 0 (score_table !! cleared) * level s in
    let lines1 := lines s + cleared in
    let level1 := lines1 / 10 + 1 in
    match speed_of_level level1 with
    | Some speed =>
        mk locked2 grid1 (next_piece s) fresh (fall_time s) speed
           score1 lines1 level1 over
    | None =>
        mk locked2 grid1 (current s) (next_piece s) (fall_time s) (fall_speed s)
           score1 lines1 level1 over
    end.

(** Whether [lock_piece] leaves by the [OverflowError] of the fall
    interval. *)
Definition lock_piece_raises (s : t) : bool :=
  let p := current s in
  let '(locked1, _) :=
    merge (shape_cells (Piece.shape p) (Piece.x p) (Piece.y p)) (Piece.color p)
      (locked s, game_over s) in
  let '(cleared, _) := clear_lines (make_grid locked1) locked1 in
  if cleared =? 0 then false
  else
    match speed_of_level ((lines s + cleared) / 10 + 1) with
    | Some _ => false
    | None => true
    end.

Definition set_current (s : t) (p : Piece.t) : t :=
  mk (locked s) (grid s) p (next_piece s) (fall_time s) (fall_speed s)
     (score s) (lines s) (level s) (game_over s).

(** The loop of [hard_drop], [while valid_space(...): self.current.y += 1],
    run for at most [fuel] tests of its condition; [None] when they do not
    suffice. The number of steps taken is returned with the piece. *)
Fixpoint drop (fuel : nat) (p : Piece.t) (locked : gmap (Z * Z) Color)
    : option (Piece.t * nat) :=
  match fuel with
  | O => None
  | S fuel' =>
      if Piece.fits p 0 1 locked then
        match drop fuel' (Piece.set_y p (Piece.y p + 1)) locked with
        | Some (q, n) => Some (q, S n)
        | None => None
        end
      else Some (p, O)
  end.

(** [hard_drop]: the loop, then [lock_piece] and the session as it leaves
    it. *)
Definition hard_drop (fuel : nat) (fresh : Piece.t) (s : t) : option t :=
  '(p, _) ← drop fuel (current s) (locked s);
  Some (lock_piece fresh (set_current s p)).

End Tetris.

(** ** The main loop *)

Inductive Key : Set :=
  | K_ESCAPE | K_LEFT | K_RIGHT | K_UP | K_x | K_z | K_DOWN | K_SPACE | K_r
  | K_other.

Inductive Event : Set :=
  | QUIT
  | KEYDOWN (key : Key)
  | OTHER.

(** What a piece of the loop leaves: the state to go on with, the end of the
    process ([sys.exit()]), an exception, or a hard drop that needs more than
    the steps it was given. *)
Inductive Step (A : Type) : Type :=
  | Next (a : A)
  | SysExit
  | Raised
  | NoFuel.
Arguments Next {A} a.
Arguments SysExit {A}.
Arguments Raised {A}.
Arguments NoFuel {A}.

#[global] Instance step_bind : MBind Step := fun A B k c =>
  match c with
  | Next a => k a
  | SysExit => SysExit
  | Raised => Raised
  | NoFuel => NoFuel
  end.

Module Loop.

Definition World : Type := Tetris.t * Rng.

(** [self.get_new_piece()] with the draw taken from the sequence. *)
Definition new_piece (g : Rng) : Step (Piece.t * Rng) :=
  let '(key, g') := random_choice g in
  match Tetris.get_new_piece key with
  | Some p => Next (p, g')
  | None => Raised
  end.

(** [self.lock_piece()] in the loop: the exception of the fall interval,
    which nothing catches, or the session with the piece drawn. *)
Definition lock (w : World) : Step World :=
  let '(s, g) := w in
  if Tetris.lock_piece_raises s then Raised
  else
    '(fresh, g') ← new_piece g;
    Next (Tetris.lock_piece fresh s, g').

Definition hard_drop (fuel : nat) (w : World) : Step World :=
  let '(s, g) := w in
  match Tetris.drop fuel (Tetris.current s) (Tetris.locked s) with
  | Some (p, _) => lock (Tetris.set_current s p, g)
  | None => NoFuel
  end.

(** [if valid_space(shape, x + dx, y + dy, locked): move] *)
Definition move (dx dy : Z) (s : Tetris.t) : Tetris.t :=
  let p := Tetris.current s in
  if Piece.fits p dx dy (Tetris.locked s)
  then Tetris.set_current s
         (Piece.set_y (Piece.set_x p (Piece.x p + dx)) (Piece.y p + dy))
  else s.

(** The chain of tests on [event.key] in [run]. *)
Definition key_down (fuel : nat) (key : Key) (w : World) : Step World :=
  let '(s, g) := w in
  match key with
  | K_ESCAPE => SysExit
  | K_LEFT => Next (move (-1) 0 s, g)
  | K_RIGHT => Next (move 1 0 s, g)
  | K_UP | K_x =>
      match Piece.rotate (Tetris.current s) (Tetris.locked s) with
      | Some (p, _) => Next (Tetris.set_current s p, g)
      | None => Raised
      end
  | K_z =>
      match Piece.rotate_ccw (Tetris.current s) (Tetris.locked s) with
      | Some (p, _) => Next (Tetris.set_current s p, g)
      | None => Raised
      end
  | K_DOWN => Next (move 0 1 s, g)
  | K_SPACE => hard_drop fuel w
  | K_r | K_other => Next w
  end.

Definition on_event (fuel : nat) (e : Event) (w : World) : Step World :=
  match e with
  | QUIT => SysExit
  | KEYDOWN key => key_down fuel key w
  | OTHER => Next w
  end.

(** [for event in pygame.event.get(): ...] in [run] *)
Fixpoint on_events (fuel : nat) (events : list Event) (w : World) : Step World :=
  match events with
  | [] => Next w
  | e :: rest => w' ← on_event fuel e w; on_events fuel rest w'
  end.

(** The gravity step of [run]; [due] tells whether the fall interval has
    elapsed. The test of [game_over] that follows the lock is the test at
    the head of the next turn of the loop. *)
Definition gravity (due : bool) (w : World) : Step World :=
  let '(s, g) := w in
  if due then
    if Piece.fits (Tetris.current s) 0 1 (Tetris.locked s)
    then Next (move 0 1 s, g)
    else lock w
  else Next w.

(** One poll of the events in [show_game_over]: [R] resets the session and
    goes back to [run], leaving the rest of the events aside. *)
Fixpoint game_over_events (events : list Event) (w : World) : Step World :=
  match events with
  | [] => Next w
  | QUIT :: _ => SysExit
  | KEYDOWN K_ESCAPE :: _ => SysExit
  | KEYDOWN K_r :: _ =>
      '(first, g1) ← new_piece (snd w);
      '(second, g2) ← new_piece g1;
      Next (Tetris.reset first second, g2)
  | _ :: rest => game_over_events rest w
  end.

(** One turn of the loop of [run], or of the loop of [show_game_over] once
    the flag is set: the events polled in the turn and whether the fall
    interval has elapsed. *)
Definition frame (fuel : nat) (events : list Event) (due : bool) (w : World)
    : Step World :=
  if Tetris.game_over (fst w) then game_over_events events w
  else w1 ← on_events fuel events w; gravity due w1.

Fixpoint run (fuel : nat) (frames : list (list Event * bool)) (w : World)
    : Step World :=
  match frames with
  | [] => Next w
  | (events, due) :: rest => w' ← frame fuel events due w; run fuel rest w'
  end.

End Loop.

(** ** The well and its full rows, stated on the dictionary *)

(** The cell lies in the visible well. *)
Definition in_well (x y : Z) : Prop := 0 <= x < COLUMNS /\ 0 <= y < ROWS.

(** Row [y] of the well has all its [COLUMNS] cells among the keys. *)
Definition full_row (locked : gmap (Z * Z) Color) (y : Z) : Prop :=
  0 <= y < ROWS /\ forall x, 0 <= x < COLUMNS -> is_Some (locked !! (x, y)).

Definition full_rowb (locked : gmap (Z * Z) Color) (y : Z) : bool :=
  (0 <=? y) && (y <? ROWS) &&
  forallb (fun x => bool_decide (is_Some (locked !! (x, y)))) (seqZ 0 COLUMNS).

(** The number of full rows of the well. *)
Definition full_rows (locked : gmap (Z * Z) Color) : Z :=
  Z.of_nat (length (List.filter (full_rowb locked) (seqZ 0 ROWS))).

(** The number of full rows of the well with a row index greater than [y]. *)
Definition cleared_below (locked : gmap (Z * Z) Color) (y : Z) : Z :=
  Z.of_nat (length (List.filter (fun r => full_rowb locked r && (y <? r))
                      (seqZ 0 ROWS))).

(** The state of the dictionary in the second loop of [clear_lines] when the
    rows above [k] have been handled: [locked] is the dictionary on entry and
    [cleared] the list of the rows that are cleared. *)
Definition shifted (locked : gmap (Z * Z) Color) (cleared : list Z) (k : Z)
    (m : gmap (Z * Z) Color) : Prop :=
  (forall x y', 0 <= x < COLUMNS -> y' <= k ->
     m !! (x, y') = if decide (y' ∈ cleared) then None else locked !! (x, y')) /\
  (forall x y' c, 0 <= x < COLUMNS -> k < y' ->
     (m !! (x, y') = Some c <->
      exists y, k < y /\ (y ∉ cleared) /\ y' = y + shift_of cleared y /\
                locked !! (x, y) = Some c)) /\
  (forall x y', ~ (0 <= x < COLUMNS) -> m !! (x, y') = locked !! (x, y')).

(** A dictionary with the ten cells of row [y] of the well, all of one color. *)
Definition filled_row (y : Z) (c : Color) : gmap (Z * Z) Color :=
  list_to_map ((fun x => ((x, y), c)) <$> seqZ 0 COLUMNS).

(** The bottom row of the well full, and one key above the well. *)
Definition board_with_key_above : gmap (Z * Z) Color :=
  <[(0, -1) := (240, 0, 0)]> (filled_row 19 (0, 240, 240)).

(** ** The parts of a lock, named *)

(** The cells of the current piece at its anchor. *)
Definition current_cells (s : Tetris.t) : list (Z * Z) :=
  let p := Tetris.current s in
  shape_cells (Piece.shape p) (Piece.x p) (Piece.y p).

(** The dictionary and the flag as the first loop of [lock_piece] leaves them. *)
Definition merged_by_lock (s : Tetris.t) : gmap (Z * Z) Color * bool :=
  Tetris.merge (current_cells s) (Piece.color (Tetris.current s))
    (Tetris.locked s, Tetris.game_over s).

(** The value of [cleared] in [lock_piece]. *)
Definition cleared_by_lock (s : Tetris.t) : Z :=
  (clear_lines (make_grid (merged_by_lock s).1) (merged_by_lock s).1).1.

(** Every key of the dictionary is a cell of the well. *)
Definition keys_in_well (locked : gmap (Z * Z) Color) : Prop :=
  forall x y, is_Some (locked !! (x, y)) -> in_well x y.

(** The O piece as [Piece('O')] builds it. *)
Definition piece_O_spawned : Piece.t :=
  Piece.mk KeyO (TETROMINOES KeyO) 0 ["11"; "11"]%string 4 (-2) (240, 240, 0).

(** The I piece as [Piece('I')] builds it. *)
Definition piece_I_spawned : Piece.t :=
  Piece.mk KeyI (TETROMINOES KeyI) 0 ["0000"; "1111"; "0000"; "0000"]%string
    3 (-4) (0, 240, 240).

(** The T piece, unrotated, in the middle of the well. *)
Definition piece_T_midfield : Piece.t :=
  Piece.mk KeyT (TETROMINOES KeyT) 0 ["010"; "111"; "000"]%string
    4 5 (160, 0, 240).

(** ** A session that ends by a hard drop *)

(** Every draw of the random source gives ['O']. *)
Definition all_O : Rng := fun _ => KeyO.

(** The session after [reset], both pieces being O pieces. *)
Definition world_start : Loop.World :=
  (Tetris.reset piece_O_spawned piece_O_spawned, all_O).

(** Ten hard drops in one turn of the loop: the O pieces pile up in columns
    4 and 5, from row 19 up to row 0. *)
Definition stack_frame : list Event * bool :=
  (replicate 10 (KEYDOWN K_SPACE), false).

Definition state_of (r : Step Loop.World) : option Tetris.t :=
  match r with
  | Next w => Some w.1
  | _ => None
  end.

(** The state after the turns [frames] of the loop, from [world_start]; the
    hard drops are given 30 tests of their condition. *)
Definition state_after (frames : list (list Event * bool)) : option Tetris.t :=
  state_of (Loop.run 30 frames world_start).

(** Columns 4 and 5 filled from row 0 to row 19 with the color of the O piece. *)
Definition stacked_locked : gmap (Z * Z) Color :=
  foldr (fun y m => <[(4, y) := (240, 240, 0)]> (<[(5, y) := (240, 240, 0)]> m))
    ∅ (seqZ 0 ROWS).

(** The session once ten O pieces are piled in columns 4 and 5, see
    [stacked_state_reached]. *)
Definition stacked_state : Tetris.t :=
  Tetris.mk stacked_locked (make_grid stacked_locked)
    piece_O_spawned piece_O_spawned f_0_0 f_0_6 0 0 1 false.

(** ** Pieces as the class keeps them *)

(** What [Piece.__init__] establishes and every method keeps: the rotation
    index is an index of [rotations] and [shape] is the entry at that index. *)
Definition piece_ok (p : Piece.t) : Prop :=
  0 <= Piece.rotation p < Z.of_nat (length (Piece.rotations p)) /\
  Piece.rotations p !! Z.to_nat (Piece.rotation p) = Some (Piece.shape p).

(** The piece [p] turned to the rotation index [r], with pattern [sh], at
    column [px]. *)
Definition turned (p : Piece.t) (r : Z) (sh : Shape) (px : Z) : Piece.t :=
  Piece.mk (Piece.type p) (Piece.rotations p) r sh px (Piece.y p) (Piece.color p).

(** The outcome [res] of a rotation of [p] to the index [r], in the words of
    the specification: the new pattern is kept at the anchor when it is valid
    there; otherwise the first of the offsets -1, +1, -2, +2 that gives a
    valid position on the same row is added to the column; with success
    reported in both cases; and when none does, the piece is as before and
    failure is reported. *)
Definition kick_outcome (p : Piece.t) (locked : gmap (Z * Z) Color) (r : Z)
    (res : option (Piece.t * bool)) : Prop :=
  exists sh, Piece.rotations p !! Z.to_nat r = Some sh /\
    (valid_space sh (Piece.x p) (Piece.y p) locked = true ->
       res = Some (turned p r sh (Piece.x p), true)) /\
    (valid_space sh (Piece.x p) (Piece.y p) locked = false ->
       forall before dx after, [-1; 1; -2; 2] = before ++ dx :: after ->
         (forall d, d ∈ before ->
            valid_space sh (Piece.x p + d) (Piece.y p) locked = false) ->
         valid_space sh (Piece.x p + dx) (Piece.y p) locked = true ->
         res = Some (turned p r sh (Piece.x p + dx), true)) /\
    (valid_space sh (Piece.x p) (Piece.y p) locked = false ->
       (forall d, d ∈ [-1; 1; -2; 2] ->
          valid_space sh (Piece.x p + d) (Piece.y p) locked = false) ->
       res = Some (p, false)).

(** The session of [stacked_state] once its current piece has locked above
    the well: the flag is set, the dictionary is as it was. *)
Definition over_state : Tetris.t :=
  Tetris.mk stacked_locked (make_grid stacked_locked)
    piece_O_spawned piece_O_spawned f_0_0 f_0_6 0 0 1 true.

(** ** The sessions of a game *)

(** The piece has the rotation table of its family and is at its spawn row
    or below it (the spawn rows are -4, -3 and -2). *)
Definition family_piece (p : Piece.t) : Prop :=
  Piece.rotations p = TETROMINOES (Piece.type p) /\ -4 <= Piece.y p.

(** What holds of the session all along a game: the keys of the dictionary
    are cells of the well, the current piece is as the class keeps it, of one
    of the seven families, and at a position that [valid_space] accepts, and
    the next piece is as [Piece(key)] built it. *)
Definition session_ok (s : Tetris.t) : Prop :=
  keys_in_well (Tetris.locked s) /\
  (piece_ok (Tetris.current s) /\ family_piece (Tetris.current s)) /\
  Piece.fits (Tetris.current s) 0 0 (Tetris.locked s) = true /\
  exists key, Piece.init key = Some (Tetris.next_piece s).

(** ** The helper [rotate] *)

(** [rotate(shape)], the shape turned a quarter clockwise; [None] stands for
    the [IndexError] of [grid[0]] on an empty shape or of [grid[y][x]] on a
    row shorter than the first one. The indices come from [range] and are
    not negative. (Named apart from the list rotation of stdpp.) *)
Definition rotate_shape (shape : Shape) : option Shape :=
  let grid := list_ascii_of_string <$> shape in
  let h := length grid in
  row0 ← grid !! 0%nat;
  let w := length row0 in
  mapM (fun x =>
      string_of_list_ascii <$>
        mapM (fun y => row ← grid !! y; row !! x) (reverse (seq 0 h)))
    (seq 0 w).

(** The character of row [y], column [x] of a shape. *)
Definition char_at (shape : Shape) (y x : nat) : option ascii :=
  row ← shape !! y; list_ascii_of_string row !! x.

(** The shape has [h] rows, all of [w] characters. *)
Definition rectangular (shape : Shape) (h w : nat) : Prop :=
  length shape = h /\ Forall (fun row => String.length row = w) shape.

(** The figures of the session: no row of the well is full, the counts are
    not negative, the level and the fall interval are those of the count of
    lines. *)
Definition stats_ok (s : Tetris.t) : Prop :=
  (forall y, ~ full_row (Tetris.locked s) y) /\
  0 <= Tetris.lines s /\
  0 <= Tetris.score s /\
  Tetris.level s = Tetris.lines s / 10 + 1 /\
  Tetris.speed_of_level (Tetris.level s) = Some (Tetris.fall_speed s).

Definition game_ok (s : Tetris.t) : Prop := session_ok s /\ stats_ok s.

(** ** A rotation that is pushed aside, and one that fails *)

(** Four cells around [piece_T_midfield]: the pattern that [rotate] gives is
    taken at the anchor, at (5, 7), and free one column to the left; the
    pattern that [rotate_ccw] gives is taken at the anchor and at the four
    offsets; and the piece can go neither left, nor right, nor down. *)
Definition kick_locked : gmap (Z * Z) Color :=
  list_to_map
    ((fun k => (k, (240, 0, 0))) <$> [(5, 7); (3, 6); (6, 7); (7, 6)]).

Definition kick_state : Tetris.t :=
  Tetris.mk kick_locked (make_grid kick_locked)
    piece_T_midfield piece_O_spawned f_0_0 f_0_6 0 0 1 false.

(** ** A lock that completes four rows *)

(** Rows 16 to 19 of the well, all but their column 5. *)
Definition four_rows_locked : gmap (Z * Z) Color :=
  list_to_map
    ((fun k => (k, (240, 160, 0))) <$>
       (y ← seqZ 16 4; (fun x => (x, y)) <$> seqZ 0 5 ++ seqZ 6 4)).

(** The I piece upright, its four cells in column 5 at rows 16 to 19. *)
Definition piece_I_upright : Piece.t :=
  Piece.mk KeyI (TETROMINOES KeyI) 1 ["0010"; "0010"; "0010"; "0010"]%string
    3 16 (0, 240, 240).

(** A session at level 1 with six lines cleared, the I piece over the
    gap. *)
Definition four_rows_state : Tetris.t :=
  Tetris.mk four_rows_locked (make_grid four_rows_locked)
    piece_I_upright piece_O_spawned f_0_0 f_0_6 240 6 1 false.

(** The pairs of levels from 1 to [n]: the fall interval of the higher one
    is at most that of the lower one. *)
Definition speeds_checked (n : Z) : bool :=
  forallb (fun l1 => forallb (fun l2 =>
      if l1 <=? l2 then
        match Tetris.speed_of_level l1, Tetris.speed_of_level l2 with
        | Some v1, Some v2 => SFleb v2 v1
        | _, _ => false
        end
      else true) (seqZ 1 n)) (seqZ 1 n).


(** * Properties *)

Lemma elem_of_enumerate_from {A} (l : list A) (i k : Z) (a : A) :
  (k, a) ∈ enumerate_from i l <-> i <= k /\ l !! Z.to_nat (k - i) = Some a.
Proof.
  revert i. induction l as [|b l IH]; intros i; simpl.
  - rewrite elem_of_nil. split; [tauto | intros [_ H]; discriminate].
  - rewrite elem_of_cons, IH. split.
    + intros [H | [Hle H]].
      * injection H as -> ->. split; [lia|]. by replace (i - i) with 0 by lia.
      * split; [lia|]. replace (Z.to_nat (k - i)) with (S (Z.to_nat (k - (i + 1)))) by lia.
        done.
    + intros [Hle H]. destruct (decide (k = i)) as [->|Hne].
      * left. replace (i - i) with 0 in H by lia. simpl in H. congruence.
      * right. split; [lia|].
        replace (Z.to_nat (k - i)) with (S (Z.to_nat (k - (i + 1)))) in H by lia.
        done.
Qed.

Lemma elem_of_shape_cells (shape : Shape) (ox oy x y : Z) :
  (x, y) ∈ shape_cells shape ox oy <-> occupied shape (x - ox) (y - oy).
Proof.
  unfold shape_cells, occupied. rewrite list_elem_of_In, in_flat_map. split.
  - intros [[i row] [Hrow Hin]]. apply in_flat_map in Hin as [[j ch] [Hch Hin]].
    apply list_elem_of_In, elem_of_enumerate_from in Hrow as [Hi Hrow].
    apply list_elem_of_In, elem_of_enumerate_from in Hch as [Hj Hch].
    destruct (Ascii.eqb_spec ch "1"); [subst ch | destruct Hin].
    destruct Hin as [Hin | []]. injection Hin as <- <-.
    replace (ox + j - ox) with (j - 0) by lia.
    replace (oy + i - oy) with (i - 0) by lia.
    split; [lia|]. split; [lia|]. eauto.
  - intros (Hi & Hj & row & Hrow & Hch).
    exists (y - oy, row). split.
    + apply list_elem_of_In, elem_of_enumerate_from. split; [done|].
      by replace (y - oy - 0) with (y - oy) by lia.
    + apply in_flat_map. exists (x - ox, "1"%char). split.
      * apply list_elem_of_In, elem_of_enumerate_from. split; [done|].
        by replace (x - ox - 0) with (x - ox) by lia.
      * simpl. left. f_equal; lia.
Qed.

Lemma valid_cells_true (cells : list (Z * Z)) (locked : gmap (Z * Z) Color) :
  valid_cells cells locked = true <->
  forall x y, (x, y) ∈ cells ->
    0 <= x < COLUMNS /\ y < ROWS /\ (0 <= y -> locked !! (x, y) = None).
Proof.
  induction cells as [|[cx cy] rest IH]; simpl.
  - split; [|done]. intros _ x y H. by apply elem_of_nil in H.
  - destruct (Z.ltb_spec cx 0); simpl.
    { split; [done|]. intros H'. destruct (H' cx cy) as [? _]; [left|lia]. }
    destruct (Z.geb_spec cx COLUMNS); simpl.
    { split; [done|]. intros H'. destruct (H' cx cy) as [? _]; [left|lia]. }
    destruct (Z.geb_spec cy ROWS); simpl.
    { split; [done|]. intros H'. destruct (H' cx cy) as (_ & ? & _); [left|lia]. }
    destruct (Z.geb_spec cy 0); simpl.
    + case_bool_decide as Hin; simpl.
      { split; [done|]. intros H'. destruct (H' cx cy) as (_ & _ & Hn); [left|].
        rewrite Hn in Hin by lia. by destruct Hin. }
      rewrite IH. split.
      * intros Hrest x y [Heq | Hin']%elem_of_cons; [|by apply Hrest].
        injection Heq as -> ->. split; [lia|]. split; [lia|]. intros _.
        apply eq_None_not_Some. done.
      * intros H' x y Hin'. apply H'. by right.
    + rewrite IH. split.
      * intros Hrest x y [Heq | Hin']%elem_of_cons; [|by apply Hrest].
        injection Heq as -> ->. split; [lia|]. split; [lia|]. lia.
      * intros H' x y Hin'. apply H'. by right.
Qed.

(** C2. [valid_space] returns [True] exactly when every cell of the shape,
    translated by the anchor, has its column in [0, COLUMNS), its row below
    [ROWS] and, when its row is not negative, is not a key of [locked]. Cells
    at negative rows are not looked up in [locked], yet their column is
    checked. *)
Theorem valid_space_iff (shape : Shape) (offset_x offset_y : Z)
    (locked : gmap (Z * Z) Color) :
  valid_space shape offset_x offset_y locked = true <->
  forall j i, occupied shape j i ->
    0 <= offset_x + j < COLUMNS /\
    offset_y + i < ROWS /\
    (0 <= offset_y + i -> locked !! (offset_x + j, offset_y + i) = None).
Proof.
  unfold valid_space. rewrite valid_cells_true. split.
  - intros H j i Hocc. apply H, elem_of_shape_cells.
    by replace (offset_x + j - offset_x) with j by lia;
       replace (offset_y + i - offset_y) with i by lia.
  - intros H x y Hin%elem_of_shape_cells.
    specialize (H _ _ Hin).
    by replace (offset_x + (x - offset_x)) with x in H by lia;
       replace (offset_y + (y - offset_y)) with y in H by lia.
Qed.

(** ** The grid of [make_grid] *)

Lemma grid_cell_alter_insert (grid : Grid) (x y x' y' : Z) (c : Color) :
  0 <= x -> 0 <= y -> 0 <= x' -> 0 <= y' ->
  (Z.to_nat y < length grid)%nat ->
  (forall row, grid !! Z.to_nat y = Some row -> Z.to_nat x < length row)%nat ->
  grid_cell (alter (fun row => <[Z.to_nat x := Some c]> row) (Z.to_nat y) grid) y' x' =
  if decide (x' = x /\ y' = y) then Some c else grid_cell grid y' x'.
Proof.
  intros Hx Hy Hx' Hy' Hlen Hrow. unfold grid_cell.
  destruct (decide (y' = y)) as [->|Hne].
  - rewrite list_lookup_alter_eq.
    destruct (grid !! Z.to_nat y) as [row|] eqn:Hr; simpl.
    + destruct (decide (x' = x)) as [->|Hnx].
      * rewrite list_lookup_insert_eq by (apply Hrow; done).
        rewrite decide_True; done.
      * rewrite list_lookup_insert_ne by lia.
        rewrite decide_False; [done | tauto].
    + apply lookup_ge_None in Hr. lia.
  - rewrite list_lookup_alter_ne by lia.
    rewrite decide_False; [done | tauto].
Qed.

Lemma make_grid_spec (locked : gmap (Z * Z) Color) :
  length (make_grid locked) = Z.to_nat ROWS /\
  Forall (fun row => length row = Z.to_nat COLUMNS) (make_grid locked) /\
  forall x y, in_well x y -> grid_cell (make_grid locked) y x = locked !! (x, y).
Proof.
  unfold make_grid.
  apply (map_fold_weak_ind (fun grid (m : gmap (Z * Z) Color) =>
    length grid = Z.to_nat ROWS /\
    Forall (fun row => length row = Z.to_nat COLUMNS) grid /\
    forall x y, in_well x y -> grid_cell grid y x = m !! (x, y))).
  - split; [by rewrite length_replicate|]. split.
    + apply Forall_replicate. by rewrite length_replicate.
    + intros x y [Hx Hy]. rewrite lookup_empty. unfold grid_cell.
      rewrite lookup_replicate_2 by lia. cbv iota.
      rewrite lookup_replicate_2 by lia. done.
  - intros [kx ky] c m grid Hfresh (Hlen & Hrows & Hcells).
    destruct (Z.leb_spec 0 ky); simpl; [|
      (split; [done|]; split; [done|]; intros x y Hw;
       rewrite lookup_insert_ne by (unfold in_well in Hw; intros [= -> ->]; lia);
       by apply Hcells)].
    destruct (Z.ltb_spec ky ROWS); simpl; [|
      (split; [done|]; split; [done|]; intros x y Hw;
       rewrite lookup_insert_ne by (unfold in_well in Hw; intros [= -> ->]; lia);
       by apply Hcells)].
    destruct (Z.leb_spec 0 kx); simpl; [|
      (split; [done|]; split; [done|]; intros x y Hw;
       rewrite lookup_insert_ne by (unfold in_well in Hw; intros [= -> ->]; lia);
       by apply Hcells)].
    destruct (Z.ltb_spec kx COLUMNS); simpl; [|
      (split; [done|]; split; [done|]; intros x y Hw;
       rewrite lookup_insert_ne by (unfold in_well in Hw; intros [= -> ->]; lia);
       by apply Hcells)].
    split; [by rewrite length_alter|]. split.
    + apply Forall_alter; [done|]. intros row _ Hr. by rewrite length_insert.
    + intros x y [Hx Hy].
      rewrite grid_cell_alter_insert; try lia.
      * destruct (decide (x = kx /\ y = ky)) as [[-> ->]|Hne].
        -- by rewrite lookup_insert_eq.
        -- rewrite lookup_insert_ne by (intros [= -> ->]; tauto).
           by apply Hcells.
      * intros row Hr. rewrite Forall_forall in Hrows.
        rewrite (Hrows row) by (eapply list_elem_of_lookup_2; done). lia.
Qed.

Lemma make_grid_cell (locked : gmap (Z * Z) Color) (x y : Z) :
  in_well x y -> grid_cell (make_grid locked) y x = locked !! (x, y).
Proof. apply make_grid_spec. Qed.

Lemma full_rowb_spec (locked : gmap (Z * Z) Color) (y : Z) :
  full_rowb locked y = true <-> full_row locked y.
Proof.
  unfold full_rowb, full_row.
  rewrite !andb_true_iff, Z.leb_le, Z.ltb_lt, forallb_forall.
  split.
  - intros [Hy Hall]. split; [lia|]. intros x Hx.
    specialize (Hall x). rewrite bool_decide_eq_true in Hall.
    apply Hall, list_elem_of_In, elem_of_seqZ. lia.
  - intros [Hy Hall]. split; [lia|]. intros x Hx%list_elem_of_In%elem_of_seqZ.
    apply bool_decide_eq_true, Hall. lia.
Qed.

Lemma forallb_ext_in {A} (f g : A -> bool) (l : list A) :
  (forall a, In a l -> f a = g a) -> forallb f l = forallb g l.
Proof.
  induction l as [|a l IH]; simpl; [done|]. intros H.
  rewrite (H a) by (by left). rewrite IH; [done|]. intros b Hb. apply H. by right.
Qed.

Lemma row_complete_make_grid (locked : gmap (Z * Z) Color) (y : Z) :
  0 <= y < ROWS -> row_complete (make_grid locked) y = full_rowb locked y.
Proof.
  intros Hy. unfold row_complete, full_rowb.
  destruct (Z.leb_spec 0 y); [|lia]. destruct (Z.ltb_spec y ROWS); [|lia].
  rewrite andb_true_l. apply forallb_ext_in.
  intros x Hx%list_elem_of_In%elem_of_seqZ.
  rewrite make_grid_cell; [done|]. unfold in_well. lia.
Qed.

Lemma lines_to_clear_make_grid (locked : gmap (Z * Z) Color) :
  List.filter (row_complete (make_grid locked)) (seqZ 0 ROWS) =
  List.filter (full_rowb locked) (seqZ 0 ROWS).
Proof.
  apply filter_ext_in. intros y Hy%list_elem_of_In%elem_of_seqZ.
  apply row_complete_make_grid. lia.
Qed.

(** ** The two loops of [clear_lines] *)

Lemma delete_loop_lookup (xs : list Z) (row : Z) (m : gmap (Z * Z) Color) (x y : Z) :
  foldl (fun m x => if bool_decide (is_Some (m !! (x, row)))
                    then delete (x, row) m else m) m xs !! (x, y) =
  if decide (y = row /\ x ∈ xs) then None else m !! (x, y).
Proof.
  revert m. induction xs as [|a xs IH]; intros m; simpl.
  - rewrite decide_False; [done|]. intros [_ H]. by apply elem_of_nil in H.
  - rewrite IH. destruct (decide (y = row /\ x ∈ xs)) as [[-> Hin]|Hn].
    + rewrite decide_True; [done|]. split; [done|]. by right.
    + destruct (decide (y = row /\ x = a)) as [[-> ->]|Hne].
      * rewrite decide_True by (split; [done|]; by left).
        case_bool_decide as Hs.
        -- by rewrite lookup_delete_eq.
        -- by apply eq_None_not_Some.
      * rewrite decide_False.
        2:{ intros [-> [->|Hin]%elem_of_cons]; tauto. }
        case_bool_decide; [|done].
        rewrite lookup_delete_ne; [done|]. intros [= -> ->]. tauto.
Qed.

Lemma delete_row_lookup (m : gmap (Z * Z) Color) (row x y : Z) :
  delete_row m row !! (x, y) =
  if decide (y = row /\ 0 <= x < COLUMNS) then None else m !! (x, y).
Proof.
  unfold delete_row. rewrite delete_loop_lookup.
  destruct (decide (y = row /\ x ∈ seqZ 0 COLUMNS)) as [[-> Hin]|Hn].
  - apply elem_of_seqZ in Hin. rewrite decide_True; [done|]. lia.
  - rewrite decide_False; [done|]. intros [-> Hx]. apply Hn. split; [done|].
    apply elem_of_seqZ. lia.
Qed.

Lemma delete_rows_lookup (rows : list Z) (m : gmap (Z * Z) Color) (x y : Z) :
  foldl delete_row m rows !! (x, y) =
  if decide (y ∈ rows /\ 0 <= x < COLUMNS) then None else m !! (x, y).
Proof.
  revert m. induction rows as [|r rows IH]; intros m; cbn [foldl].
  - rewrite decide_False; [done|]. intros [H _]. by apply elem_of_nil in H.
  - rewrite IH, delete_row_lookup.
    destruct (decide (y ∈ rows /\ 0 <= x < COLUMNS)) as [[Hin Hx]|Hn].
    + rewrite decide_True; [done|]. split; [by right|done].
    + destruct (decide (y = r /\ 0 <= x < COLUMNS)) as [[-> Hx]|Hne].
      * rewrite decide_True; [done|]. split; [by left|done].
      * rewrite decide_False; [done|].
        intros [[->|Hin]%elem_of_cons Hx]; tauto.
Qed.

Lemma shift_loop_lookup (s : Z) (xs : list Z) (y : Z) (m : gmap (Z * Z) Color)
    (x0 y0 : Z) :
  s <> 0 -> NoDup xs ->
  foldl (fun m x => match m !! (x, y) with
                    | Some c => <[(x, y + s) := c]> (delete (x, y) m)
                    | None => m
                    end) m xs !! (x0, y0) =
  if decide (x0 ∈ xs) then
    if decide (y0 = y) then None
    else if decide (y0 = y + s) then
      match m !! (x0, y) with Some c => Some c | None => m !! (x0, y0) end
    else m !! (x0, y0)
  else m !! (x0, y0).
Proof.
  intros Hs Hnd. revert m. induction Hnd as [|a xs Ha Hnd IH]; intros m; cbn [foldl].
  - rewrite decide_False; [done|]. apply not_elem_of_nil.
  - rewrite IH. clear IH.
    destruct (decide (x0 = a)) as [->|Hne].
    + rewrite (decide_False (P := a ∈ xs)) by done.
      rewrite (decide_True (P := a ∈ a :: xs)) by (by left).
      destruct (m !! (a, y)) as [c|] eqn:Hc.
      * destruct (decide (y0 = y)) as [->|Hy].
        -- rewrite lookup_insert_ne by (intros [= ?]; lia).
           by rewrite lookup_delete_eq.
        -- destruct (decide (y0 = y + s)) as [->|Hys].
           ++ by rewrite lookup_insert_eq.
           ++ rewrite lookup_insert_ne by (intros [= ?]; lia).
              rewrite lookup_delete_ne by (intros [= ?]; lia). done.
      * destruct (decide (y0 = y)) as [->|Hy]; [done|].
        destruct (decide (y0 = y + s)); done.
    + assert (forall y', match m !! (a, y) with
                        | Some c => <[(a, y + s) := c]> (delete (a, y) m)
                        | None => m
                        end !! (x0, y') = m !! (x0, y')) as Hsame.
      { intros y'. destruct (m !! (a, y)); [|done].
        rewrite lookup_insert_ne by (intros [= ? ?]; lia).
        rewrite lookup_delete_ne by (intros [= ? ?]; lia). done. }
      rewrite !Hsame.
      destruct (decide (x0 ∈ xs)) as [Hin|Hnin].
      * rewrite (decide_True (P := x0 ∈ a :: xs)) by (by right). done.
      * rewrite (decide_False (P := x0 ∈ a :: xs)); [done|].
        intros [->|?]%elem_of_cons; tauto.
Qed.

Lemma shift_row_lookup (s : Z) (m : gmap (Z * Z) Color) (y x0 y0 : Z) :
  s <> 0 ->
  shift_row s m y !! (x0, y0) =
  if decide (0 <= x0 < COLUMNS) then
    if decide (y0 = y) then None
    else if decide (y0 = y + s) then
      match m !! (x0, y) with Some c => Some c | None => m !! (x0, y0) end
    else m !! (x0, y0)
  else m !! (x0, y0).
Proof.
  intros Hs. unfold shift_row.
  rewrite shift_loop_lookup by (done || apply NoDup_seqZ).
  destruct (decide (x0 ∈ seqZ 0 COLUMNS)) as [Hin|Hnin].
  - apply elem_of_seqZ in Hin. rewrite (decide_True (P := 0 <= x0 < COLUMNS)) by lia. done.
  - rewrite (decide_False (P := 0 <= x0 < COLUMNS)); [done|].
    intros Hx. apply Hnin, elem_of_seqZ. lia.
Qed.

(** ** Counting the cleared rows *)

Lemma shift_of_nonneg (cleared : list Z) (y : Z) : 0 <= shift_of cleared y.
Proof. unfold shift_of. lia. Qed.

Lemma shift_of_split (cleared : list Z) (k y : Z) :
  k <= y ->
  shift_of cleared k =
  Z.of_nat (length (List.filter (fun l => (k <? l) && (l <=? y)) cleared)) +
  shift_of cleared y.
Proof.
  intros Hky. unfold shift_of. induction cleared as [|l ls IH]; [done|].
  cbn [List.filter].
  destruct (Z.ltb_spec k l), (Z.leb_spec l y), (Z.ltb_spec y l);
    cbn [andb length]; lia.
Qed.

Lemma NoDup_bounded_length (l : list Z) (a b : Z) :
  NoDup l -> (forall z, z ∈ l -> a <= z < b) -> Z.of_nat (length l) <= Z.max 0 (b - a).
Proof.
  intros Hnd Hin.
  assert (l ⊆+ seqZ a (b - a)) as Hsub.
  { apply NoDup_submseteq; [done|]. intros z Hz. apply elem_of_seqZ.
    specialize (Hin z Hz). lia. }
  apply submseteq_length in Hsub. rewrite length_seqZ in Hsub. lia.
Qed.

Lemma shift_of_strict (cleared : list Z) (k y : Z) :
  NoDup cleared -> y ∉ cleared -> k < y ->
  k + shift_of cleared k < y + shift_of cleared y.
Proof.
  intros Hnd Hy Hky. rewrite (shift_of_split cleared k y) by lia.
  assert (Z.of_nat (length (List.filter (fun l => (k <? l) && (l <=? y)) cleared))
          <= Z.max 0 (y - (k + 1))) as Hb; [|lia].
  apply NoDup_bounded_length.
  - by apply NoDup_ListNoDup, List.NoDup_filter, NoDup_ListNoDup.
  - intros z [Hz Hc]%list_elem_of_In%filter_In.
    apply andb_true_iff in Hc as [Hkz%Z.ltb_lt Hzy%Z.leb_le].
    assert (z <> y) by (intros ->; by apply Hy, list_elem_of_In). lia.
Qed.

Lemma shift_of_zero (cleared : list Z) (y : Z) :
  (forall l, l ∈ cleared -> l <= y) -> shift_of cleared y = 0.
Proof.
  intros H. unfold shift_of. induction cleared as [|l ls IH]; [done|].
  cbn [List.filter]. destruct (Z.ltb_spec y l).
  - assert (l <= y) by (apply H; by left). lia.
  - apply IH. intros z Hz. apply H. by right.
Qed.

Lemma shift_of_pos (cleared : list Z) (y l : Z) :
  l ∈ cleared -> y < l -> 0 < shift_of cleared y.
Proof.
  intros Hl Hy. unfold shift_of.
  assert (In l (List.filter (fun c => y <? c) cleared)) as Hin.
  { apply filter_In. split; [by apply list_elem_of_In|]. by apply Z.ltb_lt. }
  destruct (List.filter (fun c => y <? c) cleared); [destruct Hin|].
  cbn [length]. lia.
Qed.

Lemma foldl_max_spec (a : Z) (l : list Z) :
  foldl Z.max a l ∈ a :: l /\ forall z, z ∈ a :: l -> z <= foldl Z.max a l.
Proof.
  revert a. induction l as [|b l IH]; intros a; cbn [foldl].
  - split; [by left|]. intros z [->|H]%elem_of_cons; [done|]. by apply elem_of_nil in H.
  - destruct (IH (Z.max a b)) as [Hin Hub]. split.
    + apply elem_of_cons in Hin as [Heq|Hin].
      * rewrite Heq. destruct (Z.max_spec a b) as [[_ ->]|[_ ->]].
        -- right. by left.
        -- by left.
      * right. by right.
    + intros z [->|[->|Hz]%elem_of_cons]%elem_of_cons.
      * assert (Z.max a b <= foldl Z.max (Z.max a b) l) by (apply Hub; by left). lia.
      * assert (Z.max a b <= foldl Z.max (Z.max a b) l) by (apply Hub; by left). lia.
      * apply Hub. by right.
Qed.

Lemma filter_length_andb {A} (f g : A -> bool) (l : list A) :
  length (List.filter (fun a => f a && g a) l) =
  length (List.filter g (List.filter f l)).
Proof.
  induction l as [|a l IH]; [done|]. cbn [List.filter].
  destruct (f a); cbn [andb List.filter]; [|done].
  destruct (g a); cbn [length]; by rewrite IH.
Qed.

(** ** The rows visited by the second loop *)

Lemma Sorted_seqZ (m n : Z) : Sorted Z.le (seqZ m n).
Proof.
  remember (Z.to_nat n) as k eqn:Hk. revert m n Hk.
  induction k as [|k IH]; intros m n Hk.
  - rewrite seqZ_nil by lia. constructor.
  - rewrite seqZ_cons by lia. constructor.
    + apply IH. lia.
    + destruct (decide (0 < Z.pred n)).
      * rewrite seqZ_cons by lia. constructor. lia.
      * rewrite seqZ_nil by lia. constructor.
Qed.

Lemma filter_none {A} (f : A -> bool) (l : list A) :
  (forall a, In a l -> f a = false) -> List.filter f l = [].
Proof.
  induction l as [|a l IH]; [done|]. intros H. cbn [List.filter].
  rewrite (H a) by (by left). apply IH. intros b Hb. apply H. by right.
Qed.

Lemma filter_below_seqZ (top : Z) :
  0 <= top <= ROWS ->
  List.filter (fun r => r <? top) (seqZ 0 ROWS) = seqZ 0 top.
Proof.
  intros Ht. replace ROWS with (top + (ROWS - top)) at 1 by lia.
  rewrite seqZ_app by lia. rewrite List.filter_app.
  rewrite forallb_filter_id, filter_none.
  - by rewrite app_nil_r.
  - intros r Hr%list_elem_of_In%elem_of_seqZ. apply Z.ltb_ge. lia.
  - apply forallb_forall. intros r Hr%list_elem_of_In%elem_of_seqZ.
    apply Z.ltb_lt. lia.
Qed.

#[local] Instance flip_le_antisymm : AntiSymm (=) (flip Z.le).
Proof. intros a b Hab Hba. unfold flip in *. lia. Qed.

#[local] Instance flip_le_transitive : Transitive (flip Z.le).
Proof. intros a b c Hab Hbc. unfold flip in *. lia. Qed.

#[local] Instance flip_le_total : Total (flip Z.le).
Proof. intros a b. unfold flip. lia. Qed.

Lemma sorted_reverse_seqZ (top : Z) :
  sorted_reverse (seqZ 0 top) = reverse (seqZ 0 top).
Proof.
  unfold sorted_reverse.
  apply (Sorted_unique (flip Z.le)).
  - apply (Sorted_merge_sort (flip Z.le)).
  - apply Sorted_reverse, Sorted_seqZ.
  - rewrite merge_sort_Permutation. by rewrite reverse_Permutation.
Qed.

Lemma rows_above_spec (top : Z) :
  0 <= top <= ROWS ->
  sorted_reverse (List.filter (fun r => r <? top) (seqZ 0 ROWS)) =
  reverse (seqZ 0 top).
Proof. intros Ht. by rewrite filter_below_seqZ, sorted_reverse_seqZ. Qed.

(** ** The invariant of the second loop *)

Section shift_loop.
Variable locked : gmap (Z * Z) Color.
Variable cleared : list Z.
Variable top : Z.
Hypothesis cleared_NoDup : NoDup cleared.
Hypothesis top_cleared : top ∈ cleared.
Hypothesis top_max : forall l, l ∈ cleared -> l <= top.

Lemma shifted_start :
  shifted locked cleared (top - 1) (foldl delete_row locked (reverse cleared)).
Proof.
  repeat split.
  - intros x y' Hx Hy. rewrite delete_rows_lookup.
    destruct (decide (y' ∈ cleared)) as [Hin|Hnin].
    + rewrite decide_True; [done|]. by rewrite elem_of_reverse.
    + rewrite decide_False; [done|]. rewrite elem_of_reverse. tauto.
  - rewrite delete_rows_lookup.
    destruct (decide (y' ∈ reverse cleared /\ 0 <= x < COLUMNS)) as [[Hin _]|Hn];
      [done|].
    intros Hc. exists y'. rewrite elem_of_reverse in Hn.
    split; [lia|]. split; [tauto|]. split; [|done].
    rewrite shift_of_zero; [lia|]. intros l Hl. specialize (top_max l Hl). lia.
  - intros (y & Hy & Hnin & -> & Hc). rewrite delete_rows_lookup.
    rewrite shift_of_zero.
    2:{ intros l Hl. specialize (top_max l Hl). lia. }
    rewrite Z.add_0_r. rewrite decide_False; [done|].
    rewrite elem_of_reverse. tauto.
  - intros x y' Hx. rewrite delete_rows_lookup.
    rewrite decide_False; [done|]. tauto.
Qed.

Lemma shifted_step (k : Z) (m : gmap (Z * Z) Color) :
  k < top ->
  shifted locked cleared k m ->
  shifted locked cleared (k - 1) (shift_row (shift_of cleared k) m k).
Proof.
  intros Hk (Hlow & Hhigh & Hout).
  assert (0 < shift_of cleared k) as Hs by (by apply (shift_of_pos _ _ top)).
  assert (forall x, 0 <= x < COLUMNS ->
            m !! (x, k + shift_of cleared k) = None) as Hfree.
  { intros x Hx. apply eq_None_not_Some. intros [c Hc].
    apply Hhigh in Hc as (y & Hy & Hnin & Heq & _); [|done|lia].
    pose proof (shift_of_strict cleared k y cleared_NoDup Hnin Hy). lia. }
  repeat split.
  - intros x y' Hx Hy. rewrite shift_row_lookup by lia.
    rewrite decide_True by done.
    rewrite decide_False by lia. rewrite decide_False by lia.
    apply Hlow; [done|lia].
  - rewrite shift_row_lookup by lia. rewrite decide_True by done.
    destruct (decide (y' = k)) as [->|Hne]; [done|].
    destruct (decide (y' = k + shift_of cleared k)) as [->|Hne'].
    + rewrite Hfree by done. rewrite Hlow by (done || lia).
      destruct (decide (k ∈ cleared)) as [Hin|Hnin]; [done|].
      destruct (locked !! (x, k)) as [c'|] eqn:Hc'; [|done].
      intros [= ->]. exists k. split; [lia|]. done.
    + intros Hc. apply Hhigh in Hc as (y & Hy & Hnin & Heq & Hc); [|done|lia].
      exists y. split; [lia|]. done.
  - intros (y & Hy & Hnin & -> & Hc).
    rewrite shift_row_lookup by lia. rewrite decide_True by done.
    destruct (decide (y = k)) as [->|Hne].
    + rewrite decide_False by lia. rewrite decide_True by done.
      rewrite Hfree by done. rewrite Hlow by (done || lia).
      rewrite decide_False by done. by rewrite Hc.
    + assert (k < y) as Hky by lia.
      pose proof (shift_of_strict cleared k y cleared_NoDup Hnin Hky).
      pose proof (shift_of_nonneg cleared y).
      rewrite decide_False by lia. rewrite decide_False by lia.
      apply Hhigh; [done|lia|]. exists y. done.
  - intros x y' Hx. rewrite shift_row_lookup by lia.
    rewrite decide_False by done. by apply Hout.
Qed.

Lemma shifted_loop (n : nat) (m : gmap (Z * Z) Color) :
  Z.of_nat n <= top ->
  shifted locked cleared (Z.of_nat n - 1) m ->
  shifted locked cleared (-1)
    (foldl (fun m y =>
              let shift := shift_of cleared y in
              if 0 <? shift then shift_row shift m y else m)
       m (reverse (seqZ 0 (Z.of_nat n)))).
Proof.
  revert m. induction n as [|n IH]; intros m Hn Hm.
  - exact Hm.
  - rewrite seqZ_S, reverse_snoc. cbn [foldl]. cbv zeta.
    rewrite Z.add_0_l.
    assert (0 < shift_of cleared (Z.of_nat n)) as Hs
      by (apply (shift_of_pos _ _ top); [done|lia]).
    destruct (Z.ltb_spec 0 (shift_of cleared (Z.of_nat n))); [|lia].
    apply IH; [lia|]. apply shifted_step; [lia|].
    by replace (Z.of_nat (S n) - 1) with (Z.of_nat n) in Hm by lia.
Qed.

Lemma shifted_loop_Z (k : Z) (m : gmap (Z * Z) Color) :
  0 <= k <= top ->
  shifted locked cleared (k - 1) m ->
  shifted locked cleared (-1)
    (foldl (fun m y =>
              let shift := shift_of cleared y in
              if 0 <? shift then shift_row shift m y else m)
       m (reverse (seqZ 0 k))).
Proof.
  intros Hk Hm. rewrite <- (Z2Nat.id k) by lia.
  apply shifted_loop; [lia|]. by rewrite Z2Nat.id by lia.
Qed.
End shift_loop.

(** ** [clear_lines] on the grid of the dictionary *)

Lemma cleared_rows_NoDup (locked : gmap (Z * Z) Color) :
  NoDup (List.filter (full_rowb locked) (seqZ 0 ROWS)).
Proof. apply NoDup_ListNoDup, List.NoDup_filter, NoDup_ListNoDup, NoDup_seqZ. Qed.

Lemma elem_of_cleared_rows (locked : gmap (Z * Z) Color) (y : Z) :
  y ∈ List.filter (full_rowb locked) (seqZ 0 ROWS) <-> full_row locked y.
Proof.
  rewrite list_elem_of_In, filter_In, full_rowb_spec, <- list_elem_of_In, elem_of_seqZ.
  unfold full_row. split; [tauto|]. intros [Hy Hall]. split; [lia|done].
Qed.

Lemma shift_of_cleared_rows (locked : gmap (Z * Z) Color) (y : Z) :
  shift_of (List.filter (full_rowb locked) (seqZ 0 ROWS)) y = cleared_below locked y.
Proof. unfold shift_of, cleared_below. by rewrite filter_length_andb. Qed.

Lemma clear_lines_shifted (locked : gmap (Z * Z) Color) :
  (clear_lines (make_grid locked) locked).1 = full_rows locked /\
  shifted locked (List.filter (full_rowb locked) (seqZ 0 ROWS)) (-1)
    (clear_lines (make_grid locked) locked).2.
Proof.
  unfold clear_lines, full_rows. rewrite lines_to_clear_make_grid.
  pose proof (cleared_rows_NoDup locked) as Hnd.
  pose proof (elem_of_cleared_rows locked) as Hin.
  destruct (List.filter (full_rowb locked) (seqZ 0 ROWS)) as [|first others] eqn:HL.
  - split; [done|]. cbn [snd]. split; [|split].
    + intros x y' _ _. rewrite decide_False; [done|]. apply not_elem_of_nil.
    + intros x y' c _ Hy'. split.
      * intros Hc. exists y'. split; [lia|]. split; [apply not_elem_of_nil|].
        split; [|done]. unfold shift_of. cbn. lia.
      * intros (y & Hy & _ & -> & Hc). unfold shift_of. cbn.
        by rewrite Z.add_0_r.
    + done.
  - split; [done|]. cbn [snd].
    destruct (foldl_max_spec first others) as [Htop Hmax].
    set (top := foldl Z.max first others) in *.
    assert (0 <= top < ROWS) as Hrange by (apply Hin in Htop; apply Htop).
    rewrite rows_above_spec by lia.
    apply (shifted_loop_Z locked (first :: others) top); [done..|lia|].
    by apply shifted_start.
Qed.

(** C1, as stated, fails on a dictionary that has a key at a negative row:
    with the bottom row full and the key [(0, -1)] present, the call returns 1
    and removes row 19, yet the cell at [(0, -1)], which has one cleared row
    below it, stays at [(0, -1)] and nothing appears at [(0, 0)]. *)
Lemma clear_lines_key_above_well_stays :
  let locked := board_with_key_above in
  let after := clear_lines (make_grid locked) locked in
  locked !! (0, -1) = Some (240, 0, 0) /\
  ~ full_row locked (-1) /\
  cleared_below locked (-1) = 1 /\
  after.1 = 1 /\
  after.2 !! (0, -1 + cleared_below locked (-1)) = None /\
  after.2 !! (0, -1) = Some (240, 0, 0).
Proof.
  cbv zeta. split; [by vm_compute|]. split.
  { rewrite <- full_rowb_spec. by vm_compute. }
  split; [by vm_compute|]. split; [by vm_compute|]. split; by vm_compute.
Qed.

(** C1, amended. For every dictionary [locked], [clear_lines] called on its
    grid returns the number of full rows of the well; a cell with its column
    in [0, COLUMNS) and a row that is not negative is occupied afterwards
    exactly when it is the image of a cell of [locked] of a row that is not
    full, moved down by the number of full rows below that row (so full rows
    vanish and the rows above them collapse, whatever the number of cleared
    rows and the gaps between them); keys outside these columns or at negative
    rows are left where they are; and with no full row the call returns 0 and
    leaves the dictionary as it is. *)
Theorem clear_lines_collapse (locked : gmap (Z * Z) Color) :
  let after := clear_lines (make_grid locked) locked in
  after.1 = full_rows locked /\
  (forall x y' c, 0 <= x < COLUMNS -> 0 <= y' ->
     (after.2 !! (x, y') = Some c <->
      exists y, 0 <= y /\ ~ full_row locked y /\
                y' = y + cleared_below locked y /\ locked !! (x, y) = Some c)) /\
  (forall x y, ~ (0 <= x < COLUMNS /\ 0 <= y) ->
     after.2 !! (x, y) = locked !! (x, y)) /\
  ((forall y, ~ full_row locked y) -> after = (0, locked)).
Proof.
  cbv zeta. destruct (clear_lines_shifted locked) as (Hn & Hlow & Hhigh & Hout).
  split; [done|]. split; [|split].
  - intros x y' c Hx Hy'. rewrite Hhigh by (done || lia). split.
    + intros (y & Hy & Hnin & Heq & Hc). exists y. split; [lia|].
      rewrite elem_of_cleared_rows in Hnin. split; [done|].
      by rewrite <- shift_of_cleared_rows.
    + intros (y & Hy & Hnin & Heq & Hc). exists y. split; [lia|].
      rewrite elem_of_cleared_rows. split; [done|].
      by rewrite shift_of_cleared_rows.
  - intros x y Hxy. destruct (decide (0 <= x < COLUMNS)) as [Hx|Hx].
    + rewrite Hlow by (done || lia). rewrite decide_False; [done|].
      rewrite elem_of_cleared_rows. intros [Hy _]. lia.
    + by apply Hout.
  - intros Hnone. unfold clear_lines. rewrite lines_to_clear_make_grid.
    destruct (List.filter (full_rowb locked) (seqZ 0 ROWS)) as [|first others] eqn:HL;
      [done|].
    destruct (Hnone first). apply elem_of_cleared_rows. rewrite HL. by left.
Qed.

(** ** Locking a piece *)

Lemma merge_spec (cells : list (Z * Z)) (color : Color)
    (m : gmap (Z * Z) Color) (over : bool) :
  (forall k, (Tetris.merge cells color (m, over)).1 !! k =
             if decide (k ∈ cells /\ 0 <= k.2) then Some color else m !! k) /\
  (Tetris.merge cells color (m, over)).2 = over || existsb (fun k => k.2 <? 0) cells.
Proof.
  unfold Tetris.merge. revert m over.
  induction cells as [|[cx cy] cells IH]; intros m over; cbn [foldl existsb].
  - split; [|by rewrite orb_false_r]. intros k.
    rewrite decide_False; [done|]. intros [H _]. by apply elem_of_nil in H.
  - cbn [snd]. destruct (Z.ltb_spec cy 0) as [Hneg|Hpos].
    + destruct (IH m true) as [Hm Ho]. split.
      * intros k. rewrite Hm.
        destruct (decide (k ∈ cells /\ 0 <= k.2)) as [[Hin Hk]|Hn].
        -- rewrite decide_True; [done|]. split; [by right|done].
        -- rewrite decide_False; [done|].
           intros [[->|Hin]%elem_of_cons Hk]; [simpl in Hk; lia|tauto].
      * rewrite Ho. by rewrite orb_true_r.
    + destruct (IH (<[(cx, cy) := color]> m) over) as [Hm Ho]. split.
      * intros k. rewrite Hm.
        destruct (decide (k ∈ cells /\ 0 <= k.2)) as [[Hin Hk]|Hn].
        -- rewrite decide_True; [done|]. split; [by right|done].
        -- destruct (decide (k = (cx, cy))) as [->|Hne].
           ++ rewrite lookup_insert_eq.
              rewrite decide_True; [done|]. split; [by left|simpl; lia].
           ++ rewrite lookup_insert_ne by done.
              rewrite decide_False; [done|].
              intros [[->|Hin]%elem_of_cons Hk]; tauto.
      * rewrite Ho. done.
Qed.

Lemma lock_piece_fields (fresh : Piece.t) (s : Tetris.t) :
  Tetris.locked (Tetris.lock_piece fresh s) =
    (clear_lines (make_grid (merged_by_lock s).1) (merged_by_lock s).1).2 /\
  Tetris.game_over (Tetris.lock_piece fresh s) = (merged_by_lock s).2 /\
  (Tetris.lock_piece_raises s = false ->
     Tetris.current (Tetris.lock_piece fresh s) = Tetris.next_piece s) /\
  (Tetris.lock_piece_raises s = false ->
     Tetris.next_piece (Tetris.lock_piece fresh s) = fresh) /\
  Tetris.grid (Tetris.lock_piece fresh s) = make_grid (merged_by_lock s).1.
Proof.
  unfold Tetris.lock_piece, Tetris.lock_piece_raises, merged_by_lock,
    current_cells. cbv zeta.
  destruct (Tetris.merge _ _ _) as [locked1 over]. cbn [fst snd].
  destruct (clear_lines _ _) as [cleared locked2]. cbn [fst snd].
  destruct (cleared =? 0); [done|].
  by destruct (Tetris.speed_of_level _).
Qed.

Lemma lock_piece_stats (fresh : Piece.t) (s : Tetris.t) :
  let s' := Tetris.lock_piece fresh s in
  let n := cleared_by_lock s in
  (n = 0 ->
     Tetris.score s' = Tetris.score s /\ Tetris.lines s' = Tetris.lines s /\
     Tetris.level s' = Tetris.level s /\
     Tetris.fall_speed s' = Tetris.fall_speed s /\
     Tetris.lock_piece_raises s = false) /\
  (n <> 0 ->
     Tetris.score s' =
       Tetris.score s + default 0 (Tetris.score_table !! n) * Tetris.level s /\
     Tetris.lines s' = Tetris.lines s + n /\
     Tetris.level s' = (Tetris.lines s + n) / 10 + 1 /\
     match Tetris.speed_of_level ((Tetris.lines s + n) / 10 + 1) with
     | Some speed =>
         Tetris.fall_speed s' = speed /\ Tetris.lock_piece_raises s = false
     | None =>
         Tetris.fall_speed s' = Tetris.fall_speed s /\
         Tetris.lock_piece_raises s = true
     end).
Proof.
  unfold Tetris.lock_piece, Tetris.lock_piece_raises, cleared_by_lock,
    merged_by_lock, current_cells. cbv zeta.
  destruct (Tetris.merge _ _ _) as [locked1 over]. cbn [fst snd].
  destruct (clear_lines _ _) as [cleared locked2]. cbn [fst snd].
  destruct (Z.eqb_spec cleared 0); (split; [intros|intros]); [done|done|done|].
  by destruct (Tetris.speed_of_level _).
Qed.

Lemma cleared_below_bound (locked : gmap (Z * Z) Color) (y : Z) :
  0 <= y < ROWS -> y + cleared_below locked y < ROWS.
Proof.
  intros Hy. rewrite <- shift_of_cleared_rows. unfold shift_of.
  assert (Z.of_nat (length (List.filter (fun c => y <? c)
            (List.filter (full_rowb locked) (seqZ 0 ROWS))))
          <= Z.max 0 (ROWS - (y + 1))) as Hb; [|lia].
  apply NoDup_bounded_length.
  - apply NoDup_ListNoDup, List.NoDup_filter, NoDup_ListNoDup, cleared_rows_NoDup.
  - intros z [Hz Hc%Z.ltb_lt]%list_elem_of_In%filter_In.
    apply list_elem_of_In, elem_of_cleared_rows in Hz as [Hz _]. lia.
Qed.

Lemma clear_lines_keys_in_well (locked : gmap (Z * Z) Color) :
  keys_in_well locked ->
  keys_in_well (clear_lines (make_grid locked) locked).2.
Proof.
  intros Hwell x y' [c Hc].
  destruct (clear_lines_shifted locked) as (_ & Hlow & Hhigh & Hout).
  destruct (decide (0 <= x < COLUMNS)) as [Hx|Hx].
  - destruct (decide (y' <= -1)) as [Hy'|Hy'].
    + rewrite Hlow in Hc by done. destruct (decide _); [done|].
      apply Hwell. eauto.
    + apply Hhigh in Hc as (y & Hy & _ & -> & Hsrc); [|done|lia].
      assert (in_well x y) as [_ Hrow] by (apply Hwell; eauto).
      pose proof (cleared_below_bound locked y Hrow).
      pose proof (shift_of_nonneg (List.filter (full_rowb locked) (seqZ 0 ROWS)) y).
      rewrite shift_of_cleared_rows in *. split; lia.
  - rewrite Hout in Hc by done. apply Hwell. eauto.
Qed.

Lemma merge_keys_in_well (cells : list (Z * Z)) (color : Color)
    (locked : gmap (Z * Z) Color) (over : bool) :
  keys_in_well locked -> valid_cells cells locked = true ->
  keys_in_well (Tetris.merge cells color (locked, over)).1.
Proof.
  intros Hwell Hvalid x y Hsome.
  destruct (merge_spec cells color locked over) as [Hm _].
  rewrite Hm in Hsome. destruct (decide _) as [[Hin Hy]|_].
  - rewrite valid_cells_true in Hvalid. destruct (Hvalid x y Hin) as (? & ? & _).
    simpl in Hy. split; lia.
  - by apply Hwell.
Qed.

Lemma lock_piece_keys_in_well (fresh : Piece.t) (s : Tetris.t) :
  keys_in_well (Tetris.locked s) ->
  Piece.fits (Tetris.current s) 0 0 (Tetris.locked s) = true ->
  keys_in_well (Tetris.locked (Tetris.lock_piece fresh s)).
Proof.
  intros Hwell Hfits. destruct (lock_piece_fields fresh s) as [-> _].
  apply clear_lines_keys_in_well. unfold merged_by_lock.
  apply merge_keys_in_well; [done|].
  unfold Piece.fits, valid_space in Hfits. unfold current_cells.
  by rewrite !Z.add_0_r in Hfits.
Qed.

(** The loop of the hard drop keeps the piece at an accepted position, only
    changes its row, and stops where the next row is refused. *)
Lemma drop_spec (fuel : nat) (p q : Piece.t) (n : nat)
    (locked : gmap (Z * Z) Color) :
  Tetris.drop fuel p locked = Some (q, n) ->
  q = Piece.set_y p (Piece.y p + Z.of_nat n) /\
  Piece.fits q 0 1 locked = false /\
  (Piece.fits p 0 0 locked = true -> Piece.fits q 0 0 locked = true).
Proof.
  revert p q n. induction fuel as [|fuel IH]; intros p q n; cbn [Tetris.drop]; [done|].
  destruct (Piece.fits p 0 1 locked) eqn:Hfit.
  - destruct (Tetris.drop fuel _ locked) as [[q' n']|] eqn:Hd; [|done].
    intros [= <- <-]. apply IH in Hd as (Hq & Hstop & Hkeep).
    split; [|split; [done|]].
    + rewrite Hq. destruct p. unfold Piece.set_y. cbn. f_equal. lia.
    + intros _. apply Hkeep. unfold Piece.fits, Piece.set_y in *.
      cbn [Piece.shape Piece.x Piece.y].
      by rewrite (Z.add_0_r (Piece.y p + 1)).
  - intros [= <- <-]. split; [|done].
    destruct p. unfold Piece.set_y. cbn. f_equal. lia.
Qed.

(** ** The session with a full stack is reached by play *)

Lemma init_O : Piece.init KeyO = Some piece_O_spawned.
Proof. reflexivity. Qed.

Lemma init_I : Piece.init KeyI = Some piece_I_spawned.
Proof. reflexivity. Qed.

Lemma stacked_state_reached : state_after [stack_frame] = Some stacked_state.
Proof. by vm_compute. Qed.

(** C3, as stated, fails where a piece locks above the well. In the session
    with columns 4 and 5 full, reached by ten hard drops, the O piece at its
    spawn position cannot move down; its cell at the anchor [(4, -2)] is an
    occupied cell, yet the first loop of [lock_piece] leaves the dictionary
    as it was and only sets the flag. *)
Lemma lock_piece_leaves_out_cells_above_well :
  let s := stacked_state in
  let p := Tetris.current s in
  Piece.fits p 0 1 (Tetris.locked s) = false /\
  occupied (Piece.shape p) 0 0 /\
  Piece.y p + 0 < 0 /\
  (merged_by_lock s).1 !! (Piece.x p + 0, Piece.y p + 0) = None /\
  (merged_by_lock s).1 = Tetris.locked s /\
  (merged_by_lock s).2 = true.
Proof.
  cbv zeta. split; [by vm_compute|]. split.
  { unfold occupied. cbn. split; [lia|]. split; [lia|]. eexists. split; reflexivity. }
  split; [by vm_compute|]. split; [by vm_compute|]. split; by vm_compute.
Qed.

(** C3, amended. The first loop of [lock_piece] writes every occupied cell of
    the piece, translated by its anchor, whose row is not negative, under its
    coordinate and with the color of the piece; it writes no cell of a
    negative row and touches no other key; it sets the game-over flag when
    some cell has a negative row and leaves the flag as it was otherwise; the
    flag is what [lock_piece] leaves in the session, no exception being
    raised, and the dictionary then goes through [clear_lines]. *)
Theorem lock_piece_merge (fresh : Piece.t) (s : Tetris.t) :
  let p := Tetris.current s in
  let merged := merged_by_lock s in
  (forall j i, occupied (Piece.shape p) j i -> 0 <= Piece.y p + i ->
     merged.1 !! (Piece.x p + j, Piece.y p + i) = Some (Piece.color p)) /\
  (forall j i, occupied (Piece.shape p) j i -> Piece.y p + i < 0 ->
     merged.1 !! (Piece.x p + j, Piece.y p + i) =
     Tetris.locked s !! (Piece.x p + j, Piece.y p + i)) /\
  (forall x y, ~ occupied (Piece.shape p) (x - Piece.x p) (y - Piece.y p) ->
     merged.1 !! (x, y) = Tetris.locked s !! (x, y)) /\
  ((exists j i, occupied (Piece.shape p) j i /\ Piece.y p + i < 0) ->
     merged.2 = true) /\
  ((forall j i, occupied (Piece.shape p) j i -> 0 <= Piece.y p + i) ->
     merged.2 = Tetris.game_over s) /\
  Tetris.game_over (Tetris.lock_piece fresh s) = merged.2 /\
  Tetris.locked (Tetris.lock_piece fresh s) =
    (clear_lines (make_grid merged.1) merged.1).2.
Proof.
  cbv zeta. unfold merged_by_lock at 1 2 3 4 5.
  destruct (merge_spec (current_cells s) (Piece.color (Tetris.current s))
              (Tetris.locked s) (Tetris.game_over s)) as [Hm Ho].
  assert (forall j i, occupied (Piece.shape (Tetris.current s)) j i ->
            (Piece.x (Tetris.current s) + j, Piece.y (Tetris.current s) + i)
              ∈ current_cells s) as Hcell.
  { intros j i Hocc. apply elem_of_shape_cells.
    by replace (Piece.x (Tetris.current s) + j - Piece.x (Tetris.current s)) with j by lia;
       replace (Piece.y (Tetris.current s) + i - Piece.y (Tetris.current s)) with i by lia. }
  split; [|split; [|split; [|split; [|split]]]].
  - intros j i Hocc Hrow. rewrite Hm. rewrite decide_True; [done|].
    split; [by apply Hcell|done].
  - intros j i Hocc Hrow. rewrite Hm. rewrite decide_False; [done|].
    intros [_ H]. simpl in H. lia.
  - intros x y Hn. rewrite Hm. rewrite decide_False; [done|].
    intros [Hin _]. by apply elem_of_shape_cells in Hin.
  - intros (j & i & Hocc & Hrow). rewrite Ho.
    apply orb_true_iff. right. apply existsb_exists.
    exists (Piece.x (Tetris.current s) + j, Piece.y (Tetris.current s) + i).
    split; [by apply list_elem_of_In, Hcell|]. by apply Z.ltb_lt.
  - intros Hall. rewrite Ho.
    destruct (existsb _ _) eqn:He; [|by rewrite orb_false_r].
    apply existsb_exists in He as ([x y] & Hin%list_elem_of_In & Hneg%Z.ltb_lt).
    apply elem_of_shape_cells in Hin. specialize (Hall _ _ Hin).
    simpl in Hneg. lia.
  - destruct (lock_piece_fields fresh s) as (Hl & Hg & _). by rewrite Hg, Hl.
Qed.

(** ** Score, lines, level and fall interval *)

(** *** Rounding to 53 digits *)

Lemma digits2_pos_size (p : positive) : digits2_pos p = Pos.size p.
Proof. induction p; simpl; by rewrite ?IHp. Qed.

Lemma Zdigits2_log2 (p : positive) : Zdigits2 (Z.pos p) = Z.log2 (Z.pos p) + 1.
Proof.
  unfold Zdigits2. rewrite digits2_pos_size.
  destruct p; simpl; rewrite ?Pos2Z.inj_succ; lia.
Qed.

Lemma shr_1_m (mrs : shr_record) :
  0 <= shr_m mrs -> shr_m (shr_1 mrs) = shr_m mrs / 2.
Proof.
  destruct mrs as [m r s]. destruct m as [|[p|p|]|p]; simpl; intros H; try lia.
  all: by rewrite <- Z.div2_div.
Qed.

Lemma iter_shr_1_m (p : positive) (mrs : shr_record) :
  0 <= shr_m mrs ->
  shr_m (SpecFloat.iter_pos shr_1 p mrs) = shr_m mrs / 2 ^ Z.pos p.
Proof.
  revert mrs. induction p as [p IH|p IH|]; intros mrs Hm; simpl.
  - assert (0 <= shr_m (shr_1 mrs)) as H1
      by (rewrite shr_1_m by done; apply Z.div_pos; lia).
    assert (0 <= shr_m (SpecFloat.iter_pos shr_1 p (shr_1 mrs))) as H2
      by (rewrite IH by done; apply Z.div_pos; lia).
    rewrite !IH, shr_1_m, !Z.div_div by lia.
    f_equal. rewrite Pos2Z.inj_xI.
    replace (2 * Z.pos p + 1) with (1 + Z.pos p + Z.pos p) by lia.
    rewrite !Z.pow_add_r, Z.pow_1_r by lia. ring.
  - assert (0 <= shr_m (SpecFloat.iter_pos shr_1 p mrs)) as H2
      by (rewrite IH by done; apply Z.div_pos; lia).
    rewrite !IH, !Z.div_div by lia.
    f_equal. rewrite Pos2Z.inj_xO, <- Z.pow_add_r by lia. f_equal. lia.
  - rewrite shr_1_m by done. by rewrite Z.pow_1_r.
Qed.

Lemma iter_xO_pow (m d : positive) :
  Z.pos (Pos.iter xO m d) = Z.pos m * 2 ^ Z.pos d.
Proof.
  induction d as [|d IH] using Pos.peano_ind.
  - simpl. lia.
  - rewrite Pos.iter_succ, Pos2Z.inj_xO, IH, Pos2Z.inj_succ, Z.pow_succ_r by lia.
    lia.
Qed.

Lemma shl_align_spec (m : positive) (e e' : Z) :
  (shl_align m e e').2 = Z.min e e' /\
  Z.pos (shl_align m e e').1 = Z.pos m * 2 ^ (e - Z.min e e').
Proof.
  unfold shl_align. destruct (e' - e) as [|d|d] eqn:Hd; cbn [fst snd].
  - replace (e - Z.min e e') with 0 by lia. split; lia.
  - replace (e - Z.min e e') with 0 by lia. split; lia.
  - replace (e - Z.min e e') with (Z.pos d) by lia. split; [lia|apply iter_xO_pow].
Qed.

Lemma round_nearest_even_cases (x : Z) (l : location) :
  round_nearest_even x l = x \/ round_nearest_even x l = x + 1.
Proof. destruct l as [|[]]; simpl; [|destruct (Z.even x)|..]; auto. Qed.

(** Rounding a mantissa of at least 53 digits, away from the subnormal
    range: the result has 53 digits and keeps the magnitude, up to the carry
    of a mantissa that rounds up to [2 ^ 53]. *)
Lemma binary_round_aux_normal (sx : bool) (m : positive) (e : Z) :
  52 <= Z.log2 (Z.pos m) ->
  -1074 <= Z.log2 (Z.pos m) - 52 + e ->
  exists (m' : positive) (e' : Z),
    Z.log2 (Z.pos m') = 52 /\
    Z.log2 (Z.pos m) + e <= 52 + e' <= Z.log2 (Z.pos m) + e + 1 /\
    binary_round_aux 53 1024 sx (Z.pos m) e loc_Exact =
      if e' <=? 971 then S754_finite sx m' e' else S754_infinity sx.
Proof.
  intros Hm He. unfold binary_round_aux, shr_fexp.
  rewrite Zdigits2_log2. unfold fexp, emin.
  set (n := Z.max _ _ - e).
  assert (n = Z.log2 (Z.pos m) - 52) as Hn by (unfold n; lia). clearbody n.
  unfold shr at 1. cbn [shr_record_of_loc].
  destruct n as [|p|p] eqn:Hp; [| |lia].
  - (* the mantissa has 53 digits *)
    cbn [shr_m loc_of_shr_record round_nearest_even].
    rewrite Zdigits2_log2.
    replace (Z.max _ _ - e) with 0 by lia. cbn [shr shr_record_of_loc shr_m].
    exists m, e. split; [lia|]. split; [lia|done].
  - (* [p] digits are shifted out *)
    set (mrs := SpecFloat.iter_pos shr_1 p _).
    assert (shr_m mrs = Z.pos m / 2 ^ Z.pos p) as Hmrs
      by (unfold mrs; by rewrite iter_shr_1_m).
    assert (Z.log2 (shr_m mrs) = 52) as Hlog.
    { rewrite Hmrs, <- Z.shiftr_div_pow2, Z.log2_shiftr by lia. lia. }
    assert (0 < shr_m mrs) as Hpos.
    { destruct (Z.le_gt_cases (shr_m mrs) 0) as [Hle|]; [|done].
      destruct (shr_m mrs); [done|lia|done]. }
    clearbody mrs.
    destruct (round_nearest_even_cases (shr_m mrs) (loc_of_shr_record mrs))
      as [->| ->].
    + destruct (shr_m mrs) as [|q|q] eqn:Hq; [lia| |lia].
      rewrite Zdigits2_log2.
      replace (Z.max _ _ - (e + Z.pos p)) with 0 by lia.
      cbn [shr shr_record_of_loc shr_m].
      exists q, (e + Z.pos p). split; [done|]. split; [lia|done].
    + destruct (Z.log2_succ_or (shr_m mrs)) as [Hs|Hs]; unfold Z.succ in Hs.
      * (* the carry: [2 ^ 53] *)
        destruct (shr_m mrs + 1) as [|q|q] eqn:Hq; [lia| |lia].
        rewrite Zdigits2_log2.
        replace (Z.max _ _ - (e + Z.pos p)) with 1 by lia.
        unfold shr, SpecFloat.iter_pos. cbn [shr_record_of_loc].
        assert (shr_m (shr_1 {| shr_m := Z.pos q; shr_r := false; shr_s := false |})
                = Z.pos q / 2) as Hq2 by (by rewrite shr_1_m).
        assert (Z.log2 (Z.pos q / 2) = 52) as Hlog2.
        { change 2 with (2 ^ 1) at 1.
          rewrite <- Z.shiftr_div_pow2, Z.log2_shiftr by lia. lia. }
        rewrite Hq2.
        destruct (Z.pos q / 2) as [|q'|q'] eqn:Hq'; [done| |done].
        exists q', (e + Z.pos p + 1). split; [done|]. split; [lia|done].
      * destruct (shr_m mrs + 1) as [|q|q] eqn:Hq; [lia| |lia].
        rewrite Zdigits2_log2.
        replace (Z.max _ _ - (e + Z.pos p)) with 0 by lia.
        cbn [shr shr_record_of_loc shr_m].
        exists q, (e + Z.pos p). split; [lia|]. split; [lia|done].
Qed.

Lemma binary_round_aux_sign (sx : bool) (m e : Z) (l : location) :
  match binary_round_aux 53 1024 sx m e l with
  | S754_zero s | S754_infinity s | S754_finite s _ _ => s = sx
  | S754_nan => True
  end.
Proof.
  unfold binary_round_aux.
  destruct (shr_fexp _ _ _ _ _) as [mrs' e'].
  destruct (shr_fexp _ _ _ _ _) as [mrs'' e''].
  destruct (shr_m mrs''); [done| |done]. by destruct (_ <=? _).
Qed.

(** The float of a positive integer has 53 digits and its magnitude. *)
Lemma binary_normalize_pos (p : positive) :
  exists (m : positive) (e : Z),
    Z.log2 (Z.pos m) = 52 /\
    Z.log2 (Z.pos p) <= 52 + e <= Z.log2 (Z.pos p) + 1 /\
    binary_normalize 53 1024 (Z.pos p) 0 false =
      if e <=? 971 then S754_finite false m e else S754_infinity false.
Proof.
  unfold binary_normalize, binary_round.
  pose proof (Z.log2_nonneg (Z.pos p)) as Hp.
  destruct (shl_align_spec p 0 (fexp 53 1024 (Z.pos (digits2_pos p) + 0)))
    as [He Hm].
  destruct (shl_align _ _ _) as [mz ez]. cbn [fst snd] in He, Hm.
  change (Z.pos (digits2_pos p)) with (Zdigits2 (Z.pos p)) in He, Hm.
  rewrite Zdigits2_log2 in He, Hm. unfold fexp, emin in He, Hm.
  assert (ez = Z.min 0 (Z.log2 (Z.pos p) - 52)) as Hez by lia.
  assert (Z.log2 (Z.pos mz) = Z.log2 (Z.pos p) - ez) as Hlog.
  { rewrite Hm, <- He, Z.log2_mul_pow2 by lia. lia. }
  destruct (binary_round_aux_normal false mz ez) as (m & e & H1 & H2 & H3);
    [lia..|].
  exists m, e. split; [done|]. split; [lia|done].
Qed.

Lemma float_of_int_is_Some (k : Z) :
  0 <= k < 2 ^ 1023 -> is_Some (float_of_int k).
Proof.
  intros [H0 Hk]. unfold float_of_int. destruct k as [|p|p]; [by eexists| |lia].
  destruct (binary_normalize_pos p) as (m & e & H1 & H2 & ->).
  apply Z.log2_lt_pow2 in Hk; [|lia].
  destruct (Z.leb_spec e 971); [by eexists|lia].
Qed.

Lemma float_of_int_pos (p : positive) (f : float) :
  float_of_int (Z.pos p) = Some f ->
  exists (m : positive) (e : Z),
    f = S754_finite false m e /\ Z.log2 (Z.pos m) = 52 /\
    Z.log2 (Z.pos p) <= 52 + e <= Z.log2 (Z.pos p) + 1.
Proof.
  unfold float_of_int.
  destruct (binary_normalize_pos p) as (m & e & H1 & H2 & ->).
  destruct (e <=? 971); [|done]. intros [= <-]. by exists m, e.
Qed.

(** The product by 0.05 is between the 32nd and the 8th part. *)
Lemma float_mul_0_05 (m : positive) (e : Z) :
  Z.log2 (Z.pos m) = 52 -> -1000 <= e ->
  float_mul (S754_finite false m e) f_0_05 = S754_infinity false \/
  exists (m' : positive) (e' : Z),
    Z.log2 (Z.pos m') = 52 /\ e - 5 <= e' <= e - 3 /\
    float_mul (S754_finite false m e) f_0_05 = S754_finite false m' e'.
Proof.
  intros Hm He. unfold float_mul, SFmul, f_0_05. cbn [xorb].
  pose proof (Z.log2_mul_below (Z.pos m) 7205759403792794) as Hlo.
  pose proof (Z.log2_mul_above (Z.pos m) 7205759403792794) as Hhi.
  assert (Z.log2 7205759403792794 = 52) as Hc by done.
  rewrite Hc, Hm in Hlo, Hhi.
  destruct (binary_round_aux_normal false (m * 7205759403792794) (e + -57))
    as (m' & e' & H1 & H2 & ->); rewrite ?Pos2Z.inj_mul; [lia..|].
  rewrite Pos2Z.inj_mul in H2.
  destruct (e' <=? 971); [|by left].
  right. exists m', e'. split; [done|]. split; [lia|done].
Qed.

(** Taking from 0.6 a float that is at least 1 leaves nothing above 0.05. *)
Lemma float_sub_0_6_large (m : positive) (e : Z) :
  Z.log2 (Z.pos m) = 52 -> -52 <= e ->
  SFltb f_0_05 (float_sub f_0_6 (S754_finite false m e)) = false.
Proof.
  intros Hm He. unfold float_sub, SFsub, f_0_6.
  replace (Z.min (-53) e) with (-53) by lia.
  destruct (shl_align_spec 5404319552844595 (-53) (-53)) as [_ Ha].
  destruct (shl_align_spec m e (-53)) as [_ Hb].
  replace (Z.min e (-53)) with (-53) in Hb by lia.
  cbn [cond_Zopp]. rewrite Ha, Hb. clear Ha Hb.
  change (Z.min (-53) (-53)) with (-53). change (-53 - -53) with 0.
  destruct (Z.log2_spec (Z.pos m)) as [Hlo _]; [lia|]. rewrite Hm in Hlo.
  assert (2 ^ 1 <= 2 ^ (e - -53)) as Hpow by (apply Z.pow_le_mono_r; lia).
  match goal with |- context [binary_normalize _ _ ?d _ _] =>
    assert (d < 0) as Hneg;
      [change (2 ^ 0) with 1; change (2 ^ 1) with 2 in Hpow;
       change (2 ^ 52) with 4503599627370496 in Hlo; nia|];
    destruct d as [|q|q]; [lia|lia|]
  end.
  unfold binary_normalize, binary_round.
  destruct (shl_align _ _ _) as [mz ez].
  pose proof (binary_round_aux_sign true (Z.pos mz) ez loc_Exact) as Hs.
  by destruct (binary_round_aux _ _ _ _ _ _) as [s|s| |s ? ?];
    [subst s..| |subst s].
Qed.

(** *** The fall interval *)

(** From level 33 on the interval is 0.05. *)
Lemma speed_of_level_saturates (lvl : Z) (v : float) :
  33 <= lvl -> Tetris.speed_of_level lvl = Some v -> v = f_0_05.
Proof.
  intros Hl. unfold Tetris.speed_of_level.
  destruct (float_of_int (lvl - 1)) as [k|] eqn:Hk; [|done].
  intros Hv%(inj Some). subst v.
  destruct (lvl - 1) as [|p|p] eqn:Hp; [lia| |lia].
  apply float_of_int_pos in Hk as (m & e & -> & Hm & He).
  assert (5 <= Z.log2 (Z.pos p)) as Hlog.
  { apply Z.log2_le_pow2; [done|]. change (2 ^ 5) with 32. lia. }
  unfold float_max.
  destruct (float_mul_0_05 m e) as [->|(m' & e' & H1' & H2' & ->)];
    [done|lia|done|].
  by rewrite float_sub_0_6_large by (done || lia).
Qed.

Lemma speed_of_level_floor (lvl : Z) (v : float) :
  Tetris.speed_of_level lvl = Some v -> SFleb f_0_05 v = true.
Proof.
  unfold Tetris.speed_of_level. destruct (float_of_int _) as [k|]; [|done].
  intros Hv%(inj Some). subst v. unfold float_max.
  destruct (SFltb _ _) eqn:Hlt; [|done].
  unfold SFltb in Hlt. unfold SFleb. by destruct (SFcompare _ _) as [[]|].
Qed.

Lemma speed_of_level_antitone (l1 l2 : Z) (v1 v2 : float) :
  1 <= l1 <= l2 ->
  Tetris.speed_of_level l1 = Some v1 -> Tetris.speed_of_level l2 = Some v2 ->
  SFleb v2 v1 = true.
Proof.
  intros Hl H1 H2. destruct (Z.le_gt_cases 33 l2) as [Hbig|Hsmall].
  - rewrite (speed_of_level_saturates l2 v2) by done.
    by eapply speed_of_level_floor.
  - assert (speeds_checked 32 = true) as Hall by (by vm_compute).
    unfold speeds_checked in Hall. rewrite forallb_forall in Hall.
    specialize (Hall l1). rewrite forallb_forall in Hall.
    assert (In l1 (seqZ 1 32)) as Hin1
      by (apply list_elem_of_In, elem_of_seqZ; lia).
    assert (In l2 (seqZ 1 32)) as Hin2
      by (apply list_elem_of_In, elem_of_seqZ; lia).
    specialize (Hall Hin1 l2 Hin2). rewrite H1, H2 in Hall.
    by destruct (Z.leb_spec l1 l2); [|lia].
Qed.

Lemma speed_of_level_is_Some (lvl : Z) :
  1 <= lvl <= 2 ^ 1023 -> is_Some (Tetris.speed_of_level lvl).
Proof.
  intros Hl. unfold Tetris.speed_of_level.
  destruct (float_of_int_is_Some (lvl - 1)) as [k ->]; [|by eexists].
  revert Hl. generalize (2 ^ 1023). lia.
Qed.

(** The intervals of the levels 1 to 12, from 0.6, 0.5499999999999999 and
    0.5 down to 0.09999999999999998 and 0.05. *)
Lemma speed_of_level_table :
  Tetris.speed_of_level <$> seqZ 1 12 =
  Some <$>
    [ S754_finite false 5404319552844595 (-53);
      S754_finite false 4953959590107545 (-53);
      S754_finite false 4503599627370496 (-53);
      S754_finite false 8106479329266892 (-54);
      S754_finite false 7205759403792793 (-54);
      S754_finite false 6305039478318694 (-54);
      S754_finite false 5404319552844594 (-54);
      S754_finite false 9007199254740990 (-55);
      S754_finite false 7205759403792792 (-55);
      S754_finite false 5404319552844594 (-55);
      S754_finite false 7205759403792792 (-56);
      S754_finite false 7205759403792794 (-57) ].
Proof. by vm_compute. Qed.

(** C6. A lock that clears [n >= 1] rows adds to the score the entry of the
    table [{1: 40, 2: 100, 3: 300, 4: 1200}] for [n] times the level in effect
    before the update, adds [n] to the count of lines, sets the level to
    [lines // 10 + 1] and the fall interval to the float
    [max(0.05, 0.6 - (level - 1) * 0.05)], unless the level is too large for a
    float and the line raises; a lock that clears no row leaves the four of
    them as they were. The interval is computed for every level up to
    [2 ^ 1023], does not increase with the level, from level 1 on, and is
    never below 0.05. [n] is the number of full rows of the well once the
    piece is merged. *)
Theorem lock_piece_scoring (fresh : Piece.t) (s : Tetris.t) :
  let s' := Tetris.lock_piece fresh s in
  let n := cleared_by_lock s in
  n = full_rows (merged_by_lock s).1 /\
  (1 <= n ->
     (forall v, Tetris.score_table !! n = Some v ->
        Tetris.score s' = Tetris.score s + v * Tetris.level s) /\
     Tetris.lines s' = Tetris.lines s + n /\
     Tetris.level s' = Tetris.lines s' / 10 + 1 /\
     match float_of_int (Tetris.level s' - 1) with
     | Some k =>
         Tetris.lock_piece_raises s = false /\
         Tetris.fall_speed s' =
           float_max f_0_05 (float_sub f_0_6 (float_mul k f_0_05))
     | None => Tetris.lock_piece_raises s = true
     end) /\
  (n = 0 ->
     Tetris.score s' = Tetris.score s /\ Tetris.lines s' = Tetris.lines s /\
     Tetris.level s' = Tetris.level s /\
     Tetris.fall_speed s' = Tetris.fall_speed s /\
     Tetris.lock_piece_raises s = false) /\
  (Tetris.score_table !! 1 = Some 40 /\ Tetris.score_table !! 2 = Some 100 /\
   Tetris.score_table !! 3 = Some 300 /\ Tetris.score_table !! 4 = Some 1200) /\
  (forall lvl,
     Tetris.speed_of_level lvl =
       match float_of_int (lvl - 1) with
       | Some k =>
           Some (float_max f_0_05 (float_sub f_0_6 (float_mul k f_0_05)))
       | None => None
       end) /\
  (forall lvl, 1 <= lvl <= 2 ^ 1023 -> is_Some (Tetris.speed_of_level lvl)) /\
  (forall l1 l2 v1 v2, 1 <= l1 <= l2 ->
     Tetris.speed_of_level l1 = Some v1 -> Tetris.speed_of_level l2 = Some v2 ->
     SFleb v2 v1 = true) /\
  (forall lvl v, Tetris.speed_of_level lvl = Some v -> SFleb f_0_05 v = true).
Proof.
  cbv zeta. destruct (lock_piece_stats fresh s) as [Hzero Hpos].
  split; [apply clear_lines_shifted|].
  split; [|split; [done|split; [done|split; [done|split; [|split]]]]].
  - intros Hn. destruct Hpos as (Hscore & Hlines & Hlevel & Hspeed); [lia|].
    split; [|split; [done|split]].
    + intros v Hv. by rewrite Hscore, Hv.
    + by rewrite Hlevel, Hlines.
    + rewrite Hlevel. unfold Tetris.speed_of_level in Hspeed.
      destruct (float_of_int _) as [k|]; [|by destruct Hspeed].
      by destruct Hspeed.
  - apply speed_of_level_is_Some.
  - apply speed_of_level_antitone.
  - apply speed_of_level_floor.
Qed.

(** The lock of [four_rows_state]: four rows at level 1 with six lines
    cleared before; the level becomes 2 and the interval
    0.5499999999999999. *)
Lemma lock_piece_scoring_witness :
  let s' := Tetris.lock_piece piece_O_spawned four_rows_state in
  cleared_by_lock four_rows_state = 4 /\
  Tetris.score s' = 240 + 1200 * 1 /\ Tetris.lines s' = 10 /\
  Tetris.level s' = 2 /\
  Tetris.fall_speed s' = S754_finite false 4953959590107545 (-53) /\
  Tetris.lock_piece_raises four_rows_state = false.
Proof.
  cbv zeta.
  destruct (lock_piece_scoring piece_O_spawned four_rows_state)
    as (_ & Hpos & _).
  assert (cleared_by_lock four_rows_state = 4) as Hn
    by (vm_compute; reflexivity).
  rewrite Hn in Hpos.
  destruct Hpos as (Hscore & Hlines & Hlevel & Hspeed); [lia|].
  assert (Tetris.level (Tetris.lock_piece piece_O_spawned four_rows_state) = 2)
    as Hl by (rewrite Hlevel, Hlines; reflexivity).
  rewrite Hl in Hspeed.
  assert (float_of_int (2 - 1) = Some (S754_finite false 4503599627370496 (-52)))
    as Hk by (vm_compute; reflexivity).
  rewrite Hk in Hspeed. destruct Hspeed as [Hraises Hspeed].
  split; [exact Hn|]. split; [exact (Hscore 1200 eq_refl)|].
  split; [rewrite Hlines; reflexivity|]. split; [exact Hl|].
  split; [|exact Hraises]. rewrite Hspeed. vm_compute. reflexivity.
Defined.

(** ** The keys of the dictionary stay in the well *)

Lemma hard_drop_keys_in_well (fuel : nat) (fresh : Piece.t) (s s' : Tetris.t) :
  keys_in_well (Tetris.locked s) ->
  Piece.fits (Tetris.current s) 0 0 (Tetris.locked s) = true ->
  Tetris.hard_drop fuel fresh s = Some s' ->
  keys_in_well (Tetris.locked s').
Proof.
  intros Hwell Hfits. unfold Tetris.hard_drop.
  destruct (Tetris.drop fuel _ _) as [[q n]|] eqn:Hd; [|done].
  cbn. intros [= <-]. apply drop_spec in Hd as (_ & _ & Hkeep).
  apply lock_piece_keys_in_well; [done|]. by apply Hkeep.
Qed.

(** C9. Every key of [locked] has its column in [0, COLUMNS) and its row in
    [0, ROWS), no negative row being stored: this holds after [reset] and,
    where it holds and the current piece is at a position that [valid_space]
    accepts, it holds again after [clear_lines], after the first loop of
    [lock_piece], after [lock_piece] and after [hard_drop]. *)
Theorem locked_keys_stay_in_well (fresh first second : Piece.t) (s : Tetris.t)
    (Hwell : keys_in_well (Tetris.locked s))
    (Hvalid : valid_space (Piece.shape (Tetris.current s))
                (Piece.x (Tetris.current s)) (Piece.y (Tetris.current s))
                (Tetris.locked s) = true) :
  keys_in_well (Tetris.locked (Tetris.reset first second)) /\
  keys_in_well (clear_lines (make_grid (Tetris.locked s)) (Tetris.locked s)).2 /\
  keys_in_well (merged_by_lock s).1 /\
  keys_in_well (Tetris.locked (Tetris.lock_piece fresh s)) /\
  (forall fuel s', Tetris.hard_drop fuel fresh s = Some s' ->
     keys_in_well (Tetris.locked s')).
Proof.
  assert (Piece.fits (Tetris.current s) 0 0 (Tetris.locked s) = true) as Hfits.
  { unfold Piece.fits. by rewrite !Z.add_0_r. }
  split; [|split; [|split; [|split]]].
  - intros x y Hsome. cbn in Hsome. rewrite lookup_empty in Hsome.
    by destruct Hsome.
  - by apply clear_lines_keys_in_well.
  - by apply merge_keys_in_well.
  - by apply lock_piece_keys_in_well.
  - intros fuel s'. by apply hard_drop_keys_in_well.
Qed.

#[local] Instance in_well_dec (x y : Z) : Decision (in_well x y).
Proof. unfold in_well. apply _. Defined.

Lemma keys_in_well_checked (locked : gmap (Z * Z) Color) :
  bool_decide (map_Forall (fun k _ => in_well k.1 k.2) locked) = true ->
  keys_in_well locked.
Proof.
  intros H%bool_decide_eq_true x y [c Hc]. by apply (H (x, y) c).
Defined.

Lemma locked_keys_stay_in_well_witness :
  keys_in_well (Tetris.locked (Tetris.lock_piece piece_O_spawned stacked_state)).
Proof.
  apply (locked_keys_stay_in_well piece_O_spawned piece_O_spawned piece_O_spawned
           stacked_state).
  - apply keys_in_well_checked. vm_compute. reflexivity.
  - vm_compute. reflexivity.
Defined.

(** ** Rotation with kicks *)

Lemma first_kick_Some (sh : Shape) (px py : Z) (locked : gmap (Z * Z) Color)
    (before : list Z) (dx : Z) (after : list Z) :
  (forall d, d ∈ before -> valid_space sh (px + d) py locked = false) ->
  valid_space sh (px + dx) py locked = true ->
  Piece.first_kick sh px py locked (before ++ dx :: after) = Some dx.
Proof.
  intros Hbefore Hdx. induction before as [|b before IH]; cbn [app Piece.first_kick].
  - by rewrite Hdx.
  - rewrite Hbefore by (by left). apply IH. intros d Hd. apply Hbefore. by right.
Qed.

Lemma first_kick_None (sh : Shape) (px py : Z) (locked : gmap (Z * Z) Color)
    (offsets : list Z) :
  (forall d, d ∈ offsets -> valid_space sh (px + d) py locked = false) ->
  Piece.first_kick sh px py locked offsets = None.
Proof.
  intros Hall. induction offsets as [|b offsets IH]; cbn [Piece.first_kick]; [done|].
  rewrite Hall by (by left). apply IH. intros d Hd. apply Hall. by right.
Qed.

Lemma getitem_nonneg {A} (l : list A) (i : Z) :
  0 <= i -> getitem l i = l !! Z.to_nat i.
Proof. intros Hi. unfold getitem. by destruct (Z.leb_spec 0 i); [|lia]. Qed.

Lemma settle_outcome (p : Piece.t) (locked : gmap (Z * Z) Color) (r : Z) :
  piece_ok p -> 0 <= r < Z.of_nat (length (Piece.rotations p)) ->
  kick_outcome p locked r (Piece.settle p (Piece.rotation p) r locked).
Proof.
  intros [Hrot Hshape] Hr. unfold kick_outcome, Piece.settle.
  destruct (Piece.rotations p !! Z.to_nat r) as [sh|] eqn:Hsh.
  2:{ apply lookup_ge_None in Hsh. lia. }
  exists sh. split; [done|].
  rewrite (getitem_nonneg _ r) by lia. rewrite Hsh. cbn [mbind option_bind].
  split; [|split].
  - intros Hv. by rewrite Hv.
  - intros Hv before dx after Hoffs Hbefore Hdx. rewrite Hv. cbn [negb].
    rewrite Hoffs. by rewrite (first_kick_Some _ _ _ _ before dx after).
  - intros Hv Hall. rewrite Hv. cbn [negb].
    rewrite first_kick_None by done.
    rewrite getitem_nonneg by lia. rewrite Hshape. cbn [mbind option_bind].
    by destruct p.
Qed.

Lemma rotate_outcome (p : Piece.t) (locked : gmap (Z * Z) Color) :
  piece_ok p ->
  kick_outcome p locked
    ((Piece.rotation p + 1) mod Z.of_nat (length (Piece.rotations p)))
    (Piece.rotate p locked).
Proof.
  intros Hok. pose proof Hok as [Hrot _]. unfold Piece.rotate, py_mod.
  destruct (Z.eqb_spec (Z.of_nat (length (Piece.rotations p))) 0); [lia|].
  cbn [mbind option_bind]. apply settle_outcome; [done|].
  apply Z.mod_pos_bound. lia.
Qed.

Lemma rotate_ccw_outcome (p : Piece.t) (locked : gmap (Z * Z) Color) :
  piece_ok p ->
  kick_outcome p locked
    ((Piece.rotation p - 1) mod Z.of_nat (length (Piece.rotations p)))
    (Piece.rotate_ccw p locked).
Proof.
  intros Hok. pose proof Hok as [Hrot _]. unfold Piece.rotate_ccw, py_mod.
  destruct (Z.eqb_spec (Z.of_nat (length (Piece.rotations p))) 0); [lia|].
  cbn [mbind option_bind]. apply settle_outcome; [done|].
  apply Z.mod_pos_bound. lia.
Qed.

Lemma set_current_same (s : Tetris.t) : Tetris.set_current s (Tetris.current s) = s.
Proof. by destruct s. Qed.

Lemma move_refused (dx dy : Z) (s : Tetris.t) :
  Piece.fits (Tetris.current s) dx dy (Tetris.locked s) = false ->
  Loop.move dx dy s = s.
Proof. intros H. unfold Loop.move. by rewrite H. Qed.

(** C5. For a piece as the class keeps it, [rotate] and [rotate_ccw] keep the
    new pattern at the anchor when it is valid there, otherwise add to the
    column the first of the offsets -1, +1, -2, +2 that gives a valid position
    on the same row, reporting success; when no offset does, they return the
    piece with the rotation index, pattern and anchor it had, and report
    failure. A move to the left, to the right or down that [valid_space]
    refuses, and a rotation that fails, leave the session as it was, and the
    loop goes on without an exception. *)
Theorem rotation_kicks_and_refused_moves (p : Piece.t)
    (locked : gmap (Z * Z) Color) (Hok : piece_ok p) :
  kick_outcome p locked
    ((Piece.rotation p + 1) mod Z.of_nat (length (Piece.rotations p)))
    (Piece.rotate p locked) /\
  kick_outcome p locked
    ((Piece.rotation p - 1) mod Z.of_nat (length (Piece.rotations p)))
    (Piece.rotate_ccw p locked) /\
  forall (fuel : nat) (s : Tetris.t) (g : Rng),
    Tetris.current s = p -> Tetris.locked s = locked ->
    (Piece.fits p (-1) 0 locked = false ->
       Loop.key_down fuel K_LEFT (s, g) = Next (s, g)) /\
    (Piece.fits p 1 0 locked = false ->
       Loop.key_down fuel K_RIGHT (s, g) = Next (s, g)) /\
    (Piece.fits p 0 1 locked = false ->
       Loop.key_down fuel K_DOWN (s, g) = Next (s, g)) /\
    (Piece.rotate p locked = Some (p, false) ->
       Loop.key_down fuel K_UP (s, g) = Next (s, g) /\
       Loop.key_down fuel K_x (s, g) = Next (s, g)) /\
    (Piece.rotate_ccw p locked = Some (p, false) ->
       Loop.key_down fuel K_z (s, g) = Next (s, g)).
Proof.
  split; [by apply rotate_outcome|]. split; [by apply rotate_ccw_outcome|].
  intros fuel s g <- <-. cbn [Loop.key_down].
  split; [|split; [|split; [|split]]].
  - intros H. by rewrite move_refused.
  - intros H. by rewrite move_refused.
  - intros H. by rewrite move_refused.
  - intros ->. by rewrite set_current_same.
  - intros ->. by rewrite set_current_same.
Qed.

(** On [kick_locked] the T piece at (4, 5) is pushed one column to the left
    by [rotate], whose pattern meets (5, 7) at the anchor; [rotate_ccw]
    finds its pattern taken at the anchor and at the four offsets and fails;
    and the keys Left, Right, Down and Z leave the session as it is. *)
Lemma rotation_kicks_and_refused_moves_witness :
  Piece.rotate piece_T_midfield kick_locked =
    Some (turned piece_T_midfield 1 ["010"; "011"; "010"]%string 3, true) /\
  Piece.rotate_ccw piece_T_midfield kick_locked =
    Some (piece_T_midfield, false) /\
  forall (fuel : nat) (g : Rng),
    Loop.key_down fuel K_LEFT (kick_state, g) = Next (kick_state, g) /\
    Loop.key_down fuel K_RIGHT (kick_state, g) = Next (kick_state, g) /\
    Loop.key_down fuel K_DOWN (kick_state, g) = Next (kick_state, g) /\
    Loop.key_down fuel K_z (kick_state, g) = Next (kick_state, g).
Proof.
  destruct (rotation_kicks_and_refused_moves piece_T_midfield kick_locked)
    as (Hcw & Hccw & Hmoves); [split; [cbn; lia | reflexivity]|].
  destruct Hcw as (sh & Hsh & _ & Hkick & _).
  destruct Hccw as (sh' & Hsh' & _ & _ & Hfail).
  assert (sh = ["010"; "011"; "010"]%string) as -> by (by injection Hsh).
  assert (sh' = ["010"; "110"; "010"]%string) as -> by (by injection Hsh').
  assert (Piece.rotate_ccw piece_T_midfield kick_locked =
            Some (piece_T_midfield, false)) as Hccw.
  { apply Hfail; [vm_compute; reflexivity|].
    intros d Hd.
    repeat (apply elem_of_cons in Hd as [->|Hd]; [vm_compute; reflexivity|]).
    by apply elem_of_nil in Hd. }
  split; [|split; [exact Hccw|]].
  - apply (Hkick ltac:(vm_compute; reflexivity) [] (-1) [1; -2; 2] eq_refl).
    + intros d Hd. by apply elem_of_nil in Hd.
    + vm_compute. reflexivity.
  - intros fuel g.
    destruct (Hmoves fuel kick_state g eq_refl eq_refl)
      as (Hleft & Hright & Hdown & _ & Hz).
    split; [apply Hleft; vm_compute; reflexivity|].
    split; [apply Hright; vm_compute; reflexivity|].
    split; [apply Hdown; vm_compute; reflexivity|].
    apply Hz, Hccw.
Defined.

(** ** Four clockwise rotations *)

Lemma rotate_open (p : Piece.t) (locked : gmap (Z * Z) Color) :
  piece_ok p ->
  (forall sh, sh ∈ Piece.rotations p ->
     valid_space sh (Piece.x p) (Piece.y p) locked = true) ->
  exists sh,
    Piece.rotations p !!
      Z.to_nat ((Piece.rotation p + 1) mod Z.of_nat (length (Piece.rotations p)))
      = Some sh /\
    Piece.rotate p locked =
      Some (turned p ((Piece.rotation p + 1) mod Z.of_nat (length (Piece.rotations p)))
              sh (Piece.x p), true).
Proof.
  intros Hok Hopen. destruct (rotate_outcome p locked Hok) as (sh & Hsh & Hvalid & _).
  exists sh. split; [done|]. apply Hvalid, Hopen.
  by eapply list_elem_of_lookup_2.
Qed.

Lemma turned_ok (p : Piece.t) (r : Z) (sh : Shape) (px : Z) :
  0 <= r < Z.of_nat (length (Piece.rotations p)) ->
  Piece.rotations p !! Z.to_nat r = Some sh ->
  piece_ok (turned p r sh px).
Proof. intros Hr Hsh. split; done. Qed.

Lemma four_state_family (key : PieceKey) :
  key ∈ [KeyJ; KeyL; KeyT] -> length (TETROMINOES key) = 4%nat.
Proof.
  intros Hk. repeat (apply elem_of_cons in Hk as [->|Hk]; [reflexivity|]).
  by apply elem_of_nil in Hk.
Qed.

(** C8. A piece of the J, L or T family, in a field where each of its four
    patterns is valid at its anchor, goes through four calls of [rotate] that
    all succeed and keep the anchor, and is after the fourth exactly the piece
    it was: same pattern, same rotation index, same position. *)
Theorem four_rotations_identity (p : Piece.t) (locked : gmap (Z * Z) Color)
    (Hfamily : Piece.type p ∈ [KeyJ; KeyL; KeyT])
    (Htable : Piece.rotations p = TETROMINOES (Piece.type p))
    (Hok : piece_ok p)
    (Hopen : forall sh, sh ∈ Piece.rotations p ->
               valid_space sh (Piece.x p) (Piece.y p) locked = true) :
  exists p1 p2 p3,
    Piece.rotate p locked = Some (p1, true) /\
    Piece.rotate p1 locked = Some (p2, true) /\
    Piece.rotate p2 locked = Some (p3, true) /\
    Piece.rotate p3 locked = Some (p, true) /\
    (Piece.x p1, Piece.y p1) = (Piece.x p, Piece.y p) /\
    (Piece.x p2, Piece.y p2) = (Piece.x p, Piece.y p) /\
    (Piece.x p3, Piece.y p3) = (Piece.x p, Piece.y p).
Proof.
  assert (length (Piece.rotations p) = 4%nat) as Hlen
    by (rewrite Htable; by apply four_state_family).
  assert (Z.of_nat (length (Piece.rotations p)) = 4) as HlenZ by lia.
  pose proof Hok as [Hrot Hshape]. rewrite HlenZ in Hrot.
  destruct (rotate_open p locked Hok Hopen) as (sh1 & Hsh1 & Hr1).
  rewrite HlenZ in Hsh1, Hr1.
  set (r1 := (Piece.rotation p + 1) mod 4) in *.
  assert (0 <= r1 < 4) as Hr1b by (apply Z.mod_pos_bound; lia).
  set (p1 := turned p r1 sh1 (Piece.x p)) in *.
  assert (piece_ok p1) as Hok1 by (apply turned_ok; [rewrite Hlen; lia|done]).
  destruct (rotate_open p1 locked Hok1 Hopen) as (sh2 & Hsh2 & Hr2).
  cbn [p1 turned Piece.rotations Piece.rotation Piece.x] in Hsh2, Hr2.
  rewrite HlenZ in Hsh2, Hr2.
  set (r2 := (r1 + 1) mod 4) in *.
  assert (0 <= r2 < 4) as Hr2b by (apply Z.mod_pos_bound; lia).
  set (p2 := turned p1 r2 sh2 (Piece.x p)) in *.
  assert (piece_ok p2) as Hok2 by (apply turned_ok; [cbn; rewrite Hlen; lia|done]).
  destruct (rotate_open p2 locked Hok2 Hopen) as (sh3 & Hsh3 & Hr3).
  cbn [p2 p1 turned Piece.rotations Piece.rotation Piece.x] in Hsh3, Hr3.
  rewrite HlenZ in Hsh3, Hr3.
  set (r3 := (r2 + 1) mod 4) in *.
  assert (0 <= r3 < 4) as Hr3b by (apply Z.mod_pos_bound; lia).
  set (p3 := turned (turned p1 r2 sh2 (Piece.x p)) r3 sh3 (Piece.x p)) in *.
  assert (piece_ok p3) as Hok3 by (apply turned_ok; [cbn; rewrite Hlen; lia|done]).
  destruct (rotate_open p3 locked Hok3 Hopen) as (sh4 & Hsh4 & Hr4).
  cbn [p3 p2 p1 turned Piece.rotations Piece.rotation Piece.x] in Hsh4, Hr4.
  rewrite HlenZ in Hsh4, Hr4.
  assert ((r3 + 1) mod 4 = Piece.rotation p) as Hback.
  { subst r3 r2 r1.
    assert (Piece.rotation p = 0 \/ Piece.rotation p = 1 \/
            Piece.rotation p = 2 \/ Piece.rotation p = 3) as Hcases by lia.
    destruct Hcases as [H|[H|[H|H]]]; rewrite H; reflexivity. }
  rewrite Hback in Hsh4, Hr4. rewrite Hshape in Hsh4. injection Hsh4 as <-.
  exists p1, p2, p3. split; [done|]. split; [done|]. split; [done|].
  split; [|done]. rewrite Hr4. f_equal. f_equal.
  unfold turned. cbn. by destruct p.
Qed.

Lemma four_rotations_identity_witness :
  exists p1 p2 p3,
    Piece.rotate piece_T_midfield ∅ = Some (p1, true) /\
    Piece.rotate p1 ∅ = Some (p2, true) /\
    Piece.rotate p2 ∅ = Some (p3, true) /\
    Piece.rotate p3 ∅ = Some (piece_T_midfield, true) /\
    (Piece.x p1, Piece.y p1) = (4, 5) /\
    (Piece.x p2, Piece.y p2) = (4, 5) /\
    (Piece.x p3, Piece.y p3) = (4, 5).
Proof.
  apply (four_rotations_identity piece_T_midfield ∅).
  - vm_compute. right. right. left.
  - reflexivity.
  - split; [cbn; lia | reflexivity].
  - intros sh Hsh. cbn in Hsh.
    repeat (apply elem_of_cons in Hsh as [->|Hsh]; [vm_compute; reflexivity|]).
    by apply elem_of_nil in Hsh.
Defined.

(** ** A fresh piece *)

Lemma valid_cells_above (cells : list (Z * Z)) (locked : gmap (Z * Z) Color) :
  Forall (fun c => 0 <= c.1 < COLUMNS /\ c.2 < 0) cells ->
  valid_cells cells locked = true.
Proof.
  rewrite Forall_forall. intros Hall. apply valid_cells_true.
  intros x y Hin. destruct (Hall _ Hin) as [Hx Hy]. simpl in Hx, Hy.
  split; [done|]. split; [unfold ROWS; lia|lia].
Qed.

Lemma spawn_cells_above (key : PieceKey) :
  exists p, Piece.init key = Some p /\
    Forall (fun c => 0 <= c.1 < COLUMNS /\ c.2 < 0)
      (shape_cells (Piece.shape p) (Piece.x p) (Piece.y p)).
Proof.
  destruct key; eexists; (split; [reflexivity|]);
    apply (bool_decide_unpack _); by vm_compute.
Qed.

(** C10. For each of the seven keys and every dictionary [locked], the piece
    that [Piece(key)] builds is at a position that [valid_space] accepts:
    all its cells are at negative rows, which are not looked up in [locked],
    and in columns of [0, COLUMNS). A fresh piece is thus never at an invalid
    position. *)
Theorem spawned_piece_valid (key : PieceKey) (locked : gmap (Z * Z) Color) :
  exists p, Piece.init key = Some p /\
    valid_space (Piece.shape p) (Piece.x p) (Piece.y p) locked = true /\
    forall j i, occupied (Piece.shape p) j i ->
      Piece.y p + i < 0 /\ 0 <= Piece.x p + j < COLUMNS.
Proof.
  destruct (spawn_cells_above key) as (p & Hinit & Hcells).
  exists p. split; [done|]. split; [by apply valid_cells_above|].
  intros j i Hocc. rewrite Forall_forall in Hcells.
  specialize (Hcells (Piece.x p + j, Piece.y p + i)). cbn [fst snd] in Hcells.
  assert (0 <= Piece.x p + j < COLUMNS /\ Piece.y p + i < 0) as [? ?]; [|done].
  apply Hcells, elem_of_shape_cells.
  by replace (Piece.x p + j - Piece.x p) with j by lia;
     replace (Piece.y p + i - Piece.y p) with i by lia.
Qed.

(** ** The hard drop *)

Lemma fits_down_room (p : Piece.t) (locked : gmap (Z * Z) Color) (j i : Z) :
  occupied (Piece.shape p) j i -> Piece.fits p 0 1 locked = true ->
  Piece.y p + 1 + i < ROWS.
Proof.
  intros Hocc Hfit. unfold Piece.fits, valid_space in Hfit.
  rewrite valid_cells_true in Hfit.
  destruct (Hfit (Piece.x p + 0 + j) (Piece.y p + 1 + i)) as (_ & ? & _); [|done].
  apply elem_of_shape_cells.
  by replace (Piece.x p + 0 + j - (Piece.x p + 0)) with j by lia;
     replace (Piece.y p + 1 + i - (Piece.y p + 1)) with i by lia.
Qed.

Lemma drop_terminates (fuel : nat) (p : Piece.t) (locked : gmap (Z * Z) Color)
    (j i : Z) :
  occupied (Piece.shape p) j i ->
  Z.max 0 (ROWS - 1 - (Piece.y p + i)) < Z.of_nat fuel ->
  exists q n, Tetris.drop fuel p locked = Some (q, n).
Proof.
  revert p. induction fuel as [|fuel IH]; intros p Hocc Hfuel; [lia|].
  cbn [Tetris.drop]. destruct (Piece.fits p 0 1 locked) eqn:Hfit; [|eauto].
  pose proof (fits_down_room p locked j i Hocc Hfit) as Hroom.
  destruct (IH (Piece.set_y p (Piece.y p + 1))) as (q & n & ->); [done|cbn; lia|].
  eauto.
Qed.

Lemma drop_steps_bound (fuel : nat) (p q : Piece.t) (n : nat)
    (locked : gmap (Z * Z) Color) (j i : Z) :
  Tetris.drop fuel p locked = Some (q, n) ->
  occupied (Piece.shape p) j i ->
  Z.of_nat n <= Z.max 0 (ROWS - 1 - (Piece.y p + i)).
Proof.
  revert p q n. induction fuel as [|fuel IH]; intros p q n; cbn [Tetris.drop]; [done|].
  destruct (Piece.fits p 0 1 locked) eqn:Hfit.
  - destruct (Tetris.drop fuel _ locked) as [[q' n']|] eqn:Hd; [|done].
    intros [= <- <-] Hocc.
    pose proof (fits_down_room p locked j i Hocc Hfit) as Hroom.
    specialize (IH _ _ _ Hd Hocc). cbn in IH. lia.
  - intros [= <- <-] _. lia.
Qed.

Lemma drop_more_fuel (fuel fuel' : nat) (p : Piece.t)
    (locked : gmap (Z * Z) Color) (r : Piece.t * nat) :
  (fuel <= fuel')%nat ->
  Tetris.drop fuel p locked = Some r -> Tetris.drop fuel' p locked = Some r.
Proof.
  revert fuel' p r. induction fuel as [|fuel IH]; intros fuel' p r Hle; [done|].
  destruct fuel' as [|fuel']; [lia|]. cbn [Tetris.drop].
  destruct (Piece.fits p 0 1 locked); [|done].
  destruct (Tetris.drop fuel _ locked) as [[q n]|] eqn:Hd; [|done].
  intros [= <-]. by rewrite (IH fuel' _ (q, n)) by (lia || done).
Qed.

Lemma family_shapes_row_1 (key : PieceKey) (sh : Shape) :
  sh ∈ TETROMINOES key -> exists j, occupied sh j 1.
Proof.
  intros Hsh.
  assert (forallb (fun sh => existsb (fun c => c.2 =? 1) (shape_cells sh 0 0))
            (TETROMINOES key) = true) as Hall by (by destruct key).
  rewrite forallb_forall in Hall.
  specialize (Hall sh). rewrite <- list_elem_of_In in Hall.
  apply Hall, existsb_exists in Hsh as ([x y] & Hin & Hy%Z.eqb_eq).
  simpl in Hy. subst y. apply list_elem_of_In, elem_of_shape_cells in Hin.
  exists (x - 0). by replace (1 - 0) with 1 in Hin by lia.
Qed.

(** C7, as stated, fails for the I piece dropped from its spawn row on an
    empty well: right after [reset] the loop of [hard_drop] takes 22 steps,
    more than [ROWS], whatever the number of tests it is given beyond 30. *)
Lemma hard_drop_of_I_takes_22_steps :
  let s := Tetris.reset piece_I_spawned piece_I_spawned in
  Tetris.drop 30 (Tetris.current s) (Tetris.locked s) =
    Some (Piece.set_y piece_I_spawned 18, 22%nat) /\
  ROWS < Z.of_nat 22 /\
  forall fuel, (30 <= fuel)%nat ->
    Tetris.drop fuel (Tetris.current s) (Tetris.locked s) =
      Some (Piece.set_y piece_I_spawned 18, 22%nat).
Proof.
  cbv zeta.
  assert (Tetris.drop 30 piece_I_spawned ∅ =
            Some (Piece.set_y piece_I_spawned 18, 22%nat)) as H30
    by (by vm_compute).
  split; [exact H30|]. split; [by vm_compute|].
  intros fuel Hfuel. by apply (drop_more_fuel 30).
Qed.

(** C7, amended. For a piece of the seven families, as the class keeps it, at
    row -4 or below it (every spawn row is), and for every dictionary, the
    loop of [hard_drop] stops after at most [ROWS + 2] downward steps, and
    after at most [ROWS - 1 - r] where [r] is the row of any of its cells
    before the drop; the piece has then only changed its row, cannot go one
    row further, and [hard_drop] locks it there. *)
Theorem hard_drop_terminates (fresh : Piece.t) (s : Tetris.t) (fuel : nat)
    (Htable : Piece.rotations (Tetris.current s) =
              TETROMINOES (Piece.type (Tetris.current s)))
    (Hok : piece_ok (Tetris.current s))
    (Hrow : -4 <= Piece.y (Tetris.current s))
    (Hfuel : ROWS + 2 < Z.of_nat fuel) :
  exists q n,
    Tetris.drop fuel (Tetris.current s) (Tetris.locked s) = Some (q, n) /\
    Z.of_nat n <= ROWS + 2 /\
    (forall j i, occupied (Piece.shape (Tetris.current s)) j i ->
       Z.of_nat n <= Z.max 0 (ROWS - 1 - (Piece.y (Tetris.current s) + i))) /\
    q = Piece.set_y (Tetris.current s)
          (Piece.y (Tetris.current s) + Z.of_nat n) /\
    Piece.fits q 0 1 (Tetris.locked s) = false /\
    Tetris.hard_drop fuel fresh s =
      Some (Tetris.lock_piece fresh (Tetris.set_current s q)).
Proof.
  destruct Hok as [Hrot Hshape].
  destruct (family_shapes_row_1 (Piece.type (Tetris.current s))
              (Piece.shape (Tetris.current s))) as [j Hocc].
  { rewrite <- Htable. by eapply list_elem_of_lookup_2. }
  destruct (drop_terminates fuel (Tetris.current s) (Tetris.locked s) j 1)
    as (q & n & Hd); [done|unfold ROWS in *; lia|].
  exists q, n. split; [done|].
  pose proof (drop_steps_bound _ _ _ _ _ j 1 Hd Hocc) as Hb.
  split; [unfold ROWS in *; lia|]. split.
  { intros j' i' Hocc'. by apply (drop_steps_bound _ _ _ _ _ j' i' Hd). }
  destruct (drop_spec _ _ _ _ _ Hd) as (Hq & Hstop & _).
  split; [done|]. split; [done|].
  unfold Tetris.hard_drop. by rewrite Hd.
Qed.

Lemma hard_drop_terminates_witness :
  exists q n,
    Tetris.drop 30 piece_I_spawned ∅ = Some (q, n) /\
    Z.of_nat n <= ROWS + 2.
Proof.
  destruct (hard_drop_terminates piece_I_spawned
              (Tetris.reset piece_I_spawned piece_I_spawned) 30)
    as (q & n & Hd & Hn & _).
  - reflexivity.
  - split; [cbn; lia | reflexivity].
  - cbn. lia.
  - vm_compute. reflexivity.
  - exists q, n. split; [exact Hd | exact Hn].
Defined.

(** ** The loop once the game is over *)

Lemma on_events_app (fuel : nat) (events1 events2 : list Event) (w : Loop.World) :
  Loop.on_events fuel (events1 ++ events2) w =
  Loop.on_events fuel events1 w ≫= Loop.on_events fuel events2.
Proof.
  revert w. induction events1 as [|e events1 IH]; intros w; [done|].
  cbn [app Loop.on_events]. destruct (Loop.on_event fuel e w); cbn; [apply IH|done..].
Qed.

(** With the flag set at the head of a turn, the turn leaves the session as
    it is, unless [R] is pressed, which resets it, or the process exits. *)
Lemma game_over_events_inert (events : list Event) (w w' : Loop.World) :
  Loop.game_over_events events w = Next w' ->
  w' = w \/
  (KEYDOWN K_r ∈ events /\ Tetris.locked w'.1 = ∅ /\ Tetris.game_over w'.1 = false).
Proof.
  induction events as [|e events IH]; cbn [Loop.game_over_events].
  - intros [= <-]. by left.
  - destruct e as [|key|]; [done| |].
    + destruct key; try (intros H; destruct (IH H) as [->|(? & ? & ?)];
        [by left|right; split; [by right|done]]); [done|].
      destruct (Loop.new_piece w.2) as [[first g1]| | |]; [|done..].
      unfold mbind, step_bind.
      destruct (Loop.new_piece g1) as [[second g2]| | |]; [|done..].
      intros [= <-]. right. split; [by left|done].
    + intros H. destruct (IH H) as [->|(? & ? & ?)];
        [by left|right; split; [by right|done]].
Qed.

Lemma game_over_frame_inert (fuel : nat) (events : list Event) (due : bool)
    (w w' : Loop.World) :
  Tetris.game_over w.1 = true ->
  Loop.frame fuel events due w = Next w' ->
  w' = w \/
  (KEYDOWN K_r ∈ events /\ Tetris.locked w'.1 = ∅ /\ Tetris.game_over w'.1 = false).
Proof.
  intros Hover. unfold Loop.frame. rewrite Hover. apply game_over_events_inert.
Qed.

(** C4 at the failing input. From the session with columns 4 and 5 full,
    the events [SPACE, LEFT, LEFT, SPACE] arrive in one turn of the loop. The
    first hard drop locks the piece above the well and sets the flag; the loop
    over the events goes on all the same: the next [LEFT] moves the new
    current piece from column 4 to column 3, and at the end of the turn the
    second hard drop has written the cells of rows 18 and 19 in columns 2
    and 3 into the dictionary. *)
Lemma events_after_game_over_by_hard_drop_applied :
  Loop.on_events 30 [KEYDOWN K_SPACE] (stacked_state, all_O) =
    Next (over_state, all_O) /\
  Tetris.game_over over_state = true /\
  state_of (Loop.on_events 30 [KEYDOWN K_LEFT] (over_state, all_O)) =
    Some (Tetris.set_current over_state (Piece.set_x piece_O_spawned 3)) /\
  Tetris.locked over_state !! (2, 19) = None /\
  match state_of (Loop.frame 30
          [KEYDOWN K_SPACE; KEYDOWN K_LEFT; KEYDOWN K_LEFT; KEYDOWN K_SPACE]
          false (stacked_state, all_O)) with
  | Some s =>
      Tetris.game_over s = true /\
      Tetris.locked s !! (2, 19) = Some (240, 240, 0) /\
      Tetris.locked s !! (3, 18) = Some (240, 240, 0)
  | None => False
  end.
Proof.
  split; [by vm_compute|]. split; [done|]. split; [by vm_compute|].
  split; [by vm_compute|]. by vm_compute.
Qed.

(** ** What every session of a game satisfies *)

Lemma init_ok (key : PieceKey) (p : Piece.t) :
  Piece.init key = Some p -> piece_ok p /\ family_piece p.
Proof.
  destruct key; intros [= <-];
    (split; [split; [cbn; lia | reflexivity] | split; [reflexivity | cbn; lia]]).
Qed.

Lemma init_fits (key : PieceKey) (p : Piece.t) (locked : gmap (Z * Z) Color) :
  Piece.init key = Some p -> Piece.fits p 0 0 locked = true.
Proof.
  intros Hinit. destruct (spawn_cells_above key) as (p' & Hinit' & Hcells).
  rewrite Hinit in Hinit'. injection Hinit' as <-.
  unfold Piece.fits, valid_space. rewrite !Z.add_0_r. by apply valid_cells_above.
Qed.

Lemma first_kick_valid (sh : Shape) (px py : Z) (locked : gmap (Z * Z) Color)
    (offsets : list Z) (dx : Z) :
  Piece.first_kick sh px py locked offsets = Some dx ->
  valid_space sh (px + dx) py locked = true.
Proof.
  induction offsets as [|d offsets IH]; cbn [Piece.first_kick]; [done|].
  destruct (valid_space sh (px + d) py locked) eqn:Hd; [|done].
  by intros [= <-].
Qed.

Lemma settle_keeps (p q : Piece.t) (locked : gmap (Z * Z) Color) (r : Z) (b : bool) :
  piece_ok p -> 0 <= r < Z.of_nat (length (Piece.rotations p)) ->
  Piece.fits p 0 0 locked = true ->
  Piece.settle p (Piece.rotation p) r locked = Some (q, b) ->
  (piece_ok q /\ (family_piece p -> family_piece q)) /\
  Piece.fits q 0 0 locked = true.
Proof.
  intros [Hrot Hshape] Hr Hfits. unfold Piece.settle.
  rewrite (getitem_nonneg _ r) by lia.
  destruct (Piece.rotations p !! Z.to_nat r) as [sh|] eqn:Hsh; [|done].
  cbn [mbind option_bind].
  destruct (valid_space sh (Piece.x p) (Piece.y p) locked) eqn:Hv; cbn [negb].
  - intros [= <- <-]. split; [split; [by apply turned_ok|done]|].
    unfold Piece.fits. cbn. by rewrite !Z.add_0_r.
  - destruct (Piece.first_kick _ _ _ _ _) as [dx|] eqn:Hk.
    + intros [= <- <-]. split; [split; [by apply (turned_ok p r sh)|done]|].
      unfold Piece.fits. cbn. rewrite !Z.add_0_r.
      by apply first_kick_valid in Hk.
    + rewrite getitem_nonneg by lia. rewrite Hshape. cbn [mbind option_bind].
      intros [= <- <-]. split; [done|].
      unfold Piece.fits in *. by cbn.
Qed.

Lemma rotate_keeps (p q : Piece.t) (locked : gmap (Z * Z) Color) (b : bool) :
  piece_ok p -> Piece.fits p 0 0 locked = true ->
  Piece.rotate p locked = Some (q, b) \/ Piece.rotate_ccw p locked = Some (q, b) ->
  (piece_ok q /\ (family_piece p -> family_piece q)) /\
  Piece.fits q 0 0 locked = true.
Proof.
  intros Hok Hfits. pose proof Hok as [Hrot _].
  unfold Piece.rotate, Piece.rotate_ccw, py_mod.
  destruct (Z.eqb_spec (Z.of_nat (length (Piece.rotations p))) 0); [lia|].
  cbn [mbind option_bind].
  intros [H|H]; (eapply settle_keeps; [done| |done|exact H]);
    apply Z.mod_pos_bound; lia.
Qed.

Lemma move_keeps (dx dy : Z) (s : Tetris.t) :
  0 <= dy -> session_ok s -> session_ok (Loop.move dx dy s).
Proof.
  intros Hdy (Hwell & [Hok [Htab Hrow]] & Hfits & Hnext). unfold Loop.move.
  destruct (Piece.fits (Tetris.current s) dx dy (Tetris.locked s)) eqn:Hm;
    [|done].
  split; [done|]. split; [split; [done|split; [done|cbn; lia]]|]. split; [|done].
  unfold Piece.fits in *. cbn. by rewrite !Z.add_0_r.
Qed.

Lemma set_current_keeps (s : Tetris.t) (q : Piece.t) :
  session_ok s -> piece_ok q /\ family_piece q ->
  Piece.fits q 0 0 (Tetris.locked s) = true ->
  session_ok (Tetris.set_current s q).
Proof. intros (Hwell & _ & _ & Hnext) Hok Hfits. done. Qed.

Lemma new_piece_init (g g' : Rng) (fresh : Piece.t) :
  Loop.new_piece g = Next (fresh, g') -> exists key, Piece.init key = Some fresh.
Proof.
  unfold Loop.new_piece, Tetris.get_new_piece.
  destruct (random_choice g) as [key g1].
  destruct (Piece.init key) as [p|] eqn:Hp; [|done].
  intros [= <- _]. eauto.
Qed.

Lemma lock_keeps (w w' : Loop.World) :
  session_ok w.1 -> Loop.lock w = Next w' -> session_ok w'.1.
Proof.
  destruct w as [s g]. cbn [fst]. intros (Hwell & Hok & Hfits & [key Hnext]).
  unfold Loop.lock.
  destruct (Tetris.lock_piece_raises s) eqn:Hraises; [done|].
  destruct (Loop.new_piece g) as [[fresh g']| | |] eqn:Hnew; [|done..].
  unfold mbind, step_bind. intros [= <-]. cbn [fst].
  apply new_piece_init in Hnew.
  destruct (lock_piece_fields fresh s) as (_ & _ & Hcur & Hnxt & _).
  split; [by apply lock_piece_keys_in_well|].
  rewrite Hcur, Hnxt by done. split; [by eapply init_ok|].
  split; [by eapply init_fits|done].
Qed.

Lemma hard_drop_keeps (fuel : nat) (w w' : Loop.World) :
  session_ok w.1 -> Loop.hard_drop fuel w = Next w' -> session_ok w'.1.
Proof.
  destruct w as [s g]. cbn [fst]. intros Hs. unfold Loop.hard_drop.
  destruct (Tetris.drop fuel _ _) as [[q n]|] eqn:Hd; [|done].
  apply lock_keeps. cbn [fst].
  destruct (drop_spec _ _ _ _ _ Hd) as (Hq & _ & Hkeep).
  pose proof Hs as (Hwell & [Hok [Htab Hrow]] & Hfits & Hnext).
  apply set_current_keeps; [done| |by apply Hkeep].
  rewrite Hq. split; [done|]. split; [done|]. cbn. lia.
Qed.

Lemma rotated_keeps (s : Tetris.t) (g : Rng) (w' : Loop.World)
    (res : option (Piece.t * bool)) :
  session_ok s ->
  res = Piece.rotate (Tetris.current s) (Tetris.locked s) \/
  res = Piece.rotate_ccw (Tetris.current s) (Tetris.locked s) ->
  match res with
  | Some (p, _) => Next (Tetris.set_current s p, g)
  | None => Raised
  end = Next w' ->
  session_ok w'.1.
Proof.
  intros Hs Hres. pose proof Hs as (Hwell & [Hok Hfam] & Hfits & Hnext).
  destruct res as [[q b]|]; [|done]. intros [= <-]. cbn [fst].
  destruct (rotate_keeps _ q (Tetris.locked s) b Hok Hfits) as [[? ?] ?].
  { destruct Hres as [->| ->]; [by left|by right]. }
  apply set_current_keeps; [done| |done]. split; [done|auto].
Qed.

Lemma on_event_keeps (fuel : nat) (e : Event) (w w' : Loop.World) :
  session_ok w.1 -> Loop.on_event fuel e w = Next w' -> session_ok w'.1.
Proof.
  intros Hs. destruct e as [|key|]; cbn [Loop.on_event]; [done| |by intros [= <-]].
  destruct key.
  - by destruct w.
  - destruct w as [s g]. cbn [Loop.key_down]. intros [= <-]. by apply move_keeps.
  - destruct w as [s g]. cbn [Loop.key_down]. intros [= <-]. by apply move_keeps.
  - destruct w as [s g]. cbn [Loop.key_down]. apply rotated_keeps; [done|by left].
  - destruct w as [s g]. cbn [Loop.key_down]. apply rotated_keeps; [done|by left].
  - destruct w as [s g]. cbn [Loop.key_down]. apply rotated_keeps; [done|by right].
  - destruct w as [s g]. cbn [Loop.key_down]. intros [= <-]. by apply move_keeps.
  - destruct w as [s g]. cbn [Loop.key_down]. by apply hard_drop_keeps.
  - destruct w as [s g]. cbn [Loop.key_down]. by intros [= <-].
  - destruct w as [s g]. cbn [Loop.key_down]. by intros [= <-].
Qed.

Lemma on_events_keeps (fuel : nat) (events : list Event) (w w' : Loop.World) :
  session_ok w.1 -> Loop.on_events fuel events w = Next w' -> session_ok w'.1.
Proof.
  revert w. induction events as [|e events IH]; intros w Hs; cbn [Loop.on_events].
  - by intros [= <-].
  - destruct (Loop.on_event fuel e w) as [w1| | |] eqn:He; [|done..].
    unfold mbind, step_bind. apply IH. by eapply on_event_keeps.
Qed.

Lemma reset_ok (key1 key2 : PieceKey) (first second : Piece.t) :
  Piece.init key1 = Some first -> Piece.init key2 = Some second ->
  session_ok (Tetris.reset first second).
Proof.
  intros H1 H2. split; [|split; [by eapply init_ok|split; [by eapply init_fits|eauto]]].
  intros x y Hsome. cbn in Hsome. rewrite lookup_empty in Hsome. by destruct Hsome.
Qed.

Lemma frame_keeps (fuel : nat) (events : list Event) (due : bool)
    (w w' : Loop.World) :
  session_ok w.1 -> Loop.frame fuel events due w = Next w' -> session_ok w'.1.
Proof.
  intros Hs. unfold Loop.frame. destruct (Tetris.game_over w.1).
  - clear due. induction events as [|e events IH]; cbn [Loop.game_over_events].
    + by intros [= <-].
    + destruct e as [|key|]; [done| |exact IH].
      destruct key; try exact IH; [done|].
      destruct (Loop.new_piece w.2) as [[first g1]| | |] eqn:H1; [|done..].
      unfold mbind, step_bind.
      destruct (Loop.new_piece g1) as [[second g2]| | |] eqn:H2; [|done..].
      intros [= <-]. cbn [fst].
      apply new_piece_init in H1 as [k1 H1]. apply new_piece_init in H2 as [k2 H2].
      by eapply reset_ok.
  - destruct (Loop.on_events fuel events w) as [w1| | |] eqn:He; [|done..].
    unfold mbind, step_bind. apply on_events_keeps in He; [|done].
    destruct w1 as [s1 g1]. unfold Loop.gravity. destruct due; [|by intros [= <-]].
    destruct (Piece.fits _ 0 1 _).
    + intros [= <-]. by apply move_keeps.
    + by apply lock_keeps.
Qed.

(** Every session that the loop goes through, from one that satisfies
    [session_ok] (the session after [reset] does, see [reset_ok]), satisfies
    it: in particular the current piece is only ever at positions that
    [valid_space] accepts and the keys of [locked] are cells of the well. *)
Lemma run_keeps (fuel : nat) (frames : list (list Event * bool))
    (w w' : Loop.World) :
  session_ok w.1 -> Loop.run fuel frames w = Next w' -> session_ok w'.1.
Proof.
  revert w. induction frames as [|[events due] frames IH]; intros w Hs;
    cbn [Loop.run].
  - by intros [= <-].
  - destruct (Loop.frame fuel events due w) as [w1| | |] eqn:Hf; [|done..].
    unfold mbind, step_bind. apply IH. by eapply frame_keeps.
Qed.

(** ** The helper [rotate] *)

Lemma length_list_ascii_of_string (s : string) :
  length (list_ascii_of_string s) = String.length s.
Proof. induction s as [|c s IH]; [done|]. cbn. by rewrite IH. Qed.

Lemma char_at_grid (shape : Shape) (y x : nat) :
  ((list_ascii_of_string <$> shape) !! y ≫= fun row => row !! x) = char_at shape y x.
Proof. unfold char_at. rewrite list_lookup_fmap. by destruct (shape !! y). Qed.

Lemma rotate_column (grid : list (list ascii)) (x : nat) :
  Forall (fun row => (x < length row)%nat) grid ->
  exists col,
    mapM (fun y => row ← grid !! y; row !! x) (reverse (seq 0 (length grid)))
      = Some col /\
    length col = length grid /\
    forall k, (k < length grid)%nat ->
      col !! k = (grid !! (length grid - 1 - k)%nat ≫= fun row => row !! x).
Proof.
  intros Hrows.
  destruct (mapM_is_Some_2 (fun y => row ← grid !! y; row !! x)
              (reverse (seq 0 (length grid)))) as [col Hcol].
  { apply Forall_forall. intros y Hy%elem_of_reverse%elem_of_seq. cbn.
    destruct (lookup_lt_is_Some_2 grid y) as [row Hrow]; [lia|].
    rewrite Hrow. cbn. apply lookup_lt_is_Some_2.
    rewrite Forall_forall in Hrows. apply Hrows. by eapply list_elem_of_lookup_2. }
  exists col. split; [done|].
  pose proof (length_mapM _ _ _ Hcol) as Hlen.
  rewrite length_reverse, length_seq in Hlen. split; [done|].
  intros k Hk. apply mapM_Some_1 in Hcol.
  assert (reverse (seq 0 (length grid)) !! k = Some (length grid - 1 - k)%nat) as Hidx.
  { rewrite reverse_lookup by (rewrite length_seq; lia).
    rewrite length_seq. rewrite lookup_seq_lt by lia. f_equal. lia. }
  destruct (Forall2_lookup_l _ _ _ _ _ Hcol Hidx) as (c & Hc & Hf).
  by rewrite Hc, Hf.
Qed.

Lemma rotate_shape_rect (shape : Shape) (h w : nat) :
  rectangular shape h w -> (0 < h)%nat ->
  exists turned_shape,
    rotate_shape shape = Some turned_shape /\
    rectangular turned_shape w h /\
    forall x k, (x < w)%nat -> (k < h)%nat ->
      char_at turned_shape x k = char_at shape (h - 1 - k) x.
Proof.
  intros [Hh Hw] Hpos. unfold rotate_shape. cbv zeta.
  set (grid := list_ascii_of_string <$> shape).
  assert (length grid = h) as Hgrid by (unfold grid; by rewrite length_fmap).
  assert (Forall (fun row => length row = w) grid) as Hgw.
  { unfold grid. apply Forall_fmap. eapply Forall_impl; [exact Hw|].
    intros row Hrow. cbn. by rewrite length_list_ascii_of_string. }
  destruct (lookup_lt_is_Some_2 grid 0) as [row0 Hrow0]; [lia|].
  rewrite Hrow0. cbn [mbind option_bind].
  assert (length row0 = w) as ->.
  { rewrite Forall_forall in Hgw. apply Hgw. by eapply list_elem_of_lookup_2. }
  rewrite Hgrid.
  assert (forall x, (x < w)%nat -> exists col,
            mapM (fun y => row ← grid !! y; row !! x) (reverse (seq 0 h)) = Some col /\
            length col = h /\
            forall k, (k < h)%nat -> col !! k = char_at shape (h - 1 - k) x) as Hcolumn.
  { intros x Hx. destruct (rotate_column grid x) as (col & Hcol & Hlen & Hk).
    - eapply Forall_impl; [exact Hgw|]. intros row Hrow. cbn in *. lia.
    - rewrite Hgrid in *. exists col. split; [done|]. split; [done|].
      intros k Hk'. rewrite Hk by done. apply char_at_grid. }
  destruct (mapM_is_Some_2
    (fun x => string_of_list_ascii <$>
       mapM (fun y => row ← grid !! y; row !! x) (reverse (seq 0 h)))
    (seq 0 w)) as [result Hresult].
  { apply Forall_forall. intros x Hx%elem_of_seq. cbn.
    destruct (Hcolumn x) as (col & -> & _); [lia|]. by eexists. }
  exists result. split; [done|].
  pose proof (length_mapM _ _ _ Hresult) as Hlen. rewrite length_seq in Hlen.
  apply mapM_Some_1 in Hresult.
  assert (forall x, (x < w)%nat -> exists col,
            result !! x = Some (string_of_list_ascii col) /\ length col = h /\
            forall k, (k < h)%nat -> col !! k = char_at shape (h - 1 - k) x) as Hrow.
  { intros x Hx.
    assert (seq 0 w !! x = Some x) as Hidx by (by rewrite lookup_seq_lt).
    destruct (Forall2_lookup_l _ _ _ _ _ Hresult Hidx) as (row & Hrow & Hf).
    destruct (Hcolumn x Hx) as (col & Hcol & Hcl & Hck).
    rewrite Hcol in Hf. cbn in Hf. injection Hf as <-. eauto. }
  split; [split; [done|]|].
  - apply Forall_lookup. intros x row Hx.
    destruct (Hrow x) as (col & Hr & Hcl & _).
    { apply lookup_lt_Some in Hx. lia. }
    rewrite Hr in Hx. injection Hx as <-.
    by rewrite <- length_list_ascii_of_string, list_ascii_of_string_of_list_ascii.
  - intros x k Hx Hk. destruct (Hrow x Hx) as (col & Hr & _ & Hck).
    unfold char_at at 1. rewrite Hr. cbn [mbind option_bind].
    rewrite list_ascii_of_string_of_list_ascii. by apply Hck.
Qed.

Lemma rectangular_ext (a b : Shape) (h w : nat) :
  rectangular a h w -> rectangular b h w ->
  (forall y x, (y < h)%nat -> (x < w)%nat -> char_at a y x = char_at b y x) ->
  a = b.
Proof.
  intros [Hah Haw] [Hbh Hbw] Hchars.
  apply (list_eq_same_length _ _ h); [done..|].
  intros y ra rb Hy Hra Hrb.
  rewrite Forall_forall in Haw, Hbw.
  assert (String.length ra = w) as Hla by (apply Haw; by eapply list_elem_of_lookup_2).
  assert (String.length rb = w) as Hlb by (apply Hbw; by eapply list_elem_of_lookup_2).
  rewrite <- (string_of_list_ascii_of_string ra), <- (string_of_list_ascii_of_string rb).
  f_equal. apply (list_eq_same_length _ _ w);
    [by rewrite length_list_ascii_of_string..|].
  intros x ca cb Hx Hca Hcb. specialize (Hchars y x Hy Hx).
  unfold char_at in Hchars. rewrite Hra, Hrb in Hchars. cbn in Hchars.
  rewrite Hca, Hcb in Hchars. by injection Hchars.
Qed.

Lemma occupied_char_at (shape : Shape) (j i : Z) :
  occupied shape j i <->
  0 <= i /\ 0 <= j /\ char_at shape (Z.to_nat i) (Z.to_nat j) = Some "1"%char.
Proof.
  unfold occupied, char_at. split.
  - intros (Hi & Hj & row & -> & Hc). done.
  - intros (Hi & Hj & Hc). split; [done|]. split; [done|].
    destruct (shape !! Z.to_nat i) as [row|]; [|done]. eauto.
Qed.

(** X1. On a shape of [h >= 1] rows that all have [w] characters, [rotate]
    returns a shape of [w] rows of [h] characters, turned a quarter clockwise:
    it has a cell in column [j] of row [i] exactly when the shape has one in
    column [i] of row [h - 1 - j]. *)
Theorem rotate_shape_quarter_turn (shape : Shape) (h w : nat)
    (Hrect : rectangular shape h w) (Hrows : (0 < h)%nat) :
  exists turned_shape,
    rotate_shape shape = Some turned_shape /\
    rectangular turned_shape w h /\
    forall j i, 0 <= j < Z.of_nat h -> 0 <= i < Z.of_nat w ->
      (occupied turned_shape j i <-> occupied shape i (Z.of_nat h - 1 - j)).
Proof.
  destruct (rotate_shape_rect shape h w Hrect Hrows) as (sh' & Hrot & Hrect' & Hchar).
  exists sh'. split; [done|]. split; [done|]. intros j i Hj Hi.
  rewrite !occupied_char_at. rewrite Hchar by lia.
  replace (Z.to_nat (Z.of_nat h - 1 - j)) with (h - 1 - Z.to_nat j)%nat by lia.
  split; intros (? & ? & ?); (split; [lia|split; [lia|done]]).
Qed.

Lemma rotate_shape_quarter_turn_witness :
  exists turned_shape,
    rotate_shape ["100"; "111"; "000"]%string = Some turned_shape /\
    rectangular turned_shape 3 3.
Proof.
  destruct (rotate_shape_quarter_turn ["100"; "111"; "000"]%string 3 3)
    as (sh' & Hrot & Hrect & _).
  - split; [reflexivity|]. repeat constructor.
  - lia.
  - exists sh'. split; [exact Hrot | exact Hrect].
Defined.

(** X2. Four calls of [rotate] in a row on a shape of [h >= 1] rows that all
    have [w >= 1] characters succeed and give the shape back. *)
Theorem rotate_shape_four_times (shape : Shape) (h w : nat)
    (Hrect : rectangular shape h w) (Hrows : (0 < h)%nat) (Hcols : (0 < w)%nat) :
  exists s1 s2 s3,
    rotate_shape shape = Some s1 /\ rotate_shape s1 = Some s2 /\
    rotate_shape s2 = Some s3 /\ rotate_shape s3 = Some shape.
Proof.
  destruct (rotate_shape_rect shape h w Hrect Hrows) as (s1 & H1 & R1 & C1).
  destruct (rotate_shape_rect s1 w h R1 Hcols) as (s2 & H2 & R2 & C2).
  destruct (rotate_shape_rect s2 h w R2 Hrows) as (s3 & H3 & R3 & C3).
  destruct (rotate_shape_rect s3 w h R3 Hcols) as (s4 & H4 & R4 & C4).
  exists s1, s2, s3. split; [done|]. split; [done|]. split; [done|].
  rewrite H4. f_equal. apply (rectangular_ext _ _ h w); [done..|].
  intros y x Hy Hx.
  rewrite C4, C3, C2, C1 by lia. f_equal; lia.
Qed.

Lemma rotate_shape_four_times_witness :
  exists s1 s2 s3,
    rotate_shape ["0000"; "1111"; "0000"; "0000"]%string = Some s1 /\
    rotate_shape s1 = Some s2 /\ rotate_shape s2 = Some s3 /\
    rotate_shape s3 = Some ["0000"; "1111"; "0000"; "0000"]%string.
Proof.
  apply (rotate_shape_four_times _ 4 4).
  - split; [reflexivity|]. repeat constructor.
  - lia.
  - lia.
Defined.

(** X3. [rotate] raises exactly on an empty shape and on a shape with a row
    shorter than its first row; rows longer than the first are read up to the
    width of the first. *)
Theorem rotate_shape_raises (shape : Shape) :
  rotate_shape shape = None <->
  shape = [] \/
  exists row0 row, shape !! 0%nat = Some row0 /\ row ∈ shape /\
                   (String.length row < String.length row0)%nat.
Proof.
  unfold rotate_shape. cbv zeta. rewrite list_lookup_fmap.
  destruct shape as [|row0 rest]; [cbn; split; [by left|done]|].
  set (shape := row0 :: rest).
  assert (shape !! 0%nat = Some row0) as Hfirst by done. rewrite Hfirst.
  cbn [fmap option_fmap option_map mbind option_bind].
  rewrite mapM_None. rewrite length_list_ascii_of_string, length_fmap.
  split.
  - intros Hex. right. exists row0.
    apply Exists_exists in Hex as (x & Hx%elem_of_seq & Hnone).
    destruct (mapM _ (reverse _)) as [col|] eqn:Hcol; [done|].
    apply mapM_None_1, Exists_exists in Hcol
      as (y & Hy%elem_of_reverse%elem_of_seq & Hyx).
    rewrite list_lookup_fmap in Hyx.
    destruct (lookup_lt_is_Some_2 shape y) as [row Hrow]; [lia|].
    rewrite Hrow in Hyx. cbn in Hyx. apply lookup_ge_None in Hyx.
    rewrite length_list_ascii_of_string in Hyx.
    exists row. split; [done|]. split; [by eapply list_elem_of_lookup_2|lia].
  - intros [Hnil|(r0 & row & [= <-] & Hin & Hshort)]; [done|].
    apply list_elem_of_lookup_1 in Hin as [y Hy].
    apply Exists_exists. exists (String.length row). split.
    + apply elem_of_seq. lia.
    + rewrite (mapM_None_2 _ (reverse _)); [done|].
      apply Exists_exists. exists y. split.
      * apply elem_of_reverse, elem_of_seq. apply lookup_lt_Some in Hy. lia.
      * rewrite list_lookup_fmap, Hy. cbn. apply lookup_ge_None.
        by rewrite length_list_ascii_of_string.
Qed.

(** X4. The rotation tables follow [rotate]: in every family each state is
    [rotate] of the state before it; for J, L, T and O [rotate] of the last
    state is the first state again, whereas the tables of I, S and Z stop
    after two of their four turns and do not close up. *)
Theorem rotation_tables_follow_rotate (key : PieceKey) :
  (forall i sh sh', TETROMINOES key !! i = Some sh ->
     TETROMINOES key !! S i = Some sh' -> rotate_shape sh = Some sh') /\
  (key ∈ [KeyJ; KeyL; KeyT; KeyO] ->
     (last (TETROMINOES key) ≫= rotate_shape) = TETROMINOES key !! 0%nat) /\
  (key ∈ [KeyI; KeyS; KeyZ] ->
     (last (TETROMINOES key) ≫= rotate_shape) <> TETROMINOES key !! 0%nat).
Proof.
  split; [|split].
  - intros i sh sh'.
    destruct key; do 4 (destruct i as [|i]; [by intros [= <-] [= <-]|]); done.
  - intros Hk. repeat (apply elem_of_cons in Hk as [->|Hk]; [reflexivity|]).
    by apply elem_of_nil in Hk.
  - intros Hk. repeat (apply elem_of_cons in Hk as [->|Hk]; [by vm_compute|]).
    by apply elem_of_nil in Hk.
Qed.

(** ** Cells, grid and validity *)

Lemma flat_map_fmap {A B C} (g : B -> C) (f : A -> list B) (l : list A) :
  g <$> flat_map f l = flat_map (fun a => g <$> f a) l.
Proof.
  induction l as [|a l IH]; [done|]. cbn [flat_map]. by rewrite fmap_app, IH.
Qed.

(** X5. [shape_cells] commutes with translation: the cells of a shape at the
    offset moved by [(dx, dy)] are its cells at the offset, each moved by
    [(dx, dy)], in the same order. *)
Theorem shape_cells_translate (shape : Shape) (ox oy dx dy : Z) :
  shape_cells shape (ox + dx) (oy + dy) =
  (fun c => (c.1 + dx, c.2 + dy)) <$> shape_cells shape ox oy.
Proof.
  unfold shape_cells. rewrite flat_map_fmap.
  apply flat_map_ext. intros [y row]. rewrite flat_map_fmap.
  apply flat_map_ext. intros [x ch].
  destruct (Ascii.eqb ch "1"); [|done]. cbn. do 2 f_equal; lia.
Qed.

(** X6. [make_grid] returns [ROWS] rows of [COLUMNS] entries in which the
    entry of row [y], column [x] is [locked.get((x, y))]: the keys outside the
    well do not show, and the order of the dictionary does not matter. *)
Theorem make_grid_table (locked : gmap (Z * Z) Color) :
  make_grid locked =
  (fun y => (fun x => locked !! (x, y)) <$> seqZ 0 COLUMNS) <$> seqZ 0 ROWS.
Proof.
  destruct (make_grid_spec locked) as (Hlen & Hrows & Hcells).
  apply (list_eq_same_length _ _ (Z.to_nat ROWS));
    [done || by rewrite length_fmap, length_seqZ..|].
  intros i r1 r2 Hi Hr1 Hr2.
  rewrite list_lookup_fmap, lookup_seqZ_lt in Hr2 by lia.
  apply fmap_Some in Hr2 as (y & [= <-] & ->).
  rewrite Forall_forall in Hrows.
  apply (list_eq_same_length _ _ (Z.to_nat COLUMNS));
    [(by rewrite length_fmap, length_seqZ)
     || (apply Hrows; by eapply list_elem_of_lookup_2)..|].
  intros j c1 c2 Hj Hc1 Hc2.
  rewrite list_lookup_fmap, lookup_seqZ_lt in Hc2 by lia.
  apply fmap_Some in Hc2 as (x & [= <-] & ->).
  rewrite !Z.add_0_l. rewrite <- Hcells by (unfold in_well; lia).
  unfold grid_cell. rewrite !Nat2Z.id. by rewrite Hr1, Hc1.
Qed.

(** X7. [valid_space] can only be lost by adding keys: a position valid for a
    dictionary is valid for every dictionary with fewer keys, the empty one
    included. *)
Theorem valid_space_fewer_keys (shape : Shape) (offset_x offset_y : Z)
    (locked locked' : gmap (Z * Z) Color)
    (Hsub : locked ⊆ locked')
    (Hvalid : valid_space shape offset_x offset_y locked' = true) :
  valid_space shape offset_x offset_y locked = true /\
  valid_space shape offset_x offset_y ∅ = true.
Proof.
  unfold valid_space in *. rewrite valid_cells_true in Hvalid.
  split; apply valid_cells_true; intros x y Hin;
    destruct (Hvalid x y Hin) as (Hx & Hy & Hfree);
    (split; [done|split; [done|]]); intros Hrow.
  - by eapply lookup_weaken_None; [apply Hfree|].
  - apply lookup_empty.
Qed.

Lemma valid_space_fewer_keys_witness :
  valid_space ["11"; "11"]%string 2 18 ∅ = true.
Proof.
  apply (valid_space_fewer_keys ["11"; "11"]%string 2 18 ∅ stacked_locked).
  - apply map_empty_subseteq.
  - vm_compute. reflexivity.
Defined.

(** ** After a clear *)

Lemma cleared_leaves_no_full_row (locked : gmap (Z * Z) Color) (y' : Z) :
  ~ full_row (clear_lines (make_grid locked) locked).2 y'.
Proof.
  intros [Hy' Hall].
  destruct (clear_lines_shifted locked) as (_ & _ & Hhigh & _).
  pose proof (cleared_rows_NoDup locked) as Hnd.
  set (cleared := List.filter (full_rowb locked) (seqZ 0 ROWS)) in *.
  assert (forall x, 0 <= x < COLUMNS -> exists y c,
            -1 < y /\ (y ∉ cleared) /\ y' = y + shift_of cleared y /\
            locked !! (x, y) = Some c) as Hsrc.
  { intros x Hx. destruct (Hall x Hx) as [c Hc].
    apply Hhigh in Hc as (y & ? & ? & ? & ?); [|done|lia]. eauto 6. }
  destruct (Hsrc 0) as (y0 & c0 & Hy0 & Hn0 & Heq0 & _); [unfold COLUMNS; lia|].
  apply Hn0, elem_of_cleared_rows. split.
  { pose proof (shift_of_nonneg cleared y0). lia. }
  intros x Hx. destruct (Hsrc x Hx) as (y & c & Hy & Hn & Heq & Hc).
  assert (y = y0) as ->; [|eauto].
  destruct (Z.lt_trichotomy y y0) as [Hlt|[->|Hgt]]; [|done|].
  - pose proof (shift_of_strict cleared y y0 Hnd Hn0 Hlt). lia.
  - pose proof (shift_of_strict cleared y0 y Hnd Hn). lia.
Qed.

(** X8. After [clear_lines] no row of the well is full, whatever the
    dictionary was, so that a second call returns 0 and changes nothing; and
    the number returned lies between 0 and [ROWS]. *)
Theorem clear_lines_leaves_no_full_row (locked : gmap (Z * Z) Color) :
  let after := (clear_lines (make_grid locked) locked).2 in
  (forall y, ~ full_row after y) /\
  clear_lines (make_grid after) after = (0, after) /\
  0 <= (clear_lines (make_grid locked) locked).1 <= ROWS.
Proof.
  cbv zeta. split; [apply cleared_leaves_no_full_row|]. split.
  - set (after := (clear_lines (make_grid locked) locked).2).
    unfold clear_lines at 1. rewrite lines_to_clear_make_grid.
    destruct (List.filter (full_rowb after) (seqZ 0 ROWS)) as [|first others] eqn:HL;
      [done|].
    destruct (cleared_leaves_no_full_row locked first).
    apply elem_of_cleared_rows. fold after. rewrite HL. by left.
  - destruct (clear_lines_shifted locked) as [-> _]. unfold full_rows.
    pose proof (List.filter_length_le (full_rowb locked) (seqZ 0 ROWS)) as Hle.
    rewrite length_seqZ in Hle. unfold ROWS in *. lia.
Qed.

(** ** What a lock adds and clears *)

Lemma forallb_false_elem {A} (f : A -> bool) (l : list A) :
  forallb f l = false -> exists a, a ∈ l /\ f a = false.
Proof.
  induction l as [|a l IH]; [done|]. cbn [forallb].
  destruct (f a) eqn:Hf.
  - intros H. destruct (IH H) as (b & Hb & Hfb). exists b. split; [by right|done].
  - intros _. exists a. split; [by left|done].
Qed.

Lemma merge_lookup (s : Tetris.t) (k : Z * Z) :
  (merged_by_lock s).1 !! k =
  if decide (k ∈ current_cells s /\ 0 <= k.2)
  then Some (Piece.color (Tetris.current s)) else Tetris.locked s !! k.
Proof. unfold merged_by_lock. apply merge_spec. Qed.

(** X9. A lock never overwrites: when the current piece is at a position that
    [valid_space] accepts, every key of [locked] is still there with its color
    after the first loop of [lock_piece], and the keys added are exactly the
    cells of the piece at rows that are not negative. *)
Theorem lock_piece_only_adds (s : Tetris.t)
    (Hvalid : Piece.fits (Tetris.current s) 0 0 (Tetris.locked s) = true) :
  Tetris.locked s ⊆ (merged_by_lock s).1 /\
  forall k, is_Some ((merged_by_lock s).1 !! k) <->
    is_Some (Tetris.locked s !! k) \/ (k ∈ current_cells s /\ 0 <= k.2).
Proof.
  assert (forall x y, (x, y) ∈ current_cells s -> 0 <= y ->
            Tetris.locked s !! (x, y) = None) as Hfree.
  { unfold Piece.fits, valid_space in Hvalid. rewrite !Z.add_0_r in Hvalid.
    rewrite valid_cells_true in Hvalid. intros x y Hin Hy.
    by apply (Hvalid x y Hin). }
  split.
  - apply map_subseteq_spec. intros [x y] c Hc. rewrite merge_lookup.
    rewrite decide_False; [done|]. intros [Hin Hy].
    rewrite (Hfree x y Hin Hy) in Hc. done.
  - intros k. rewrite merge_lookup.
    destruct (decide (k ∈ current_cells s /\ 0 <= k.2)) as [Hk|Hk].
    + split; [by right|by eexists].
    + split; [by left|]. by intros [?|?].
Qed.

(** The lock of [four_rows_state] writes the four cells of column 5 at rows
    16 to 19, which were free, and keeps the 36 keys that were there. *)
Lemma lock_piece_only_adds_witness :
  Tetris.locked four_rows_state ⊆ (merged_by_lock four_rows_state).1 /\
  Tetris.locked four_rows_state !! (5, 16) = None /\
  is_Some ((merged_by_lock four_rows_state).1 !! (5, 16)) /\
  (merged_by_lock four_rows_state).1 !! (4, 16) = Some (240, 160, 0).
Proof.
  destruct (lock_piece_only_adds four_rows_state) as [Hsub Hkeys];
    [vm_compute; reflexivity|].
  split; [exact Hsub|]. split; [vm_compute; reflexivity|]. split.
  - apply Hkeys. right. split; [|cbn; lia].
    unfold current_cells. apply elem_of_shape_cells.
    split; [cbn; lia|]. split; [cbn; lia|]. eexists. split; reflexivity.
  - eapply lookup_weaken; [|exact Hsub]. vm_compute. reflexivity.
Defined.

Lemma family_shapes_height (key : PieceKey) (sh : Shape) :
  sh ∈ TETROMINOES key -> (length sh <= 4)%nat.
Proof.
  intros Hsh. destruct key; cbn in Hsh;
    repeat (apply elem_of_cons in Hsh as [->|Hsh]; [cbn; lia|]);
    by apply elem_of_nil in Hsh.
Qed.

Lemma occupied_row_bound (shape : Shape) (j i : Z) :
  occupied shape j i -> 0 <= i < Z.of_nat (length shape).
Proof.
  intros (Hi & _ & row & Hrow & _). apply lookup_lt_Some in Hrow. lia.
Qed.

Lemma score_table_entries (n : Z) :
  1 <= n <= 4 -> is_Some (Tetris.score_table !! n).
Proof.
  intros Hn. assert (n = 1 \/ n = 2 \/ n = 3 \/ n = 4) as Hcases by lia.
  destruct Hcases as [Hc|[Hc|[Hc|Hc]]]; rewrite Hc; by eexists.
Qed.

(** X10. A lock clears at most four rows when no row of the well was full
    before it and the current piece is of one of the seven families: every
    row that is full once the piece is merged holds a cell of the piece. The
    count returned is then 0 or a key of the score table. *)
Theorem lock_clears_at_most_four (s : Tetris.t)
    (Hnofull : forall y, ~ full_row (Tetris.locked s) y)
    (Htable : Piece.rotations (Tetris.current s) =
              TETROMINOES (Piece.type (Tetris.current s)))
    (Hok : piece_ok (Tetris.current s)) :
  (forall y, full_row (merged_by_lock s).1 y ->
     exists j i, occupied (Piece.shape (Tetris.current s)) j i /\
                 y = Piece.y (Tetris.current s) + i) /\
  0 <= cleared_by_lock s <= 4 /\
  (1 <= cleared_by_lock s -> is_Some (Tetris.score_table !! cleared_by_lock s)).
Proof.
  assert (forall y, full_row (merged_by_lock s).1 y ->
            exists j i, occupied (Piece.shape (Tetris.current s)) j i /\
                        y = Piece.y (Tetris.current s) + i) as Hrows.
  { intros y [Hy Hall].
    assert (full_rowb (Tetris.locked s) y = false) as Hb.
    { destruct (full_rowb (Tetris.locked s) y) eqn:Hb; [|done].
      by apply full_rowb_spec, Hnofull in Hb. }
    unfold full_rowb in Hb.
    destruct (Z.leb_spec 0 y); [|lia]. destruct (Z.ltb_spec y ROWS); [|lia].
    rewrite andb_true_l in Hb.
    apply forallb_false_elem in Hb as (x & Hx%elem_of_seqZ & Hfree).
    apply bool_decide_eq_false in Hfree.
    destruct (Hall x) as [c Hc]; [lia|]. rewrite merge_lookup in Hc.
    destruct (decide _) as [[Hin _]|_]; [|destruct Hfree; eauto].
    apply elem_of_shape_cells in Hin. cbn [fst snd] in Hin.
    eexists _, _. split; [exact Hin|]. lia. }
  split; [exact Hrows|].
  assert (0 <= cleared_by_lock s <= 4) as Hn; [|split; [done|]].
  - unfold cleared_by_lock.
    destruct (clear_lines_shifted (merged_by_lock s).1) as [-> _].
    unfold full_rows. split; [lia|].
    assert (Z.of_nat (length (List.filter (full_rowb (merged_by_lock s).1)
                                (seqZ 0 ROWS)))
            <= Z.max 0 (Piece.y (Tetris.current s) + 4
                        - Piece.y (Tetris.current s))) as Hb; [|lia].
    apply NoDup_bounded_length; [apply cleared_rows_NoDup|].
    intros y Hy%elem_of_cleared_rows.
    destruct (Hrows y Hy) as (j & i & Hocc & ->).
    pose proof (occupied_row_bound _ _ _ Hocc) as Hi.
    assert (length (Piece.shape (Tetris.current s)) <= 4)%nat.
    { apply (family_shapes_height (Piece.type (Tetris.current s))).
      rewrite <- Htable. destruct Hok as [_ Hshape].
      by eapply list_elem_of_lookup_2. }
    lia.
  - intros Hpos. apply score_table_entries. lia.
Qed.

(** The lock of [four_rows_state] completes the rows 16 to 19, the four
    rows of the upright I piece: the count is 4, a key of the table. *)
Lemma lock_clears_at_most_four_witness :
  cleared_by_lock four_rows_state = 4 /\
  (forall y, full_row (merged_by_lock four_rows_state).1 y ->
     exists j i, occupied (Piece.shape (Tetris.current four_rows_state)) j i /\
                 y = Piece.y (Tetris.current four_rows_state) + i) /\
  0 <= cleared_by_lock four_rows_state <= 4 /\
  is_Some (Tetris.score_table !! cleared_by_lock four_rows_state).
Proof.
  destruct (lock_clears_at_most_four four_rows_state)
    as (Hrows & Hbound & Htable).
  - intros y Hfull%full_rowb_spec. revert Hfull.
    assert (forallb (fun y => negb (full_rowb (Tetris.locked four_rows_state) y))
              (seqZ 0 ROWS) = true) as Hall by (vm_compute; reflexivity).
    rewrite forallb_forall in Hall. intros Hfull.
    assert (In y (seqZ 0 ROWS)) as Hin.
    { apply list_elem_of_In, elem_of_seqZ.
      unfold full_rowb in Hfull. apply andb_true_iff in Hfull as [Hr _].
      apply andb_true_iff in Hr as [?%Z.leb_le ?%Z.ltb_lt]. lia. }
    specialize (Hall y Hin). rewrite Hfull in Hall. discriminate.
  - reflexivity.
  - split; [cbn; lia | reflexivity].
  - assert (cleared_by_lock four_rows_state = 4) as Hn
      by (vm_compute; reflexivity).
    split; [exact Hn|]. split; [exact Hrows|]. split; [exact Hbound|].
    apply Htable. rewrite Hn. lia.
Defined.

(** ** What a rotation keeps *)

Lemma first_kick_in (sh : Shape) (px py : Z) (locked : gmap (Z * Z) Color)
    (offsets : list Z) (dx : Z) :
  Piece.first_kick sh px py locked offsets = Some dx -> dx ∈ offsets.
Proof.
  induction offsets as [|d offsets IH]; cbn [Piece.first_kick]; [done|].
  destruct (valid_space sh (px + d) py locked).
  - intros [= <-]. by left.
  - intros H. right. by apply IH.
Qed.

(** What a rotation of [p] that gives [q] and reports [b] leaves. *)
Lemma settle_post (p : Piece.t) (locked : gmap (Z * Z) Color) (r : Z) :
  piece_ok p -> 0 <= r < Z.of_nat (length (Piece.rotations p)) ->
  exists q b,
    Piece.settle p (Piece.rotation p) r locked = Some (q, b) /\
    (Piece.type q, Piece.rotations q, Piece.color q, Piece.y q) =
      (Piece.type p, Piece.rotations p, Piece.color p, Piece.y p) /\
    -2 <= Piece.x q - Piece.x p <= 2 /\
    piece_ok q /\
    (b = true -> Piece.rotation q = r /\ Piece.fits q 0 0 locked = true) /\
    (b = false -> q = p).
Proof.
  intros [Hrot Hshape] Hr. unfold Piece.settle.
  rewrite (getitem_nonneg _ r) by lia.
  destruct (Piece.rotations p !! Z.to_nat r) as [sh|] eqn:Hsh.
  2:{ apply lookup_ge_None in Hsh. lia. }
  cbn [mbind option_bind].
  destruct (valid_space sh (Piece.x p) (Piece.y p) locked) eqn:Hv; cbn [negb].
  - eexists _, _. split; [done|]. cbn. split; [done|]. split; [lia|].
    split; [by apply turned_ok|]. split; [|done]. intros _. split; [done|].
    unfold Piece.fits. cbn. by rewrite !Z.add_0_r.
  - destruct (Piece.first_kick _ _ _ _ _) as [dx|] eqn:Hk.
    + eexists _, _. split; [done|]. cbn. split; [done|].
      pose proof (first_kick_valid _ _ _ _ _ _ Hk) as Hdx.
      apply first_kick_in in Hk.
      split.
      { repeat (apply elem_of_cons in Hk as [->|Hk]; [lia|]).
        by apply elem_of_nil in Hk. }
      split; [by apply (turned_ok p r sh)|]. split; [|done]. intros _.
      split; [done|]. unfold Piece.fits. cbn. by rewrite !Z.add_0_r.
    + rewrite getitem_nonneg by lia. rewrite Hshape. cbn [mbind option_bind].
      eexists _, _. split; [done|]. cbn. split; [done|]. split; [lia|].
      split; [done|]. split; [done|]. intros _. by destruct p.
Qed.

(** X11. On a piece as the class keeps it, [rotate] and [rotate_ccw] never
    raise and never change the family, the table, the color or the row of the
    piece; the column changes by at most two; a call that reports success
    leaves the piece at a position that [valid_space] accepts, whether or not
    it was at one before, and a call that reports failure leaves the piece
    as it was. *)
Theorem rotation_postcondition (p : Piece.t) (locked : gmap (Z * Z) Color)
    (Hok : piece_ok p) :
  forall res, res = Piece.rotate p locked \/ res = Piece.rotate_ccw p locked ->
  exists q b,
    res = Some (q, b) /\
    (Piece.type q, Piece.rotations q, Piece.color q, Piece.y q) =
      (Piece.type p, Piece.rotations p, Piece.color p, Piece.y p) /\
    -2 <= Piece.x q - Piece.x p <= 2 /\
    piece_ok q /\
    (b = true -> Piece.fits q 0 0 locked = true) /\
    (b = false -> q = p).
Proof.
  intros res Hres. pose proof Hok as [Hrot _].
  assert (exists r, 0 <= r < Z.of_nat (length (Piece.rotations p)) /\
            res = Piece.settle p (Piece.rotation p) r locked) as (r & Hr & ->).
  { destruct Hres as [-> | ->]; unfold Piece.rotate, Piece.rotate_ccw, py_mod;
      (destruct (Z.eqb_spec (Z.of_nat (length (Piece.rotations p))) 0); [lia|]);
      cbn [mbind option_bind]; eexists; (split; [|reflexivity]);
      apply Z.mod_pos_bound; lia. }
  destruct (settle_post p locked r Hok Hr) as (q & b & Hs & Hsame & Hx & Hq & Ht & Hf).
  exists q, b. split; [done|]. split; [done|]. split; [done|]. split; [done|].
  split; [|done]. intros Hb. by apply Ht.
Qed.

Lemma rotation_postcondition_witness :
  exists q b, Piece.rotate piece_T_midfield stacked_locked = Some (q, b) /\
              -2 <= Piece.x q - 4 <= 2.
Proof.
  destruct (rotation_postcondition piece_T_midfield stacked_locked)
    with (res := Piece.rotate piece_T_midfield stacked_locked)
    as (q & b & Hres & _ & Hx & _).
  - split; [cbn; lia | reflexivity].
  - left. reflexivity.
  - exists q, b. split; [exact Hres | exact Hx].
Defined.

(** ** Clockwise and back *)

Lemma rotate_ccw_open (p : Piece.t) (locked : gmap (Z * Z) Color) :
  piece_ok p ->
  (forall sh, sh ∈ Piece.rotations p ->
     valid_space sh (Piece.x p) (Piece.y p) locked = true) ->
  exists sh,
    Piece.rotations p !!
      Z.to_nat ((Piece.rotation p - 1) mod Z.of_nat (length (Piece.rotations p)))
      = Some sh /\
    Piece.rotate_ccw p locked =
      Some (turned p ((Piece.rotation p - 1) mod Z.of_nat (length (Piece.rotations p)))
              sh (Piece.x p), true).
Proof.
  intros Hok Hopen.
  destruct (rotate_ccw_outcome p locked Hok) as (sh & Hsh & Hvalid & _).
  exists sh. split; [done|]. apply Hvalid, Hopen.
  by eapply list_elem_of_lookup_2.
Qed.

(** X12. In a field where every pattern of the piece is valid at its anchor,
    [rotate_ccw] undoes [rotate] and [rotate] undoes [rotate_ccw]: each pair
    of calls succeeds and gives the piece back, whatever the number of states
    of its family. *)
Theorem rotate_and_back (p : Piece.t) (locked : gmap (Z * Z) Color)
    (Hok : piece_ok p)
    (Hopen : forall sh, sh ∈ Piece.rotations p ->
               valid_space sh (Piece.x p) (Piece.y p) locked = true) :
  exists q q',
    Piece.rotate p locked = Some (q, true) /\
    Piece.rotate_ccw q locked = Some (p, true) /\
    Piece.rotate_ccw p locked = Some (q', true) /\
    Piece.rotate q' locked = Some (p, true).
Proof.
  pose proof Hok as [Hrot Hshape].
  set (n := Z.of_nat (length (Piece.rotations p))) in *.
  destruct (rotate_open p locked Hok Hopen) as (sh1 & Hsh1 & Hr1).
  destruct (rotate_ccw_open p locked Hok Hopen) as (sh2 & Hsh2 & Hr2).
  fold n in Hsh1, Hr1, Hsh2, Hr2.
  assert (0 <= (Piece.rotation p + 1) mod n < n) as Hb1 by (apply Z.mod_pos_bound; lia).
  assert (0 <= (Piece.rotation p - 1) mod n < n) as Hb2 by (apply Z.mod_pos_bound; lia).
  set (q := turned p ((Piece.rotation p + 1) mod n) sh1 (Piece.x p)) in *.
  set (q' := turned p ((Piece.rotation p - 1) mod n) sh2 (Piece.x p)) in *.
  assert (piece_ok q) as Hokq by (by apply turned_ok).
  assert (piece_ok q') as Hokq' by (by apply turned_ok).
  destruct (rotate_ccw_open q locked Hokq Hopen) as (sh3 & Hsh3 & Hr3).
  destruct (rotate_open q' locked Hokq' Hopen) as (sh4 & Hsh4 & Hr4).
  cbn [q q' turned Piece.rotations Piece.rotation Piece.x] in Hsh3, Hr3, Hsh4, Hr4.
  fold n in Hsh3, Hr3, Hsh4, Hr4.
  assert (((Piece.rotation p + 1) mod n - 1) mod n = Piece.rotation p) as Hback1.
  { rewrite Zminus_mod_idemp_l.
    replace (Piece.rotation p + 1 - 1) with (Piece.rotation p) by lia.
    apply Z.mod_small. lia. }
  assert (((Piece.rotation p - 1) mod n + 1) mod n = Piece.rotation p) as Hback2.
  { rewrite Zplus_mod_idemp_l.
    replace (Piece.rotation p - 1 + 1) with (Piece.rotation p) by lia.
    apply Z.mod_small. lia. }
  rewrite Hback1 in Hsh3, Hr3. rewrite Hback2 in Hsh4, Hr4.
  rewrite Hshape in Hsh3, Hsh4. injection Hsh3 as <-. injection Hsh4 as <-.
  exists q, q'. split; [done|]. split; [|split; [done|]].
  - rewrite Hr3. do 2 f_equal. unfold turned. cbn. by destruct p.
  - rewrite Hr4. do 2 f_equal. unfold turned. cbn. by destruct p.
Qed.

Lemma rotate_and_back_witness :
  exists q q',
    Piece.rotate piece_I_spawned ∅ = Some (q, true) /\
    Piece.rotate_ccw q ∅ = Some (piece_I_spawned, true) /\
    Piece.rotate_ccw piece_I_spawned ∅ = Some (q', true) /\
    Piece.rotate q' ∅ = Some (piece_I_spawned, true).
Proof.
  apply (rotate_and_back piece_I_spawned ∅).
  - split; [cbn; lia | reflexivity].
  - intros sh Hsh. cbn in Hsh.
    repeat (apply elem_of_cons in Hsh as [->|Hsh]; [vm_compute; reflexivity|]).
    by apply elem_of_nil in Hsh.
Defined.

(** ** The figures of a game *)

Lemma score_table_nonneg (n : Z) : 0 <= default 0 (Tetris.score_table !! n).
Proof.
  unfold Tetris.score_table.
  destruct (decide (n = 1)) as [->|H1]; [by rewrite lookup_insert_eq|].
  rewrite lookup_insert_ne by done.
  destruct (decide (n = 2)) as [->|H2]; [by rewrite lookup_insert_eq|].
  rewrite lookup_insert_ne by done.
  destruct (decide (n = 3)) as [->|H3]; [by rewrite lookup_insert_eq|].
  rewrite lookup_insert_ne by done.
  destruct (decide (n = 4)) as [->|H4]; [by rewrite lookup_insert_eq|].
  rewrite lookup_insert_ne by done. by rewrite lookup_empty.
Qed.

Lemma stats_ok_set_current (s : Tetris.t) (p : Piece.t) :
  stats_ok s -> stats_ok (Tetris.set_current s p).
Proof. by destruct s. Qed.

Lemma stats_ok_move (dx dy : Z) (s : Tetris.t) :
  stats_ok s -> stats_ok (Loop.move dx dy s).
Proof.
  intros Hs. unfold Loop.move. destruct (Piece.fits _ _ _ _); [|done].
  by apply stats_ok_set_current.
Qed.

Lemma stats_ok_lock_piece (fresh : Piece.t) (s : Tetris.t) :
  stats_ok s -> Tetris.lock_piece_raises s = false ->
  stats_ok (Tetris.lock_piece fresh s).
Proof.
  intros (_ & Hlines & Hscore & Hlevel & Hspeed) Hraises.
  destruct (lock_piece_fields fresh s) as (Hlocked & _).
  destruct (lock_piece_stats fresh s) as [Hzero Hpos].
  assert (0 <= cleared_by_lock s) as Hn.
  { unfold cleared_by_lock.
    destruct (clear_lines_shifted (merged_by_lock s).1) as [-> _].
    unfold full_rows. lia. }
  split; [rewrite Hlocked; apply cleared_leaves_no_full_row|].
  destruct (decide (cleared_by_lock s = 0)) as [H0|H0].
  - destruct (Hzero H0) as (-> & -> & -> & -> & _). done.
  - destruct (Hpos H0) as (-> & -> & -> & Hnew).
    split; [lia|]. split; [|split; [done|]].
    2:{ revert Hnew.
        destruct (Tetris.speed_of_level
                    ((Tetris.lines s + cleared_by_lock s) / 10 + 1))
          as [speed|].
        - intros Hnew. by destruct Hnew as [-> _].
        - intros Hnew. destruct Hnew as [_ Hr]. by rewrite Hr in Hraises. }
    pose proof (score_table_nonneg (cleared_by_lock s)).
    assert (0 <= Tetris.lines s / 10) by (apply Z.div_pos; lia).
    nia.
Qed.

Lemma stats_ok_reset (first second : Piece.t) :
  stats_ok (Tetris.reset first second).
Proof.
  split; [|split; [done|split; [done|split; [done|by vm_compute]]]].
  intros y [_ Hall]. destruct (Hall 0) as [c Hc]; [unfold COLUMNS; lia|].
  cbn in Hc. by rewrite lookup_empty in Hc.
Qed.

Lemma stats_ok_lock (w w' : Loop.World) :
  stats_ok w.1 -> Loop.lock w = Next w' -> stats_ok w'.1.
Proof.
  destruct w as [s g]. cbn [fst]. intros Hs. unfold Loop.lock.
  destruct (Tetris.lock_piece_raises s) eqn:Hraises; [done|].
  destruct (Loop.new_piece g) as [[first g']| | |]; [|done..].
  unfold mbind, step_bind. intros [= <-]. by apply stats_ok_lock_piece.
Qed.

Lemma stats_ok_on_event (fuel : nat) (e : Event) (w w' : Loop.World) :
  stats_ok w.1 -> Loop.on_event fuel e w = Next w' -> stats_ok w'.1.
Proof.
  intros Hs. destruct e as [|key|]; cbn [Loop.on_event]; [done| |by intros [= <-]].
  destruct w as [s g]. cbn [fst] in Hs.
  destruct key; cbn [Loop.key_down]; try done;
    try (intros [= <-]; first [by apply stats_ok_move | done]).
  - destruct (Piece.rotate _ _) as [[q b]|]; [|done].
    intros [= <-]. by apply stats_ok_set_current.
  - destruct (Piece.rotate _ _) as [[q b]|]; [|done].
    intros [= <-]. by apply stats_ok_set_current.
  - destruct (Piece.rotate_ccw _ _) as [[q b]|]; [|done].
    intros [= <-]. by apply stats_ok_set_current.
  - unfold Loop.hard_drop. destruct (Tetris.drop _ _ _) as [[q n]|]; [|done].
    apply stats_ok_lock. by apply stats_ok_set_current.
Qed.

Lemma stats_ok_on_events (fuel : nat) (events : list Event) (w w' : Loop.World) :
  stats_ok w.1 -> Loop.on_events fuel events w = Next w' -> stats_ok w'.1.
Proof.
  revert w. induction events as [|e events IH]; intros w Hs; cbn [Loop.on_events].
  - by intros [= <-].
  - destruct (Loop.on_event fuel e w) as [w1| | |] eqn:He; [|done..].
    unfold mbind, step_bind. apply IH. by eapply stats_ok_on_event.
Qed.

Lemma stats_ok_frame (fuel : nat) (events : list Event) (due : bool)
    (w w' : Loop.World) :
  stats_ok w.1 -> Loop.frame fuel events due w = Next w' -> stats_ok w'.1.
Proof.
  intros Hs. unfold Loop.frame. destruct (Tetris.game_over w.1).
  - clear due. induction events as [|e events IH]; cbn [Loop.game_over_events].
    + by intros [= <-].
    + destruct e as [|key|]; [done| |exact IH].
      destruct key; try exact IH; [done|].
      destruct (Loop.new_piece w.2) as [[first g1]| | |]; [|done..].
      unfold mbind, step_bind.
      destruct (Loop.new_piece g1) as [[second g2]| | |]; [|done..].
      intros [= <-]. apply stats_ok_reset.
  - destruct (Loop.on_events fuel events w) as [w1| | |] eqn:He; [|done..].
    unfold mbind, step_bind. apply stats_ok_on_events in He; [|done].
    destruct w1 as [s1 g1]. unfold Loop.gravity. destruct due; [|by intros [= <-]].
    destruct (Piece.fits _ 0 1 _).
    + intros [= <-]. by apply stats_ok_move.
    + by apply stats_ok_lock.
Qed.

(** X13. What every session of a game satisfies: from a session that does
    (the one that [reset] makes does), every session that the loop of [run]
    and the loop of [show_game_over] go through has the keys of [locked] in
    the well and no full row, a current piece of one of the seven families at
    a position that [valid_space] accepts, a next piece as [Piece(key)] built
    it, counts of lines and score that are not negative, the level
    [lines // 10 + 1] and the fall interval of that level. *)
Theorem game_invariant (fuel : nat) (frames : list (list Event * bool))
    (w w' : Loop.World)
    (Hstart : game_ok w.1)
    (Hrun : Loop.run fuel frames w = Next w') :
  game_ok w'.1 /\
  forall key1 key2 first second,
    Piece.init key1 = Some first -> Piece.init key2 = Some second ->
    game_ok (Tetris.reset first second).
Proof.
  split.
  - revert w Hstart Hrun.
    induction frames as [|[events due] frames IH]; intros w [Hs Ht]; cbn [Loop.run].
    + intros [= <-]. done.
    + destruct (Loop.frame fuel events due w) as [w1| | |] eqn:Hf; [|done..].
      unfold mbind, step_bind. apply IH. split.
      * by eapply frame_keeps.
      * by eapply stats_ok_frame.
  - intros key1 key2 first second H1 H2. split.
    + by eapply reset_ok.
    + apply stats_ok_reset.
Qed.

Lemma game_invariant_witness : game_ok stacked_state.
Proof.
  apply (game_invariant 30 [stack_frame] world_start (stacked_state, all_O)).
  - split; [exact (reset_ok KeyO KeyO _ _ init_O init_O) | apply stats_ok_reset].
  - vm_compute. reflexivity.
Defined.

(** ** Once the flag is set *)

Lemma game_over_events_waits (events : list Event) (w : Loop.World) :
  QUIT ∉ events -> KEYDOWN K_ESCAPE ∉ events -> KEYDOWN K_r ∉ events ->
  Loop.game_over_events events w = Next w.
Proof.
  induction events as [|e events IH]; [done|].
  intros Hq He Hr. apply not_elem_of_cons in Hq as [Hq1 Hq].
  apply not_elem_of_cons in He as [He1 He]. apply not_elem_of_cons in Hr as [Hr1 Hr].
  cbn [Loop.game_over_events]. destruct e as [|key|]; [done| |by apply IH].
  destruct key; try done; by apply IH.
Qed.

Lemma game_over_events_cases (events : list Event) (w w' : Loop.World) :
  Loop.game_over_events events w = Next w' ->
  w' = w \/
  (KEYDOWN K_r ∈ events /\
   exists key1 key2 first second,
     Piece.init key1 = Some first /\ Piece.init key2 = Some second /\
     w'.1 = Tetris.reset first second).
Proof.
  induction events as [|e events IH]; cbn [Loop.game_over_events].
  - intros [= <-]. by left.
  - destruct e as [|key|]; [done| |].
    + destruct key; try (intros H; destruct (IH H) as [->|(? & ?)];
        [by left|right; split; [by right|done]]); [done|].
      destruct (Loop.new_piece w.2) as [[first g1]| | |] eqn:H1; [|done..].
      unfold mbind, step_bind.
      destruct (Loop.new_piece g1) as [[second g2]| | |] eqn:H2; [|done..].
      intros [= <-]. right. split; [by left|].
      apply new_piece_init in H1 as [k1 H1]. apply new_piece_init in H2 as [k2 H2].
      exists k1, k2, first, second. done.
    + intros H. destruct (IH H) as [->|(? & ?)];
        [by left|right; split; [by right|done]].
Qed.

Lemma game_over_events_skip (pre rest : list Event) (w : Loop.World) :
  QUIT ∉ pre -> KEYDOWN K_ESCAPE ∉ pre -> KEYDOWN K_r ∉ pre ->
  Loop.game_over_events (pre ++ rest) w = Loop.game_over_events rest w.
Proof.
  induction pre as [|e pre IH]; [done|].
  intros Hq He Hr. apply not_elem_of_cons in Hq as [Hq1 Hq].
  apply not_elem_of_cons in He as [He1 He]. apply not_elem_of_cons in Hr as [Hr1 Hr].
  cbn [app Loop.game_over_events]. destruct e as [|key|]; [done| |by apply IH].
  destruct key; try done; by apply IH.
Qed.

Lemma new_piece_draws (g : Rng) :
  exists p, Piece.init (g 0%nat) = Some p /\
            Loop.new_piece g = Next (p, fun n => g (S n)).
Proof.
  unfold Loop.new_piece, random_choice, Tetris.get_new_piece.
  destruct (g 0%nat); by eexists.
Qed.

(** X14. With the flag [game_over] set at the head of a turn, neither the
    events nor the gravity step of the turn change the session: it is left
    exactly as it is, unless [R] is among the events, in which case it is the
    session that [reset] makes from two fresh pieces; without [QUIT], [Esc]
    or [R] among the events the turn does end, on the same session; the
    first [R], with no [QUIT] and no [Esc] before it, does give the session
    of [reset], made from the next two draws, whatever the events after it;
    and a [QUIT] or an [Esc] with none of the three before it ends the
    process. *)
Theorem game_over_waits_for_restart (fuel : nat) (events : list Event)
    (due : bool) (w : Loop.World)
    (Hover : Tetris.game_over w.1 = true) :
  (forall w', Loop.frame fuel events due w = Next w' ->
     w' = w \/
     (KEYDOWN K_r ∈ events /\
      exists key1 key2 first second,
        Piece.init key1 = Some first /\ Piece.init key2 = Some second /\
        w'.1 = Tetris.reset first second)) /\
  (QUIT ∉ events -> KEYDOWN K_ESCAPE ∉ events -> KEYDOWN K_r ∉ events ->
     Loop.frame fuel events due w = Next w) /\
  (forall pre post, events = pre ++ KEYDOWN K_r :: post ->
     QUIT ∉ pre -> KEYDOWN K_ESCAPE ∉ pre -> KEYDOWN K_r ∉ pre ->
     exists first second,
       Piece.init (w.2 0%nat) = Some first /\
       Piece.init (w.2 1%nat) = Some second /\
       Loop.frame fuel events due w =
         Next (Tetris.reset first second, fun n => w.2 (S (S n)))) /\
  (forall pre e post, events = pre ++ e :: post ->
     e = QUIT \/ e = KEYDOWN K_ESCAPE ->
     QUIT ∉ pre -> KEYDOWN K_ESCAPE ∉ pre -> KEYDOWN K_r ∉ pre ->
     Loop.frame fuel events due w = SysExit).
Proof.
  unfold Loop.frame. rewrite Hover. split; [|split; [|split]].
  - intros w'. apply game_over_events_cases.
  - apply game_over_events_waits.
  - intros pre post -> Hq He Hr. rewrite game_over_events_skip by done.
    cbn [Loop.game_over_events].
    destruct (new_piece_draws w.2) as (first & H1 & ->).
    unfold mbind, step_bind.
    destruct (new_piece_draws (fun n => w.2 (S n))) as (second & H2 & ->).
    by exists first, second.
  - intros pre e post -> [-> | ->] Hq He Hr; by rewrite game_over_events_skip.
Qed.

(** From [over_state]: a turn with Left and Space leaves the session as it
    is, and a turn with Left, [R] and Space gives the session of [reset]. *)
Lemma game_over_waits_for_restart_witness :
  Loop.frame 30 [KEYDOWN K_LEFT; KEYDOWN K_SPACE] true (over_state, all_O) =
    Next (over_state, all_O) /\
  Loop.frame 30 [KEYDOWN K_LEFT; KEYDOWN K_r; KEYDOWN K_SPACE] true
      (over_state, all_O) =
    Next (Tetris.reset piece_O_spawned piece_O_spawned, all_O).
Proof.
  split.
  - destruct (game_over_waits_for_restart 30
                [KEYDOWN K_LEFT; KEYDOWN K_SPACE] true (over_state, all_O))
      as (_ & Hwait & _); [reflexivity|].
    apply Hwait.
    + intros H. repeat (apply elem_of_cons in H as [H|H]; [discriminate|]).
      by apply elem_of_nil in H.
    + intros H. repeat (apply elem_of_cons in H as [H|H]; [discriminate|]).
      by apply elem_of_nil in H.
    + intros H. repeat (apply elem_of_cons in H as [H|H]; [discriminate|]).
      by apply elem_of_nil in H.
  - destruct (game_over_waits_for_restart 30
                [KEYDOWN K_LEFT; KEYDOWN K_r; KEYDOWN K_SPACE] true
                (over_state, all_O))
      as (_ & _ & Hreset & _); [reflexivity|].
    destruct (Hreset [KEYDOWN K_LEFT] [KEYDOWN K_SPACE] eq_refl)
      as (first & second & H1 & H2 & Hframe).
    + intros H. repeat (apply elem_of_cons in H as [H|H]; [discriminate|]).
      by apply elem_of_nil in H.
    + intros H. repeat (apply elem_of_cons in H as [H|H]; [discriminate|]).
      by apply elem_of_nil in H.
    + intros H. repeat (apply elem_of_cons in H as [H|H]; [discriminate|]).
      by apply elem_of_nil in H.
    + assert (first = piece_O_spawned) as -> by (by injection H1).
      assert (second = piece_O_spawned) as -> by (by injection H2).
      exact Hframe.
Defined.

Lemma lock_piece_keeps_flag (fresh : Piece.t) (s : Tetris.t) :
  Tetris.game_over s = true -> Tetris.game_over (Tetris.lock_piece fresh s) = true.
Proof.
  intros Hover. destruct (lock_piece_fields fresh s) as (_ & -> & _).
  unfold merged_by_lock.
  destruct (merge_spec (current_cells s) (Piece.color (Tetris.current s))
              (Tetris.locked s) (Tetris.game_over s)) as [_ ->].
  by rewrite Hover.
Qed.

Lemma lock_keeps_flag (w w' : Loop.World) :
  Tetris.game_over w.1 = true -> Loop.lock w = Next w' ->
  Tetris.game_over w'.1 = true.
Proof.
  destruct w as [s g]. cbn [fst]. intros Hs. unfold Loop.lock.
  destruct (Tetris.lock_piece_raises s); [done|].
  destruct (Loop.new_piece g) as [[fresh g']| | |]; [|done..].
  unfold mbind, step_bind. intros [= <-]. by apply lock_piece_keeps_flag.
Qed.

Lemma move_keeps_flag (dx dy : Z) (s : Tetris.t) :
  Tetris.game_over (Loop.move dx dy s) = Tetris.game_over s.
Proof. unfold Loop.move. by destruct (Piece.fits _ _ _ _). Qed.

Lemma on_event_keeps_flag (fuel : nat) (e : Event) (w w' : Loop.World) :
  Tetris.game_over w.1 = true -> Loop.on_event fuel e w = Next w' ->
  Tetris.game_over w'.1 = true.
Proof.
  intros Hs. destruct e as [|key|]; cbn [Loop.on_event]; [done| |by intros [= <-]].
  destruct w as [s g]. cbn [fst] in Hs.
  destruct key; cbn [Loop.key_down]; try done;
    try (intros [= <-]; cbn [fst]; first [by rewrite move_keeps_flag | done]).
  - destruct (Piece.rotate _ _) as [[q b]|]; [|done]. by intros [= <-].
  - destruct (Piece.rotate _ _) as [[q b]|]; [|done]. by intros [= <-].
  - destruct (Piece.rotate_ccw _ _) as [[q b]|]; [|done]. by intros [= <-].
  - unfold Loop.hard_drop. destruct (Tetris.drop _ _ _) as [[q n]|]; [|done].
    by apply lock_keeps_flag.
Qed.

(** X15. Play never clears the flag [game_over]: when it is set, the handling
    of any list of events of [run] (moves, rotations, hard drops) and the
    gravity step leave it set; only [reset] clears it. *)
Theorem play_keeps_game_over (fuel : nat) (events : list Event) (due : bool)
    (w w' : Loop.World)
    (Hover : Tetris.game_over w.1 = true)
    (Hplay : Loop.on_events fuel events w ≫= Loop.gravity due = Next w') :
  Tetris.game_over w'.1 = true.
Proof.
  destruct (Loop.on_events fuel events w) as [w1| | |] eqn:He; [|done..].
  assert (Tetris.game_over w1.1 = true) as H1.
  { clear Hplay. revert w Hover He.
    induction events as [|e events IH]; intros w Hover; cbn [Loop.on_events].
    - by intros [= <-].
    - destruct (Loop.on_event fuel e w) as [w2| | |] eqn:H2; [|done..].
      unfold mbind, step_bind. apply IH. by eapply on_event_keeps_flag. }
  unfold mbind, step_bind in Hplay. destruct w1 as [s1 g1].
  unfold Loop.gravity in Hplay. destruct due; [|by injection Hplay as <-].
  destruct (Piece.fits _ 0 1 _).
  - injection Hplay as <-. cbn [fst] in *. by rewrite move_keeps_flag.
  - by eapply lock_keeps_flag.
Qed.

Lemma play_keeps_game_over_witness :
  exists w', Loop.on_events 30 [KEYDOWN K_LEFT; KEYDOWN K_SPACE] (over_state, all_O)
               ≫= Loop.gravity true = Next w' /\
             Tetris.game_over w'.1 = true.
Proof.
  eexists. split; [vm_compute; reflexivity|].
  eapply (play_keeps_game_over 30 [KEYDOWN K_LEFT; KEYDOWN K_SPACE] true
            (over_state, all_O)).
  - reflexivity.
  - vm_compute. reflexivity.
Defined.

(** ** The hard drop and the soft drops *)

Lemma move_down_accepted (s : Tetris.t) :
  Piece.fits (Tetris.current s) 0 1 (Tetris.locked s) = true ->
  Loop.move 0 1 s =
  Tetris.set_current s
    (Piece.set_y (Tetris.current s) (Piece.y (Tetris.current s) + 1)).
Proof.
  intros Hfit. unfold Loop.move. rewrite Hfit. f_equal.
  unfold Piece.set_y, Piece.set_x. cbn. by rewrite Z.add_0_r.
Qed.

Lemma soft_drops_reach (fuel fuel' : nat) (s : Tetris.t) (g : Rng)
    (q : Piece.t) (n : nat) :
  Tetris.drop fuel (Tetris.current s) (Tetris.locked s) = Some (q, n) ->
  Loop.on_events fuel' (replicate n (KEYDOWN K_DOWN)) (s, g) =
    Next (Tetris.set_current s q, g).
Proof.
  revert s q n. induction fuel as [|fuel IH]; intros s q n; cbn [Tetris.drop]; [done|].
  destruct (Piece.fits _ 0 1 _) eqn:Hfit.
  - destruct (Tetris.drop fuel _ _) as [[q' n']|] eqn:Hd; [|done].
    intros [= <- <-]. cbn [replicate Loop.on_events Loop.on_event Loop.key_down].
    unfold mbind, step_bind. rewrite move_down_accepted by done.
    rewrite (IH (Tetris.set_current s _) q' n') by (by destruct s).
    by destruct s.
  - intros [= <- <-]. cbn. by rewrite set_current_same.
Qed.

(** X16. A hard drop is so many soft drops and a gravity step: when the loop
    of [hard_drop] takes [n] steps to the piece [q], [n] key-down events
    [DOWN] bring the session to the same piece, and the gravity step that
    follows, the fall interval having elapsed, does what [SPACE] does from
    the start: it locks the piece there. *)
Theorem hard_drop_as_soft_drops (fuel fuel' : nat) (s : Tetris.t) (g : Rng)
    (q : Piece.t) (n : nat)
    (Hdrop : Tetris.drop fuel (Tetris.current s) (Tetris.locked s) = Some (q, n)) :
  Loop.on_events fuel' (replicate n (KEYDOWN K_DOWN)) (s, g) =
    Next (Tetris.set_current s q, g) /\
  Loop.gravity true (Tetris.set_current s q, g) =
    Loop.on_event fuel (KEYDOWN K_SPACE) (s, g) /\
  Loop.on_event fuel (KEYDOWN K_SPACE) (s, g) =
    Loop.lock (Tetris.set_current s q, g).
Proof.
  split; [by apply (soft_drops_reach fuel)|].
  destruct (drop_spec _ _ _ _ _ Hdrop) as (_ & Hstop & _).
  assert (Loop.on_event fuel (KEYDOWN K_SPACE) (s, g) =
          Loop.lock (Tetris.set_current s q, g)) as Hspace.
  { cbn [Loop.on_event Loop.key_down]. unfold Loop.hard_drop. by rewrite Hdrop. }
  split; [|done]. rewrite Hspace. unfold Loop.gravity.
  assert (Tetris.current (Tetris.set_current s q) = q) as -> by (by destruct s).
  assert (Tetris.locked (Tetris.set_current s q) = Tetris.locked s) as ->
    by (by destruct s).
  by rewrite Hstop.
Qed.

Lemma hard_drop_as_soft_drops_witness :
  Loop.on_events 0 (replicate 22 (KEYDOWN K_DOWN))
    (Tetris.reset piece_I_spawned piece_I_spawned, all_O) =
  Next (Tetris.set_current (Tetris.reset piece_I_spawned piece_I_spawned)
          (Piece.set_y piece_I_spawned 18), all_O).
Proof.
  destruct (hard_drop_as_soft_drops 30 0
              (Tetris.reset piece_I_spawned piece_I_spawned) all_O
              (Piece.set_y piece_I_spawned 18) 22) as [Hsoft _].
  - vm_compute. reflexivity.
  - exact Hsoft.
Defined.

Lemma fits_set_y (p : Piece.t) (k : Z) (locked : gmap (Z * Z) Color) :
  Piece.fits (Piece.set_y p (Piece.y p + 1)) 0 k locked = Piece.fits p 0 (1 + k) locked.
Proof.
  unfold Piece.fits, Piece.set_y. cbn [Piece.shape Piece.x Piece.y].
  by rewrite (Z.add_assoc (Piece.y p) 1 k).
Qed.

(** X17. The hard drop stops at the first obstacle: when its loop takes [n]
    steps from the piece [p], the piece passes only through positions that
    [valid_space] accepts, one row after the other, the position one row
    below the last is refused, and only the row of the piece has changed. *)
Theorem hard_drop_stops_at_first_obstacle (fuel : nat) (p q : Piece.t) (n : nat)
    (locked : gmap (Z * Z) Color)
    (Hdrop : Tetris.drop fuel p locked = Some (q, n)) :
  (forall k, 1 <= k <= Z.of_nat n -> Piece.fits p 0 k locked = true) /\
  Piece.fits p 0 (Z.of_nat n + 1) locked = false /\
  q = Piece.set_y p (Piece.y p + Z.of_nat n).
Proof.
  revert p q n Hdrop. induction fuel as [|fuel IH]; intros p q n; cbn [Tetris.drop]; [done|].
  destruct (Piece.fits p 0 1 locked) eqn:Hfit.
  - destruct (Tetris.drop fuel _ locked) as [[q' n']|] eqn:Hd; [|done].
    intros [= <- <-]. destruct (IH _ _ _ Hd) as (Hpath & Hstop & Hq).
    split; [|split].
    + intros k Hk. destruct (decide (k = 1)) as [->|Hne]; [done|].
      replace k with (1 + (k - 1)) by lia. rewrite <- fits_set_y. apply Hpath. lia.
    + rewrite fits_set_y in Hstop.
      by replace (Z.of_nat (S n') + 1) with (1 + (Z.of_nat n' + 1)) by lia.
    + rewrite Hq. destruct p. unfold Piece.set_y. cbn. f_equal. lia.
  - intros [= <- <-]. split; [intros k Hk; exfalso; lia|]. split; [done|].
    destruct p. unfold Piece.set_y. cbn. f_equal. lia.
Qed.

Lemma hard_drop_stops_at_first_obstacle_witness :
  Piece.fits piece_I_spawned 0 (Z.of_nat 22 + 1) ∅ = false.
Proof.
  destruct (hard_drop_stops_at_first_obstacle 30 piece_I_spawned
              (Piece.set_y piece_I_spawned 18) 22 ∅) as (_ & Hstop & _).
  - vm_compute. reflexivity.
  - exact Hstop.
Defined.

(** ** The sessions of the examples *)

Lemma no_full_row_checked (locked : gmap (Z * Z) Color) :
  forallb (fun y => negb (full_rowb locked y)) (seqZ 0 ROWS) = true ->
  forall y, ~ full_row locked y.
Proof.
  intros Hall y Hfull%full_rowb_spec. rewrite forallb_forall in Hall.
  assert (In y (seqZ 0 ROWS)) as Hin.
  { apply list_elem_of_In, elem_of_seqZ.
    unfold full_rowb in Hfull. apply andb_true_iff in Hfull as [Hr _].
    apply andb_true_iff in Hr as [?%Z.leb_le ?%Z.ltb_lt]. lia. }
  specialize (Hall y Hin). rewrite Hfull in Hall. discriminate.
Qed.

(** The sessions [kick_state] and [four_rows_state] are as the sessions of a
    game are. *)
Lemma kick_state_ok : game_ok kick_state.
Proof.
  split; [split; [|split; [|split]]|split; [|split; [|split; [|split]]]].
  - apply keys_in_well_checked. vm_compute. reflexivity.
  - split; [split; [cbn; lia|reflexivity]|split; [reflexivity|cbn; lia]].
  - vm_compute. reflexivity.
  - exists KeyO. reflexivity.
  - apply no_full_row_checked. vm_compute. reflexivity.
  - cbn. lia.
  - cbn. lia.
  - reflexivity.
  - vm_compute. reflexivity.
Qed.

Lemma four_rows_state_ok : game_ok four_rows_state.
Proof.
  split; [split; [|split; [|split]]|split; [|split; [|split; [|split]]]].
  - apply keys_in_well_checked. vm_compute. reflexivity.
  - split; [split; [cbn; lia|reflexivity]|split; [reflexivity|cbn; lia]].
  - vm_compute. reflexivity.
  - exists KeyO. reflexivity.
  - apply no_full_row_checked. vm_compute. reflexivity.
  - cbn. lia.
  - cbn. lia.
  - reflexivity.
  - vm_compute. reflexivity.
Qed.
